(** * LucianPets cognition core: a shallow embedding and its properties

    The development follows the JavaScript sources of the cognition
    pipeline:

    - [HASR]       server/src/lib/lucian/aetheron.js, class HASRComponent
    - [SSP]        server/src/lib/lucian/aetheron.js, class SSPComponent
    - [MPU]        the memory processing unit (class MPUComponent)
    - [GhostLoops] server/src/lib/lucian/ghostLoops.js
    - [Wonder]     server/src/lib/lucian/wonder.js, class WonderEngine
    - [Aetheron]   server/src/lib/lucian/aetheron.js, class AetheronIdentity

    Conventions of the embedding.

    - A JavaScript number is an exact rational ([Q]); rounding of binary64
      arithmetic is not modelled, and a division 0/0 is 0 instead of [NaN]
      (noted where it can occur).  Equality of numbers is [Qeq] ([==]).
      The concrete evaluations below rely on comparisons that come out the
      same under binary64 rounding.
    - [Date.now()] and the random suffixes of generated names are inputs of
      the functions that read them.
    - A [Map] whose iteration order matters is an association list in
      insertion order; a [Map] only accessed by key is a [gmap].
    - A [Set] built from an array is the list of its distinct elements in
      order of first occurrence.
    - Events ([emit]) and console output are dropped: no listener of the
      modelled classes feeds back into their state. *)

From Stdlib Require Import QArith Qminmax Lqa ZArith.
From stdpp Require Import gmap strings list fin_maps pretty sorting.

(* ===================================================================== *)
(** ** JavaScript primitives used by the sources *)
(* ===================================================================== *)

Module Js.

(** Comparison of numbers, as booleans. *)
Definition gtb (a b : Q) : bool :=
  match (a ?= b)%Q with Gt => true | _ => false end.
Definition ltb (a b : Q) : bool :=
  match (a ?= b)%Q with Lt => true | _ => false end.
Definition geb (a b : Q) : bool := negb (ltb a b).
Definition leb (a b : Q) : bool := negb (gtb a b).

(** [Math.min] and [Math.max]. *)
Definition Math_min (a b : Q) : Q := Qmin a b.
Definition Math_max (a b : Q) : Q := Qmax a b.

(** A length, count or size read as a number. *)
Definition num (n : nat) : Q := inject_Z (Z.of_nat n).

(** [x || d] on a possibly absent number: [undefined] and [0] are falsy. *)
Definition num_or (x : option Q) (d : Q) : Q :=
  match x with
  | Some q => if Qeq_bool q 0 then d else q
  | None => d
  end.

(** [x || []] on a possibly absent array. *)
Definition arr_or_empty {A} (x : option (list A)) : list A :=
  match x with Some l => l | None => [] end.

Section Sets.
Context {A : Type} `{EqDecision A}.

(** [s.add(x)] on an insertion-ordered set. *)
Definition Set_add (s : list A) (x : A) : list A :=
  if decide (x ∈ s) then s else s ++ [x].

(** [new Set(arr)]. *)
Definition new_Set (arr : list A) : list A := foldl Set_add [] arr.

(** [s.has(x)]. *)
Definition Set_has (s : list A) (x : A) : bool := bool_decide (x ∈ s).
End Sets.

Section Sort.
Context {A : Type}.
(** [cmp a b] is the sign test [compareFn(a, b) <= 0]: [a] may stay in
    front of [b]. *)
Variable keep_before : A → A → bool.

Fixpoint sort_insert (x : A) (l : list A) : list A :=
  match l with
  | [] => [x]
  | y :: l' => if keep_before x y then x :: y :: l'
               else y :: sort_insert x l'
  end.

(** [Array.prototype.sort(compareFn)]: the sort is stable (ECMAScript
    2019), so with a consistent comparator its result is the one of a
    stable insertion sort. *)
Definition Array_sort (l : list A) : list A := foldr sort_insert [] l.
End Sort.

(** [s.includes(sub)] on strings. *)
Fixpoint includes (s sub : string) : bool :=
  if String.prefix sub s then true
  else match s with
       | EmptyString => false
       | String _ s' => includes s' sub
       end.

End Js.

(* ===================================================================== *)
(** ** HASR: pattern resonance engine (aetheron.js, HASRComponent) *)
(* ===================================================================== *)

Module HASR.
Import Js.

(** [this.config]. *)
Record config := {
  learningRate : Q;
  resonanceThreshold : Q;
  hierarchyDepth : nat;
  patternDecay : Q;
  noveltyBonus : Q;
  reinforcementFactor : Q
}.

Definition default_config : config := {|
  learningRate := 0.15;
  resonanceThreshold := 0.6;
  hierarchyDepth := 5;
  patternDecay := 0.995;
  noveltyBonus := 0.3;
  reinforcementFactor := 1.2
|}.

(** The result of [preprocessInput]: [{features, timestamp, context}];
    [context] is never read by the functions below. *)
Record instance := {
  features : list string;
  itimestamp : Z
}.

(** An entry of [this.patterns]. *)
Record pattern := {
  template : list string;
  strength : Q;
  instances : list instance;
  confidence : Q;
  level : nat
}.

(** An entry of [this.resonanceNetwork.get(name)]. *)
Record connection := {
  target : string;
  cstrength : Q
}.

(** The part of the component that pattern learning reads and writes.
    [this.hierarchies] is left out: its entries are built by
    [abstractPattern] as [{features, signature, level, abstraction,
    source}], they have no [template], so [calculateResonance] returns 0
    on each of them and [findResonance] (which starts from
    [maxResonance = 0] and tests [>]) never selects one. *)
Record state := {
  patterns : list (string * pattern);
  resonanceNetwork : gmap string (list connection);
  patternsLearned : nat;
  singleShotSuccesses : nat
}.

(** [Map.get] and in-place mutation of the object stored under a key. *)
Fixpoint get (ps : list (string * pattern)) (name : string) : option pattern :=
  match ps with
  | [] => None
  | (n, p) :: r => if decide (n = name) then Some p else get r name
  end.

Fixpoint update (ps : list (string * pattern)) (name : string)
         (f : pattern → pattern) : list (string * pattern) :=
  match ps with
  | [] => []
  | (n, p) :: r => if decide (n = name) then (n, f p) :: r
                   else (n, p) :: update r name f
  end.

(** [Map.set]: replaces in place, or appends a new key. *)
Fixpoint set (ps : list (string * pattern)) (name : string) (p : pattern)
  : list (string * pattern) :=
  match ps with
  | [] => [(name, p)]
  | (n, q) :: r => if decide (n = name) then (n, p) :: r
                   else (n, q) :: set r name p
  end.

(** [initializeBasePatterns]. *)
Definition base_pattern (t : list string) : pattern :=
  {| template := t; strength := 1.0; instances := [];
     confidence := 0.9; level := 0 |}.

Definition basePatterns : list (string * pattern) :=
  [ ("interaction_positive", base_pattern ["joy"; "engagement"; "reward"]);
    ("interaction_negative", base_pattern ["fear"; "avoidance"; "punishment"]);
    ("exploration", base_pattern ["curiosity"; "movement"; "discovery"]);
    ("rest", base_pattern ["calm"; "stillness"; "recovery"]);
    ("play", base_pattern ["excitement"; "movement"; "joy"]);
    ("learning", base_pattern ["attention"; "repetition"; "understanding"]) ]%string.

Definition initial_state : state := {|
  patterns := basePatterns;
  resonanceNetwork := ∅;
  patternsLearned := 6;
  singleShotSuccesses := 0
|}.

(** [calculateResonance(pattern1, pattern2)], on the three properties it
    reads: [pattern1.features], [pattern2.template], [pattern2.confidence]
    ([None] for an absent property). *)
Definition calculateResonance (features1 template2 : option (list string))
           (confidence2 : option Q) : Q :=
  match features1, template2 with
  | Some f1, Some t2 =>
      let features1 := new_Set f1 in
      let features2 := new_Set t2 in
      let intersection := new_Set (filter (λ x, Set_has features2 x = true) features1) in
      let union := new_Set (features1 ++ features2) in
      if decide (length union = 0%nat) then 0%Q
      else
        let similarity := (num (length intersection) / num (length union))%Q in
        let confidence := num_or confidence2 1 in
        (similarity * confidence)%Q
  | _, _ => 0%Q
  end.

(** [calculateResonance(inst, p)] for a stored pattern. *)
Definition resonance (i : instance) (p : pattern) : Q :=
  calculateResonance (Some (features i)) (Some (template p)) (Some (confidence p)).

(** [findResonance(pattern)]: the first loop, over [this.patterns]; the
    result is [(maxResonance, bestPattern)], the best pattern given by its
    key. *)
Definition findResonance (st : state) (i : instance) : Q * option string :=
  foldl (λ (acc : Q * option string) (e : string * pattern),
           let r := resonance i e.2 in
           if gtb r acc.1 then (r, Some e.1) else acc)
        (0%Q, None) (patterns st).

(** [findCommonFeatures(instances)].  [featureCounts] is a [Map] in
    insertion order. *)
Fixpoint count_feature (fc : list (string * nat)) (f : string)
  : list (string * nat) :=
  match fc with
  | [] => [(f, 1%nat)]
  | (g, c) :: r => if decide (g = f) then (g, S c) :: r
                   else (g, c) :: count_feature r f
  end.

Definition featureCounts (insts : list instance) : list (string * nat) :=
  foldl (λ fc i, foldl count_feature fc (features i)) [] insts.

Definition findCommonFeatures (insts : list instance) : list string :=
  if decide (length insts = 0%nat) then []
  else
    let threshold := (num (length insts) * 0.5)%Q in
    (filter (λ e, geb (num e.2) threshold = true) (featureCounts insts)).*1.

(** [calculatePatternConfidence(pattern)].  When every instance has an
    empty feature list the division is 0/0: [NaN] in JavaScript, 0 here. *)
Definition allFeatures (insts : list instance) : list string :=
  foldl (λ s i, foldl Set_add s (features i)) [] insts.

Definition calculatePatternConfidence (p : pattern) : Q :=
  if decide (length (instances p) < 2)%nat then 0.5%Q
  else
    let consistency :=
      (num (length (template p)) / num (length (allFeatures (instances p))))%Q in
    let experienceFactor := Math_min 1 (num (length (instances p)) / 10) in
    (consistency * 0.7 + experienceFactor * 0.3)%Q.

(** [reinforceConnections(pattern)], the pattern given by its key (what
    [findPatternName] returns for an object stored in [this.patterns]). *)
Definition reinforce_one (ps : list (string * pattern)) (c : connection)
  : list (string * pattern) :=
  update ps (target c)
    (λ q, {| template := template q;
             strength := (strength q * (1 + cstrength c * 0.1))%Q;
             instances := instances q;
             confidence := confidence q;
             level := level q |}).

Definition reinforceConnections (name : string) (st : state) : state :=
  match resonanceNetwork st !! name with
  | Some connections =>
      {| patterns := foldl reinforce_one (patterns st) connections;
         resonanceNetwork := resonanceNetwork st;
         patternsLearned := patternsLearned st;
         singleShotSuccesses := singleShotSuccesses st |}
  | None => st
  end.

(** [strengthenPattern(pattern, newInstance)] up to, and without, the call
    of [reinforceConnections]: the four assignments to the pattern. *)
Definition strengthen (cfg : config) (newInstance : instance) (p : pattern)
  : pattern :=
  let instances1 := instances p ++ [newInstance] in
  let strength1 := Math_min 1 (strength p * reinforcementFactor cfg)%Q in
  let template1 :=
    if decide (1 < length instances1)%nat then findCommonFeatures instances1
    else template p in
  let p1 := {| template := template1; strength := strength1;
               instances := instances1; confidence := confidence p;
               level := level p |} in
  {| template := template1; strength := strength1; instances := instances1;
     confidence := calculatePatternConfidence p1; level := level p |}.

Definition strengthenPattern (cfg : config) (name : string)
           (newInstance : instance) (st : state) : state :=
  reinforceConnections name
    {| patterns := update (patterns st) name (strengthen cfg newInstance);
       resonanceNetwork := resonanceNetwork st;
       patternsLearned := patternsLearned st;
       singleShotSuccesses := singleShotSuccesses st |}.

(** [createResonanceConnections(patternName, pattern)]. *)
Definition createResonanceConnections (patternName : string) (p : pattern)
           (st : state) : state :=
  let connections :=
    foldl (λ cs (e : string * pattern),
             if decide (e.1 = patternName) then cs
             else
               let r := calculateResonance (Some (template p))
                          (Some (template e.2)) (Some (confidence e.2)) in
               if gtb r 0.3 then cs ++ [{| target := e.1; cstrength := r |}]
               else cs)
          [] (patterns st) in
  {| patterns := patterns st;
     resonanceNetwork := <[patternName := connections]> (resonanceNetwork st);
     patternsLearned := patternsLearned st;
     singleShotSuccesses := singleShotSuccesses st |}.

(** [learnNovelPattern(pattern)]; [patternName] is the generated
    [pattern_<now>_<random>] key. *)
Definition learnNovelPattern (cfg : config) (patternName : string)
           (i : instance) (st : state) : state :=
  let newPattern := {| template := features i;
                       strength := (0.5 + noveltyBonus cfg)%Q;
                       instances := [i];
                       confidence := 0.5;
                       level := 0 |} in
  createResonanceConnections patternName newPattern
    {| patterns := set (patterns st) patternName newPattern;
       resonanceNetwork := resonanceNetwork st;
       patternsLearned := S (patternsLearned st);
       singleShotSuccesses := singleShotSuccesses st |}.

(** [processPattern(input)] after [preprocessInput], on the state above
    ([updateHierarchy] only writes [this.hierarchies]).  The result pairs
    the new state with the returned [{resonance, pattern}].  A resonance
    above the threshold without a best pattern needs a negative threshold;
    the source then fails on [null], the state is kept here. *)
Definition processPattern (cfg : config) (patternName : string)
           (i : instance) (st : state) : state * (Q * option string) :=
  let resonanceResult := findResonance st i in
  let st' :=
    if gtb resonanceResult.1 (resonanceThreshold cfg) then
      match resonanceResult.2 with
      | Some name =>
          let st1 := strengthenPattern cfg name i st in
          let single :=
            match get (patterns st1) name with
            | Some p => gtb resonanceResult.1 0.8
                        && bool_decide (length (instances p) = 1%nat)
            | None => false
            end in
          {| patterns := patterns st1;
             resonanceNetwork := resonanceNetwork st1;
             patternsLearned := patternsLearned st1;
             singleShotSuccesses :=
               if single then S (singleShotSuccesses st1)
               else singleShotSuccesses st1 |}
      | None => st
      end
    else learnNovelPattern cfg patternName i st in
  (st', resonanceResult).

(** The decay sweep of [startResonanceMonitoring], one pass of
    [this.patterns.forEach]: every pattern is decayed in place; a pattern
    whose decayed strength is below 0.01 is deleted, with its entry of the
    resonance network, under the key [findPatternName] finds for it (its
    own: the keys of a [Map] are distinct). *)
Definition decayed (cfg : config) (p : pattern) : pattern :=
  {| template := template p;
     strength := (strength p * patternDecay cfg)%Q;
     instances := instances p;
     confidence := confidence p;
     level := level p |}.

Definition weak (e : string * pattern) : bool := ltb (strength e.2) 0.01.

Definition decay_sweep (cfg : config) (st : state) : state :=
  let swept := (λ e : string * pattern, (e.1, decayed cfg e.2)) <$> patterns st in
  {| patterns := filter (λ e, weak e = false) swept;
     resonanceNetwork :=
       foldl (λ net e, if weak e then delete e.1 net else net)
             (resonanceNetwork st) swept;
     patternsLearned := patternsLearned st;
     singleShotSuccesses := singleShotSuccesses st |}.

End HASR.


(* ===================================================================== *)
(** ** MPU: the memory store (class MPUComponent) *)
(* ===================================================================== *)

Module MPU.
Import Js.

(** JSON-like values held by the properties of a memory object.  An absent
    property ([undefined]) is an absent key of the object. *)
#[local] Unset Elimination Schemes.
Inductive value :=
| VNull
| VBool (b : bool)
| VNum (q : Q)
| VStr (s : string)
| VArr (l : list value)
| VObj (fields : list (string * value)).
#[local] Set Elimination Schemes.

(** A memory is a plain JavaScript object. *)
Abbreviation object := (gmap string value).

(** Truthiness of [o.k]. *)
Definition truthy (v : option value) : bool :=
  match v with
  | None | Some VNull => false
  | Some (VBool b) => b
  | Some (VNum q) => negb (Qeq_bool q 0)
  | Some (VStr s) => negb (String.eqb s "")
  | Some (VArr _) | Some (VObj _) => true
  end.

(** [o.k] read as a number.  The sources read [importance], [timestamp],
    [lastRetrieved] and [strength] this way, on objects where [storeMemory]
    wrote a number; a non-numeric value ([NaN] arithmetic) is read as 0. *)
Definition getNum (o : object) (k : string) : Q :=
  match o !! k with Some (VNum q) => q | _ => 0%Q end.

(** [o.k || d] for a numeric property. *)
Definition getNum_or (o : object) (k : string) (d : Q) : Q :=
  match o !! k with
  | Some (VNum q) => num_or (Some q) d
  | _ => d
  end.

(** [o.k || []] for an array property. *)
Definition getArr (o : object) (k : string) : list value :=
  match o !! k with Some (VArr l) => l | _ => [] end.

(** A property that is a non-empty string (a truthy string). *)
Definition getStr (o : object) (k : string) : option string :=
  match o !! k with
  | Some (VStr s) => if String.eqb s "" then None else Some s
  | _ => None
  end.

Definition importance (o : object) : Q := getNum o "importance".
Definition timestamp (o : object) : Q := getNum o "timestamp".

(** [this.config] ([persistencePath] concerns the disk only). *)
Record config := {
  maxEpisodic : nat;
  maxSemantic : nat;
  consolidationThreshold : Q;
  forgettingRate : Q;
  importanceDecay : Q
}.

Definition default_config : config := {|
  maxEpisodic := 1000;
  maxSemantic := 500;
  consolidationThreshold := 0.7;
  forgettingRate := 0.001;
  importanceDecay := 0.99
|}.

(** The in-memory partitions and the statistics the stores update. *)
Record state := {
  memoryStore : gmap string object;
  episodicMemory : list object;
  semanticMemory : list (string * object);
  proceduralMemory : gmap string (list object);
  totalMemories : nat;
  retentionRate : Q
}.

Definition initial_state : state := {|
  memoryStore := ∅;
  episodicMemory := [];
  semanticMemory := [];
  proceduralMemory := ∅;
  totalMemories := 0;
  retentionRate := 0.85
|}.

(** *** Episodic partition *)

(** [(a, b) => b.importance - a.importance] is [<= 0]. *)
Definition by_importance_desc (a b : object) : bool :=
  leb (importance b) (importance a).

(** [(a, b) => b.timestamp - a.timestamp] is [<= 0]. *)
Definition by_timestamp_desc (a b : object) : bool :=
  leb (timestamp b) (timestamp a).

(** [storeEpisodicMemory(memory)]. *)
Definition storeEpisodicMemory (cfg : config) (memory : object)
           (episodic : list object) : list object :=
  let pushed := episodic ++ [memory] in
  if decide (maxEpisodic cfg < length pushed)%nat then
    let sorted := Array_sort by_importance_desc pushed in
    let sliced := take (maxEpisodic cfg) sorted in
    Array_sort by_timestamp_desc sliced
  else pushed.

(** [getRecentMemories(count)]: [slice(-count).reverse()]; [slice(-0)] is
    the whole array. *)
Definition getRecentMemories (count : nat) (episodic : list object)
  : list object :=
  if decide (count = 0%nat) then reverse episodic
  else reverse (drop (length episodic - count) episodic).

(** [forgetUnimportantMemories()]: the callback of [filter] first decays
    the record in place, then decides whether to keep it.  The clock is read
    once for the sweep. *)
Definition decay (cfg : config) (memory : object) : object :=
  <["importance" := VNum (importance memory * importanceDecay cfg)]> memory.

Definition stale (now : Z) (memory : object) : bool :=
  negb (truthy (memory !! "lastRetrieved"))
  || gtb (inject_Z now - getNum memory "lastRetrieved") 86400000.

Definition shouldForget (now : Z) (memory : object) : bool :=
  ltb (importance memory) 0.1 && stale now memory.

Definition forgetUnimportantMemories (cfg : config) (now : Z) (st : state)
  : state :=
  let kept := filter (λ m, shouldForget now m = false)
                     (decay cfg <$> episodicMemory st) in
  {| memoryStore := memoryStore st;
     episodicMemory := kept;
     semanticMemory := semanticMemory st;
     proceduralMemory := proceduralMemory st;
     totalMemories := totalMemories st;
     retentionRate := (num (length kept) / num (maxEpisodic cfg))%Q |}.

(** *** Semantic partition: a [Map] from key to object, in insertion order *)

Fixpoint get (m : list (string * object)) (k : string) : option object :=
  match m with
  | [] => None
  | (k', v) :: r => if decide (k' = k) then Some v else get r k
  end.

Fixpoint set (m : list (string * object)) (k : string) (v : object)
  : list (string * object) :=
  match m with
  | [] => [(k, v)]
  | (k', v') :: r => if decide (k' = k) then (k', v) :: r
                     else (k', v') :: set r k v
  end.

(** [memory.concept || memory.content?.concept || `semantic_${Date.now()}`].
    Concepts are strings throughout the sources; a concept of another type
    is read as absent. *)
Definition content_concept (o : object) : option string :=
  match o !! "content" with
  | Some (VObj fields) =>
      match list_find (λ f, f.1 = "concept") fields with
      | Some (_, (_, VStr s)) => if String.eqb s "" then None else Some s
      | _ => None
      end
  | _ => None
  end.

Definition semantic_key (now : Z) (memory : object) : string :=
  match getStr memory "concept" with
  | Some c => c
  | None =>
      match content_concept memory with
      | Some c => c
      | None => "semantic_" +:+ pretty now
      end
  end.

(** The object written on a key hit:
    [{...existing, ...memory, strength: (existing.strength || 1) + 0.1,
      connections: [...(existing.connections || []),
                    ...(memory.connections || [])]}]. *)
Definition merge (existing memory : object) : object :=
  <["connections" := VArr (getArr existing "connections"
                           ++ getArr memory "connections")]>
    (<["strength" := VNum (getNum_or existing "strength" 1 + 0.1)]>
       (memory ∪ existing)).

(** [(a, b) => (b[1].strength || 1) - (a[1].strength || 1)] is [<= 0]. *)
Definition by_strength_desc (a b : string * object) : bool :=
  leb (getNum_or b.2 "strength" 1) (getNum_or a.2 "strength" 1).

(** [storeSemanticMemory(memory)]. *)
Definition storeSemanticMemory (cfg : config) (now : Z) (memory : object)
           (semantic : list (string * object)) : list (string * object) :=
  let key := semantic_key now memory in
  let stored :=
    match get semantic key with
    | Some existing => set semantic key (merge existing memory)
    | None => set semantic key memory
    end in
  if decide (maxSemantic cfg < length stored)%nat then
    let entries := Array_sort by_strength_desc stored in
    foldl (λ m e, set m e.1 e.2) [] (take (maxSemantic cfg) entries)
  else stored.

(** *** Procedural and general partitions *)

(** [storeProceduralMemory(memory)]; the procedure name is read as a
    string, as for the concept of a semantic record. *)
Definition storeProceduralMemory (memory : object)
           (procedural : gmap string (list object))
  : gmap string (list object) :=
  let procedure :=
    match getStr memory "procedure" with
    | Some p => p
    | None => match getStr memory "action" with
              | Some a => a
              | None => "unknown"
              end
    end in
  let entry :=
    <["executionCount" := VNum 1]>
      (<["successRate" := VNum (getNum_or memory "successRate" 0.5)]> memory) in
  <[procedure := default [] (procedural !! procedure) ++ [entry]]> procedural.

Definition storeGeneralMemory (id : string) (memory : object)
           (store : gmap string object) : gmap string object :=
  <[id := memory]> store.

(** *** The entry point *)

(** [memory.context?.includes(x)]: [None] when [includes] is not a
    function of the value (a [TypeError]). *)
Definition context_includes (memory : object) (x : string) : option bool :=
  match memory !! "context" with
  | None | Some VNull => Some false
  | Some (VStr s) => Some (includes s x)
  | Some (VArr l) =>
      Some (existsb (λ v, match v with VStr s => String.eqb s x | _ => false end) l)
  | Some _ => None
  end.

(** [calculateImportance(memory)].  [None]: the optional call of
    [includes] threw.  A [novelty] that is not a number is read as absent. *)
Definition calculateImportance (memory : object) : option Q :=
  let i0 := 0.5%Q in
  let i1 := if truthy (memory !! "emotion") then (i0 + 0.2)%Q else i0 in
  let i2 := match memory !! "type" with
            | Some (VStr t) =>
                if String.eqb t "learning" || String.eqb t "achievement"
                then (i1 + 0.3)%Q else i1
            | _ => i1
            end in
  owner ← context_includes memory "owner";
  user ← (if owner then Some true else context_includes memory "user");
  let i3 := if owner || user then (i2 + 0.2)%Q else i2 in
  let i4 := match memory !! "novelty" with
            | Some (VNum n) => if gtb n 0.7 then (i3 + 0.2)%Q else i3
            | _ => i3
            end in
  Some (Math_min 1 i4).

(** [storeMemory(memory)]; [id] is the generated identifier and [now] is
    [Date.now()].  [None]: [calculateImportance] threw.  Writing to disk
    ([persistMemory]) does not touch the partitions. *)
Definition storeMemory (cfg : config) (id : string) (now : Z)
           (memory : object) (st : state) : option (state * object) :=
  imp ← (if truthy (memory !! "importance") then memory !! "importance"
         else VNum <$> calculateImportance memory);
  let enhancedMemory :=
    <["lastRetrieved" := VNull]>
      (<["retrievalCount" := VNum 0]>
         (<["importance" := imp]>
            (<["timestamp" := VNum (inject_Z now)]>
               (<["id" := VStr id]> memory)))) in
  let type := match memory !! "type" with Some (VStr t) => t | _ => "" end in
  let st1 :=
    if String.eqb type "episodic" then
      {| memoryStore := memoryStore st;
         episodicMemory := storeEpisodicMemory cfg enhancedMemory (episodicMemory st);
         semanticMemory := semanticMemory st;
         proceduralMemory := proceduralMemory st;
         totalMemories := S (totalMemories st);
         retentionRate := retentionRate st |}
    else if String.eqb type "semantic" then
      {| memoryStore := memoryStore st;
         episodicMemory := episodicMemory st;
         semanticMemory := storeSemanticMemory cfg now enhancedMemory (semanticMemory st);
         proceduralMemory := proceduralMemory st;
         totalMemories := S (totalMemories st);
         retentionRate := retentionRate st |}
    else if String.eqb type "procedural" then
      {| memoryStore := memoryStore st;
         episodicMemory := episodicMemory st;
         semanticMemory := semanticMemory st;
         proceduralMemory := storeProceduralMemory enhancedMemory (proceduralMemory st);
         totalMemories := S (totalMemories st);
         retentionRate := retentionRate st |}
    else
      {| memoryStore := storeGeneralMemory id enhancedMemory (memoryStore st);
         episodicMemory := episodicMemory st;
         semanticMemory := semanticMemory st;
         proceduralMemory := proceduralMemory st;
         totalMemories := S (totalMemories st);
         retentionRate := retentionRate st |} in
  Some (st1, enhancedMemory).

(** *** Retrieval *)

(** The argument of [retrieveMemory]: a string or an object. *)
Inductive query :=
| QString (s : string)
| QObject (o : object).

Section Retrieval.
(** The text functions of the language are parameters of the search:
    [stringify m] is [JSON.stringify(memory).toLowerCase()], [queryLower q] is
    [JSON.stringify(query).toLowerCase()] and [toLowerCase] is the method of
    strings. *)
Variable stringify : object → string.
Variable queryLower : query → string.
Variable toLowerCase : string → string.

(** [semanticMatch(memory, query)].  Concepts and types are compared as
    strings. *)
Definition semanticMatch (memory : object) (q : query) : bool :=
  match q with
  | QString s => includes (stringify memory) (toLowerCase s)
  | QObject o =>
      match getStr o "concept", getStr memory "concept" with
      | Some qc, Some mc => String.eqb qc mc
      | _, _ =>
          match getStr o "type", getStr memory "type" with
          | Some qt, Some mt => String.eqb qt mt
          | _, _ => false
          end
      end
  end.

(** The test of the loop of [searchEpisodicMemory]. *)
Definition episodicMatch (memory : object) (q : query) : bool :=
  includes (stringify memory) (queryLower q) || semanticMatch memory q.

(** What [retrieveMemory] does to each record it returns:
    [retrievalCount++] and [lastRetrieved = Date.now()]. *)
Definition retrieved (now : Z) (memory : object) : object :=
  <["lastRetrieved" := VNum (inject_Z now)]>
    (<["retrievalCount" := VNum (getNum memory "retrievalCount" + 1)]> memory).

(** The records of a partition are shared with the result of the search:
    [touch limit matches now l] is the partition [l] after the first [limit]
    matching records were updated in place, with these records. *)
Fixpoint touch (limit : nat) (matches : object → bool) (now : Z)
         (l : list object) : list object * list object :=
  match l with
  | [] => ([], [])
  | m :: r =>
      if matches m then
        match limit with
        | O => (m :: r, [])
        | S k => let t := touch k matches now r in
                 (retrieved now m :: t.1, retrieved now m :: t.2)
        end
      else let t := touch limit matches now r in (m :: t.1, t.2)
  end.

(** [(a, b) => scoreB - scoreA] is [<= 0], with
    [score = importance * (1 + retrievalCount * 0.1)]. *)
Definition score (m : object) : Q :=
  (importance m * (1 + getNum m "retrievalCount" * 0.1))%Q.

Definition by_score_desc (a b : object) : bool := leb (score b) (score a).

(** [retrieveMemory(query)]: the ranked result and the state afterwards
    ([searchEpisodicMemory] keeps 10 matches, [searchSemanticMemory] 5).  The
    counter [stats.retrievals] is not part of the state. *)
Definition retrieveMemory (now : Z) (q : query) (st : state)
  : list object * state :=
  let e := touch 10 (λ m, episodicMatch m q) now (episodicMemory st) in
  let s := touch 5 (λ m, semanticMatch m q) now (semanticMemory st).*2 in
  (Array_sort by_score_desc (e.2 ++ s.2),
   {| memoryStore := memoryStore st;
      episodicMemory := e.1;
      semanticMemory := zip (semanticMemory st).*1 s.1;
      proceduralMemory := proceduralMemory st;
      totalMemories := totalMemories st;
      retentionRate := retentionRate st |}).
End Retrieval.

(** *** Consolidation *)

(** [extractPatternKey(memory)]; the property is read as a string. *)
Definition extractPatternKey (memory : object) : string :=
  match getStr memory "action" with
  | Some a => "action_" +:+ a
  | None =>
      match getStr memory "concept" with
      | Some c => "concept_" +:+ c
      | None =>
          match getStr memory "type" with
          | Some t => "type_" +:+ t
          | None => "general"
          end
      end
  end.

(** A value of the [Map] built by [findPatterns]. *)
Record found := {
  fconcept : string;
  fcontent : list object;
  fcount : nat;
  fstrength : Q
}.

(** The body of the loop of [findPatterns] for a memory of key [key], in a
    batch of [total] memories. *)
Fixpoint record_pattern (total : nat) (key : string) (memory : object)
         (patterns : list (string * found)) : list (string * found) :=
  match patterns with
  | [] => [(key, {| fconcept := key; fcontent := [memory]; fcount := 1;
                    fstrength := (num 1 / num total)%Q |})]
  | (k, f) :: r =>
      if decide (k = key) then
        (k, {| fconcept := fconcept f; fcontent := fcontent f ++ [memory];
               fcount := S (fcount f);
               fstrength := (num (S (fcount f)) / num total)%Q |}) :: r
      else (k, f) :: record_pattern total key memory r
  end.

(** [findPatterns(memories)]: [Array.from(patterns.values())]. *)
Definition findPatterns (memories : list object) : list found :=
  (foldl (λ ps m, record_pattern (length memories) (extractPatternKey m) m ps)
         [] memories).*2.

(** The semantic record written for a pattern. *)
Definition consolidated (now : Z) (f : found) : object :=
  <["type" := VStr "semantic"]>
    (<["concept" := VStr (fconcept f)]>
       (<["content" := VArr ((λ m : object, VObj (map_to_list m)) <$> fcontent f)]>
          (<["strength" := VNum (fstrength f)]>
             (<["source" := VStr "consolidation"]>
                (<["timestamp" := VNum (inject_Z now)]> ∅))))).

(** [consolidateMemories()], on the semantic partition: [slice(-50)] of the
    episodic records, and one store per pattern above the threshold. *)
Definition consolidateMemories (cfg : config) (now : Z) (st : state) : state :=
  let recentEpisodic :=
    drop (length (episodicMemory st) - 50) (episodicMemory st) in
  let strong :=
    filter (λ f, gtb (fstrength f) (consolidationThreshold cfg) = true)
           (findPatterns recentEpisodic) in
  {| memoryStore := memoryStore st;
     episodicMemory := episodicMemory st;
     semanticMemory :=
       foldl (λ sem f, storeSemanticMemory cfg now (consolidated now f) sem)
             (semanticMemory st) strong;
     proceduralMemory := proceduralMemory st;
     totalMemories := totalMemories st;
     retentionRate := retentionRate st |}.

End MPU.

(* ===================================================================== *)
(** ** SSP: symbol encoder (aetheron.js, SSPComponent) *)
(* ===================================================================== *)

Module SSP.
Import Js.

(** A symbol as the binding code reads it.  The sparse vector of a symbol is
    random data that no function below inspects. *)
Record symbol := {
  concept : string;
  sstrength : Q
}.

(** [symbolSpace] is represented by the set of its keys. *)
Record state := {
  symbolSpace : gset string;
  symbolCounter : nat;
  bindingStrength : gmap string Q;
  bindingCounter : Z
}.

(** [`${symbols[i].concept}_${symbols[j].concept}`]. *)
Definition bindingKey (a b : symbol) : string :=
  concept a +:+ "_" +:+ concept b.

(** The fixed increment of a binding, capped at one. *)
Definition bump (s : Q) : Q := Math_min 1 (s + 0.1)%Q.

(** The body of the inner loop of [createBindings]. *)
Definition strengthenBinding (key : string) (st : state) : state :=
  let st1 :=
    match bindingStrength st !! key with
    | Some _ => st
    | None => {| symbolSpace := symbolSpace st;
                 symbolCounter := symbolCounter st;
                 bindingStrength := <[key := 0%Q]> (bindingStrength st);
                 bindingCounter := (bindingCounter st + 1)%Z |}
    end in
  let currentStrength := default 0%Q (bindingStrength st1 !! key) in
  {| symbolSpace := symbolSpace st1;
     symbolCounter := symbolCounter st1;
     bindingStrength := <[key := bump currentStrength]> (bindingStrength st1);
     bindingCounter := bindingCounter st1 |}.

(** [for (j = i + 1; ...)] for a fixed [symbols[i]]. *)
Definition bindWith (si : symbol) (later : list symbol) (st : state) : state :=
  foldl (λ s sj, strengthenBinding (bindingKey si sj) s) st later.

(** [createBindings(symbols)]. *)
Fixpoint createBindings (symbols : list symbol) (st : state) : state :=
  match symbols with
  | [] => st
  | si :: later => createBindings later (bindWith si later st)
  end.

(** [processStructured(data)]: [data] is the list [Object.entries(data)],
    in property order, with values already converted to strings. *)
Definition processStructured (data : list (string * string)) (st : state)
  : state * list symbol :=
  let step (acc : state * list symbol) (e : string * string) :=
    let symbolKey := e.1 +:+ "_" +:+ e.2 in
    let s := acc.1 in
    let s1 :=
      if decide (symbolKey ∈ symbolSpace s) then s
      else {| symbolSpace := {[symbolKey]} ∪ symbolSpace s;
              symbolCounter := S (symbolCounter s);
              bindingStrength := bindingStrength s;
              bindingCounter := bindingCounter s |} in
    (s1, acc.2 ++ [{| concept := symbolKey; sstrength := 1.0 |}]) in
  let r := foldl step (st, []) data in
  (createBindings r.2 r.1, r.2).

(** One tick of [startDecayProcess] on the bindings. *)
Definition decayBindings (decayRate : Q) (st : state) : state :=
  let kept := omap (λ s, let newStrength := (s * decayRate)%Q in
                         if ltb newStrength 0.01 then None
                         else Some newStrength) (bindingStrength st) in
  {| symbolSpace := symbolSpace st;
     symbolCounter := symbolCounter st;
     bindingStrength := kept;
     bindingCounter := (bindingCounter st
                        - Z.of_nat (size (bindingStrength st) - size kept))%Z |}.

(** *** Text input *)

Section Text.
(** [toLowerCase] of strings is a parameter. *)
Variable toLowerCase : string → string.

Definition knownConcepts : list string :=
  ["play"; "food"; "sleep"; "happy"; "sad"; "love"; "pet"; "toy"]%string.

Definition actions : list string := ["feed"; "play"; "pet"; "teach"]%string.

(** [extractConcepts(text)] at time [now]; [/[!?]+/] matches a text that
    contains one of the two marks. *)
Definition extractConcepts (now : Z) (text : string) : list string :=
  let lowerText := toLowerCase text in
  let concepts :=
    filter (λ c, includes lowerText c = true) knownConcepts
    ++ (if includes lowerText "!" || includes lowerText "?"
        then ["excitement"%string] else [])
    ++ ((λ a, "action_" +:+ a) <$> filter (λ a, includes lowerText a = true) actions) in
  if decide (length concepts = 0%nat) then ["unique_" +:+ pretty now]
  else concepts.

(** The body of the loops of [processText] and [processStructured]: the
    symbol of a concept, created on first sight. *)
Definition symbolFor (acc : state * list symbol) (c : string)
  : state * list symbol :=
  let s := acc.1 in
  let s1 :=
    if decide (c ∈ symbolSpace s) then s
    else {| symbolSpace := {[c]} ∪ symbolSpace s;
            symbolCounter := S (symbolCounter s);
            bindingStrength := bindingStrength s;
            bindingCounter := bindingCounter s |} in
  (s1, acc.2 ++ [{| concept := c; sstrength := 1.0 |}]).

(** [processText(text)]. *)
Definition processText (now : Z) (text : string) (st : state)
  : state * list symbol :=
  let r := foldl symbolFor (st, []) (extractConcepts now text) in
  (createBindings r.2 r.1, r.2).
End Text.

(** [createCrossModalBindings(symbols)], on the concepts of the visual and
    of the auditory symbols. *)
Definition crossModal (key : string) (st : state) : state :=
  match bindingStrength st !! key with
  | Some _ => st
  | None => {| symbolSpace := symbolSpace st;
               symbolCounter := symbolCounter st;
               bindingStrength := <[key := 0.5%Q]> (bindingStrength st);
               bindingCounter := (bindingCounter st + 1)%Z |}
  end.

Definition createCrossModalBindings (visual auditory : list string) (st : state)
  : state :=
  foldl (λ s v, foldl (λ s a, crossModal ("crossmodal_" +:+ v +:+ "_" +:+ a) s)
                      s auditory)
        st visual.

End SSP.

(* ===================================================================== *)
(** ** Ghost loops: behaviour crystallizer (ghostLoops.js) *)
(* ===================================================================== *)

Module GhostLoops.
Import Js.

Record config := {
  crystallizationThreshold : Q;
  successRequirement : nat;
  loopStrength : Q;
  decayRate : Q;
  reinforcementBonus : Q;
  maxActiveLoops : nat;
  resonanceThreshold : Q
}.

Definition default_config : config := {|
  crystallizationThreshold := 0.8;
  successRequirement := 5;
  loopStrength := 1.0;
  decayRate := 0.999;
  reinforcementBonus := 0.1;
  maxActiveLoops := 10;
  resonanceThreshold := 0.6
|}.

(** [loop.pattern]: each property may be absent. *)
Record behaviour := {
  trigger : option (list string);
  response : option (list string);
  action : option string
}.

Record ghostLoop := {
  id : string;
  pattern : behaviour;
  strength : Q;
  successCount : nat;
  failureCount : nat;
  lastTriggered : Z;
  createdAt : Z;
  category : string;
  resonanceSignature : string
}.

Record state := {
  crystallizedPatterns : gmap string ghostLoop;
  activeLoops : list string;
  totalCrystallized : Z
}.

(** [generateResonanceSignature(pattern)]:
    [elements.sort().join('_')]. *)
Definition join (sep : string) (l : list string) : string :=
  match l with
  | [] => ""
  | x :: r => foldl (λ acc y, acc +:+ sep +:+ y) x r
  end.

Definition generateResonanceSignature (p : behaviour) : string :=
  let elements :=
    arr_or_empty (trigger p) ++ arr_or_empty (response p)
    ++ match action p with
       | Some a => if String.eqb a "" then [] else [a]
       | None => []
       end in
  join "_" (Array_sort String.leb elements).

(** The argument of [crystallizePattern], a descriptor whose [pattern] is
    present (without it [generateResonanceSignature] throws). *)
Record patternData := {
  name : option string;
  dpattern : behaviour;
  dstrength : option Q;
  dsuccessCount : option nat;
  dcategory : option string
}.

Definition str_or (x : option string) (d : string) : string :=
  match x with
  | Some s => if String.eqb s "" then d else s
  | None => d
  end.

(** [crystallizePattern(patternData)]. *)
Definition crystallizePattern (cfg : config) (now : Z) (d : patternData)
           (st : state) : state * ghostLoop :=
  let loopId := str_or (name d) ("loop_" +:+ pretty now) in
  let ghost := {|
    id := loopId;
    pattern := dpattern d;
    strength := num_or (dstrength d) (loopStrength cfg);
    successCount := default 0%nat (dsuccessCount d);
    failureCount := 0;
    lastTriggered := 0;
    createdAt := now;
    category := str_or (dcategory d) "general";
    resonanceSignature := generateResonanceSignature (dpattern d)
  |} in
  ({| crystallizedPatterns := <[loopId := ghost]> (crystallizedPatterns st);
      activeLoops := activeLoops st;
      totalCrystallized := (totalCrystallized st + 1)%Z |}, ghost).

(** [initializeCoreBehaviors()]. *)
Definition core (n : string) (t r : list string) (c : string) : patternData :=
  {| name := Some n;
     dpattern := {| trigger := Some t; response := Some r; action := None |};
     dstrength := Some 0.9%Q;
     dsuccessCount := Some 10%nat;
     dcategory := Some c |}.

Definition coreBehaviors : list patternData :=
  [ core "friendly_greeting" ["see_owner"; "morning"; "return"]
         ["excitement"; "approach"; "vocalize_happy"] "greeting";
    core "hunger_response" ["hunger"; "see_food"; "feeding_time"]
         ["approach_food"; "eat"; "satisfaction"] "feeding";
    core "play_initiation" ["boredom"; "see_toy"; "energy_high"]
         ["grab_toy"; "playful_movement"; "invite_play"] "playing";
    core "comfort_seeking" ["tired"; "stress"; "cold"]
         ["find_cozy_spot"; "curl_up"; "relax"] "comfort";
    core "curiosity_response" ["novel_stimulus"; "unknown_object"; "strange_sound"]
         ["approach_cautiously"; "investigate"; "assess"] "exploring" ]%string.

Definition initializeCoreBehaviors (cfg : config) (now : Z) (st : state) : state :=
  foldl (λ s d, (crystallizePattern cfg now d s).1) st coreBehaviors.

Definition empty_state : state :=
  {| crystallizedPatterns := ∅; activeLoops := []; totalCrystallized := 0 |}.

(** [reinforceLoop(loopId, success)]. *)
Definition reinforced (cfg : config) (success : bool) (loop : ghostLoop)
  : ghostLoop :=
  if success then
    {| id := id loop; pattern := pattern loop;
       strength := Math_min 1 (strength loop + reinforcementBonus cfg)%Q;
       successCount := S (successCount loop);
       failureCount := failureCount loop;
       lastTriggered := lastTriggered loop; createdAt := createdAt loop;
       category := category loop;
       resonanceSignature := resonanceSignature loop |}
  else
    {| id := id loop; pattern := pattern loop;
       strength := Math_max 0.1 (strength loop - reinforcementBonus cfg * 0.5)%Q;
       successCount := successCount loop;
       failureCount := S (failureCount loop);
       lastTriggered := lastTriggered loop; createdAt := createdAt loop;
       category := category loop;
       resonanceSignature := resonanceSignature loop |}.

Definition reinforceLoop (cfg : config) (loopId : string) (success : bool)
           (st : state) : state :=
  match crystallizedPatterns st !! loopId with
  | None => st
  | Some loop =>
      {| crystallizedPatterns :=
           <[loopId := reinforced cfg success loop]> (crystallizedPatterns st);
         activeLoops := activeLoops st;
         totalCrystallized := totalCrystallized st |}
  end.

(** *** Matching an input *)

(** The argument of [checkResonance]: a string, an object, or a value of
    another type (a number or a boolean; on [null] and [undefined] the
    source throws).  Of an object the matching reads the properties below;
    [context] is not among them, as it only counts together with a
    [context] of the loop's pattern, which [behaviour] does not have. *)
Record inputObject := {
  iaction : option string;
  itrigger : option string;
  istate : option string;
  iemotion : option string;
  iconcept : option string;
  ifeatures : option (list string)
}.

Inductive input :=
| InString (s : string)
| InObject (o : inputObject)
| InOther.

(** [if (x) features.push(x)] for a string property. *)
Definition pushed (x : option string) : list string :=
  match x with
  | Some s => if String.eqb s "" then [] else [s]
  | None => []
  end.

Section Matching.
(** [toLowerCase] of strings is a parameter. *)
Variable toLowerCase : string → string.

(** [extractFeatures(input)]. *)
Definition extractFeatures (i : input) : list string :=
  match i with
  | InString s => [toLowerCase s]
  | InObject o =>
      pushed (iaction o) ++ pushed (itrigger o) ++ pushed (istate o)
      ++ pushed (iemotion o) ++ pushed (iconcept o)
      ++ arr_or_empty (ifeatures o)
  | InOther => []
  end.

(** [calculateFeatureMatch(features1, features2)], both arrays. *)
Definition calculateFeatureMatch (features1 features2 : list string) : Q :=
  let set1 := new_Set features1 in
  let set2 := new_Set features2 in
  let intersection := new_Set (filter (λ x, Set_has set2 x = true) set1) in
  let union := new_Set (set1 ++ set2) in
  if decide (0 < length union)%nat
  then (num (length intersection) / num (length union))%Q
  else 0%Q.

(** [calculateLoopResonance(input, loop)] at time [now]. *)
Definition calculateLoopResonance (now : Z) (i : input) (loop : ghostLoop) : Q :=
  let inputFeatures := extractFeatures i in
  let r1 :=
    match trigger (pattern loop) with
    | Some t => (0 + calculateFeatureMatch inputFeatures t * 0.6)%Q
    | None => 0%Q
    end in
  let r2 := (r1 * strength loop)%Q in
  let r3 :=
    if negb (lastTriggered loop =? 0)%Z
       && bool_decide (now - lastTriggered loop < 60000)%Z
    then (r2 * 1.1)%Q else r2 in
  Math_min 1 r3.

(** The test of the loop of [checkResonance]: the loop is listed. *)
Definition resonates (cfg : config) (now : Z) (i : input) (loop : ghostLoop)
  : bool :=
  gtb (calculateLoopResonance now i loop) (resonanceThreshold cfg).
End Matching.

(** *** Triggering a loop *)







(** *** Merging and monitoring *)

(** [mergePatterns(pattern1Id, pattern2Id)] at time [now]: the merged
    loop, or [None] for [null]. *)
Definition mergePatterns (cfg : config) (now : Z) (pattern1Id pattern2Id : string)
           (st : state) : option ghostLoop * state :=
  match crystallizedPatterns st !! pattern1Id,
        crystallizedPatterns st !! pattern2Id with
  | Some loop1, Some loop2 =>
      let mergedPattern :=
        {| trigger := Some (new_Set (arr_or_empty (trigger (pattern loop1))
                                     ++ arr_or_empty (trigger (pattern loop2))));
           response := Some (new_Set (arr_or_empty (response (pattern loop1))
                                      ++ arr_or_empty (response (pattern loop2))));
           action := None |} in
      let mergedLoop :=
        {| name := Some ("merged_" +:+ pattern1Id +:+ "_" +:+ pattern2Id);
           dpattern := mergedPattern;
           dstrength := Some ((strength loop1 + strength loop2) / 2)%Q;
           dsuccessCount := Some (successCount loop1 + successCount loop2)%nat;
           dcategory := Some (category loop1) |} in
      let removed :=
        {| crystallizedPatterns :=
             delete pattern2Id (delete pattern1Id (crystallizedPatterns st));
           activeLoops := activeLoops st;
           totalCrystallized := totalCrystallized st |} in
      let r := crystallizePattern cfg now mergedLoop removed in
      (Some r.2, r.1)
  | _, _ => (None, st)
  end.

(** One tick of [startLoopMonitoring] at time [now]: the loops that are not
    active decay, and are removed below 0.01; then the active loops last
    triggered more than 30 seconds ago are deactivated. *)
Definition monitored (cfg : config) (active : list string) (loopId : string)
           (loop : ghostLoop) : option ghostLoop :=
  if bool_decide (loopId ∈ active) then Some loop
  else
    let s := (strength loop * decayRate cfg)%Q in
    if ltb s 0.01 then None
    else Some {| id := id loop; pattern := pattern loop; strength := s;
                 successCount := successCount loop;
                 failureCount := failureCount loop;
                 lastTriggered := lastTriggered loop;
                 createdAt := createdAt loop; category := category loop;
                 resonanceSignature := resonanceSignature loop |}.

Definition expired (now : Z) (kept : gmap string ghostLoop) (loopId : string)
  : bool :=
  match kept !! loopId with
  | Some loop => bool_decide (now - lastTriggered loop > 30000)%Z
  | None => false
  end.

Definition monitorLoops (cfg : config) (now : Z) (st : state) : state :=
  let kept := map_imap (monitored cfg (activeLoops st)) (crystallizedPatterns st) in
  {| crystallizedPatterns := kept;
     activeLoops := filter (λ loopId, expired now kept loopId = false)
                           (activeLoops st);
     totalCrystallized :=
       (totalCrystallized st
        - Z.of_nat (size (crystallizedPatterns st) - size kept))%Z |}.

End GhostLoops.

(* ===================================================================== *)
(** ** Wonder engine: curiosity scheduler (wonder.js, WonderEngine) *)
(* ===================================================================== *)

Module Wonder.
Import Js.

Record config := {
  baseCuriosity : Q;
  curiosityDecay : Q;
  curiosityBoost : Q;
  noveltyThreshold : Q;
  explorationDepth : nat;
  wonderCooldown : Z;
  maxQueueSize : nat
}.

Definition default_config : config := {|
  baseCuriosity := 0.5;
  curiosityDecay := 0.99;
  curiosityBoost := 0.15;
  noveltyThreshold := 0.7;
  explorationDepth := 3;
  wonderCooldown := 5000;
  maxQueueSize := 20
|}.

Record symbol := {
  concept : string;
  sstrength : Q
}.

Record exploration := {
  eid : string;
  symbols : list symbol;
  timestamp : Z;
  depth : nat;
  path : list string;
  ecuriosityLevel : Q;
  category : option string
}.

Record discovery := {
  dconcept : string;
  firstSeen : Z;
  encounters : nat;
  familiarity : Q;
  associations : list string;
  emotionalValue : Q
}.

Record interest := {
  ilevel : Q;
  experiences : nat;
  lastTriggered : Z
}.

(** The fields of the engine.  [timers] holds the explorations handed to
    [setTimeout] by [deeperExploration] and not yet run. *)
Record state := {
  curiosityLevel : Q;
  explorationQueue : list exploration;
  discoveries : gmap string discovery;
  interestMap : gmap string interest;
  lastWonderTime : Z;
  curiosityHistory : list (Q * Z);
  totalExplorations : nat;
  discoveriesMade : nat;
  wonderMoments : nat;
  timers : list exploration
}.

Definition interestCategories : list string :=
  [ "visual_patterns"; "sounds"; "movements"; "objects";
    "interactions"; "environments"; "emotions"; "games" ]%string.

(** The state after the constructor and [initializeInterests]; [level]
    gives the random initial level of each category. *)
Definition initial_state (level : string → Q) : state := {|
  curiosityLevel := 0.6;
  explorationQueue := [];
  discoveries := ∅;
  interestMap :=
    list_to_map ((λ c, (c, {| ilevel := level c; experiences := 0;
                              lastTriggered := 0 |})) <$> interestCategories);
  lastWonderTime := 0;
  curiosityHistory := [];
  totalExplorations := 0;
  discoveriesMade := 0;
  wonderMoments := 0;
  timers := []
|}.

(** Functional field updates. *)
Definition with_curiosity (q : Q) (st : state) : state :=
  {| curiosityLevel := q; explorationQueue := explorationQueue st;
     discoveries := discoveries st; interestMap := interestMap st;
     lastWonderTime := lastWonderTime st;
     curiosityHistory := curiosityHistory st;
     totalExplorations := totalExplorations st;
     discoveriesMade := discoveriesMade st;
     wonderMoments := wonderMoments st; timers := timers st |}.

Definition with_discoveries (d : gmap string discovery) (st : state) : state :=
  {| curiosityLevel := curiosityLevel st;
     explorationQueue := explorationQueue st;
     discoveries := d; interestMap := interestMap st;
     lastWonderTime := lastWonderTime st;
     curiosityHistory := curiosityHistory st;
     totalExplorations := totalExplorations st;
     discoveriesMade := discoveriesMade st;
     wonderMoments := wonderMoments st; timers := timers st |}.

(** [isNovel(symbols)]; [None] is an absent ([undefined] or [null])
    argument. *)
Definition isNovel (cfg : config) (st : state) (symbols : option (list symbol))
  : bool :=
  match symbols with
  | None => false
  | Some [] => false
  | Some l =>
      let noveltyScore :=
        foldl (λ score s,
                 match discoveries st !! concept s with
                 | Some d => (score * (1 - familiarity d))%Q
                 | None => score
                 end) 1.0%Q l in
      gtb noveltyScore (noveltyThreshold cfg)
  end.

(** [canWonder()]. *)
Definition canWonder (cfg : config) (now : Z) (st : state) : bool :=
  bool_decide (now - lastWonderTime st > wonderCooldown cfg)%Z.

(** [calculateCategoryMatch(symbols, category)].  For an empty list the
    division is 0/0: [NaN] in JavaScript, 0 here; neither exceeds the best
    score of [categorizeExploration]. *)
Definition any_includes (c : string) (subs : list string) : bool :=
  existsb (includes c) subs.

Definition category_score (category : string) (c : string) : Q :=
  let hit (subs : list string) := if any_includes c subs then 1%Q else 0%Q in
  if String.eqb category "visual_patterns" then hit ["visual"; "color"; "shape"]%string
  else if String.eqb category "sounds" then hit ["audio"; "sound"; "voice"]%string
  else if String.eqb category "movements" then hit ["move"; "motion"; "action"]%string
  else if String.eqb category "objects" then hit ["object"; "thing"; "item"]%string
  else if String.eqb category "interactions" then hit ["play"; "feed"; "pet"]%string
  else if String.eqb category "emotions" then hit ["happy"; "sad"; "emotion"]%string
  else 0.1%Q.

Definition calculateCategoryMatch (l : list symbol) (category : string) : Q :=
  let score := foldl (λ sc s, (sc + category_score category (concept s))%Q) 0%Q l in
  (score / num (length l))%Q.

(** [categorizeExploration(symbols)]. *)
Definition categorizeExploration (l : list symbol) : option string :=
  (foldl (λ (best : option string * Q) category,
            let score := calculateCategoryMatch l category in
            if gtb score best.2 then (Some category, score) else best)
         (None, 0%Q) interestCategories).1.

(** [addToQueue(exploration)]. *)
Definition addToQueue (cfg : config) (e : exploration) (st : state) : state :=
  let pushed := explorationQueue st ++ [e] in
  {| curiosityLevel := curiosityLevel st;
     explorationQueue :=
       if decide (maxQueueSize cfg < length pushed)%nat then drop 1 pushed
       else pushed;
     discoveries := discoveries st; interestMap := interestMap st;
     lastWonderTime := lastWonderTime st;
     curiosityHistory := curiosityHistory st;
     totalExplorations := S (totalExplorations st);
     discoveriesMade := discoveriesMade st;
     wonderMoments := wonderMoments st; timers := timers st |}.

(** [boostCuriosity(amount)]. *)
Definition boostCuriosity (now : Z) (amount : Q) (st : state) : state :=
  let lvl := Math_min 1 (curiosityLevel st + amount)%Q in
  let pushed := curiosityHistory st ++ [(lvl, now)] in
  {| curiosityLevel := lvl;
     explorationQueue := explorationQueue st;
     discoveries := discoveries st; interestMap := interestMap st;
     lastWonderTime := lastWonderTime st;
     curiosityHistory :=
       if decide (100 < length pushed)%nat then drop 1 pushed else pushed;
     totalExplorations := totalExplorations st;
     discoveriesMade := discoveriesMade st;
     wonderMoments := wonderMoments st; timers := timers st |}.

(** [updateInterest(category, change)]. *)
Definition updateInterest (now : Z) (category : string) (change : Q)
           (st : state) : state :=
  match interestMap st !! category with
  | None => st
  | Some i =>
      let i' := {| ilevel := Math_max 0 (Math_min 1 (ilevel i + change)%Q);
                   experiences := S (experiences i);
                   lastTriggered := now |} in
      {| curiosityLevel := curiosityLevel st;
         explorationQueue := explorationQueue st;
         discoveries := discoveries st;
         interestMap := <[category := i']> (interestMap st);
         lastWonderTime := lastWonderTime st;
         curiosityHistory := curiosityHistory st;
         totalExplorations := totalExplorations st;
         discoveriesMade := discoveriesMade st;
         wonderMoments := wonderMoments st; timers := timers st |}
  end.

(** [calculateEmotionalValue(symbol)]. *)
Definition calculateEmotionalValue (s : symbol) : Q :=
  let c := concept s in
  let v0 := 0.5%Q in
  let v1 := if any_includes c ["play"; "food"; "joy"]%string then (v0 + 0.3)%Q else v0 in
  let v2 := if any_includes c ["danger"; "fear"; "pain"]%string then (v1 - 0.3)%Q else v1 in
  Math_max 0 (Math_min 1 (v2 + 0.1)%Q).

(** The body of the first loop of [processExploration], for one symbol. *)
Definition discover (now : Z) (st : state) (s : symbol) : state :=
  match discoveries st !! concept s with
  | None =>
      let d := {| dconcept := concept s; firstSeen := now; encounters := 1;
                  familiarity := 0.1; associations := [];
                  emotionalValue := calculateEmotionalValue s |} in
      {| curiosityLevel := curiosityLevel st;
         explorationQueue := explorationQueue st;
         discoveries := <[concept s := d]> (discoveries st);
         interestMap := interestMap st;
         lastWonderTime := lastWonderTime st;
         curiosityHistory := curiosityHistory st;
         totalExplorations := totalExplorations st;
         discoveriesMade := S (discoveriesMade st);
         wonderMoments := wonderMoments st; timers := timers st |}
  | Some d =>
      let f := Math_min 1 (familiarity d + 0.1)%Q in
      let d' := {| dconcept := dconcept d; firstSeen := firstSeen d;
                   encounters := S (encounters d); familiarity := f;
                   associations := associations d;
                   emotionalValue := emotionalValue d |} in
      with_curiosity (curiosityLevel st * (1 - f * 0.1))%Q
        (with_discoveries (<[concept s := d']> (discoveries st)) st)
  end.

(** [createAssociations(symbols)]. *)
Definition associate (c1 c2 : string) (ds : gmap string discovery)
  : gmap string discovery :=
  match ds !! c1 with
  | Some d =>
      if decide (c2 ∈ associations d) then ds
      else <[c1 := {| dconcept := dconcept d; firstSeen := firstSeen d;
                      encounters := encounters d; familiarity := familiarity d;
                      associations := associations d ++ [c2];
                      emotionalValue := emotionalValue d |}]> ds
  | None => ds
  end.

Fixpoint createAssociations (l : list symbol) (ds : gmap string discovery)
  : gmap string discovery :=
  match l with
  | [] => ds
  | si :: later =>
      createAssociations later
        (foldl (λ m sj, associate (concept sj) (concept si)
                          (associate (concept si) (concept sj) m)) ds later)
  end.

(** [deeperExploration(exploration)]: the follow-up is queued on a timer. *)
Definition deeperExploration (e : exploration) (st : state) : state :=
  let assoc :=
    flat_map (λ s, match discoveries st !! concept s with
                   | Some d => associations d
                   | None => []
                   end) (symbols e) in
  match assoc with
  | [] => st
  | _ =>
      let deeper := {| eid := eid e;
                       symbols := (λ c, {| concept := c; sstrength := 0.7 |}) <$> assoc;
                       timestamp := timestamp e;
                       depth := S (depth e);
                       path := path e ++ [eid e];
                       ecuriosityLevel := ecuriosityLevel e;
                       category := category e |} in
      {| curiosityLevel := curiosityLevel st;
         explorationQueue := explorationQueue st;
         discoveries := discoveries st; interestMap := interestMap st;
         lastWonderTime := lastWonderTime st;
         curiosityHistory := curiosityHistory st;
         totalExplorations := totalExplorations st;
         discoveriesMade := discoveriesMade st;
         wonderMoments := wonderMoments st;
         timers := timers st ++ [deeper] |}
  end.

(** [processExploration(exploration)]. *)
Definition processExploration (cfg : config) (now : Z) (e : exploration)
           (st : state) : state :=
  let st1 := foldl (discover now) st (symbols e) in
  let st2 := with_discoveries (createAssociations (symbols e) (discoveries st1)) st1 in
  if bool_decide (depth e < explorationDepth cfg)%nat && gtb (curiosityLevel st2) 0.3
  then deeperExploration e st2
  else st2.

(** [explore(symbols)]: the returned record, or [None] for [null], and the
    state afterwards.  The clock is read once for the call. *)
Definition explore (cfg : config) (now : Z) (l : list symbol) (st : state)
  : option exploration * state :=
  if negb (canWonder cfg now st) then (None, st)
  else
    let e := {| eid := "explore_" +:+ pretty now;
                symbols := l;
                timestamp := now;
                depth := 0;
                path := [];
                ecuriosityLevel := curiosityLevel st;
                category := categorizeExploration l |} in
    let st1 := addToQueue cfg e st in
    let st2 := boostCuriosity now (curiosityBoost cfg) st1 in
    let st3 := match category e with
               | Some c => updateInterest now c 0.1 st2
               | None => st2
               end in
    let st4 := {| curiosityLevel := curiosityLevel st3;
                  explorationQueue := explorationQueue st3;
                  discoveries := discoveries st3;
                  interestMap := interestMap st3;
                  lastWonderTime := now;
                  curiosityHistory := curiosityHistory st3;
                  totalExplorations := totalExplorations st3;
                  discoveriesMade := discoveriesMade st3;
                  wonderMoments := S (wonderMoments st3);
                  timers := timers st3 |} in
    (Some e, processExploration cfg now e st4).

(** The novelty path of [LucianCognitiveSystem.processPerception] (index.js):
    [if (this.wonder.isNovel(symbols)) this.wonder.explore(symbols)]. *)
Definition processPerception_wonder (cfg : config) (now : Z) (l : list symbol)
           (st : state) : state :=
  if isNovel cfg st (Some l) then (explore cfg now l st).2 else st.

End Wonder.

(* ===================================================================== *)
(** ** Aetheron: identity aggregator (aetheron.js, AetheronIdentity) *)
(* ===================================================================== *)

Module Aetheron.
Import Js.

Record config := {
  narrativeMaxLength : nat;
  valueDecay : Q
}.

Definition default_config : config :=
  {| narrativeMaxLength := 100; valueDecay := 0.995 |}.

(** The properties of an experience that [integrate] reads; a flag is the
    truthiness of the property. *)
Record experience := {
  social : bool;
  interaction : bool;
  learning : bool;
  discovery : bool;
  emotion : option string;
  achievement : bool;
  play : bool;
  learned : option string;
  entity : option string;
  with_ : option string;
  positive : bool;
  negative : bool;
  novel : bool;
  etype : option string;
  content : option string;
  importance : option Q
}.

Record concept := {
  strength : Q;
  formed : Z;
  reinforcements : nat
}.

Record trait := {
  value : Q;
  stability : Q;
  lastUpdated : Z
}.

Record coreValue := {
  vimportance : Q;
  actions : nat;
  lastExpressed : Z
}.

Record relationship := {
  bond : Q;
  trust : Q;
  interactions : nat;
  lastSeen : Z;
  emotions : list (string * Z)
}.

(** An entry of [selfNarrative]: [{...item, timestamp, integrated}]. *)
Record entry := {
  ntype : option string;
  ncontent : option string;
  nimportance : option Q;
  ntimestamp : Z;
  integrated : bool
}.

(** [identityCore] and [stats].  [values] keeps its insertion order, which
    the ranking of [reassessValues] starts from. *)
Record state := {
  name : option string;
  selfConcept : gmap string concept;
  personality : gmap string trait;
  values : list (string * coreValue);
  relationships : gmap string relationship;
  selfNarrative : list entry;
  coherence : Q;
  selfAwareness : Q;
  relationshipCount : nat;
  selfReflections : nat
}.

(** Functional updates of one field. *)
Definition with_selfConcept (c : gmap string concept) (st : state) : state :=
  {| name := name st; selfConcept := c; personality := personality st;
     values := values st; relationships := relationships st;
     selfNarrative := selfNarrative st; coherence := coherence st;
     selfAwareness := selfAwareness st;
     relationshipCount := relationshipCount st;
     selfReflections := selfReflections st |}.

Definition with_personality (p : gmap string trait) (st : state) : state :=
  {| name := name st; selfConcept := selfConcept st; personality := p;
     values := values st; relationships := relationships st;
     selfNarrative := selfNarrative st; coherence := coherence st;
     selfAwareness := selfAwareness st;
     relationshipCount := relationshipCount st;
     selfReflections := selfReflections st |}.

Definition with_values (v : list (string * coreValue)) (st : state) : state :=
  {| name := name st; selfConcept := selfConcept st;
     personality := personality st;
     values := v; relationships := relationships st;
     selfNarrative := selfNarrative st; coherence := coherence st;
     selfAwareness := selfAwareness st;
     relationshipCount := relationshipCount st;
     selfReflections := selfReflections st |}.

Definition with_narrative (n : list entry) (st : state) : state :=
  {| name := name st; selfConcept := selfConcept st;
     personality := personality st;
     values := values st; relationships := relationships st;
     selfNarrative := n; coherence := coherence st;
     selfAwareness := selfAwareness st;
     relationshipCount := relationshipCount st;
     selfReflections := selfReflections st |}.

(** The state after the constructor and [initializeCoreIdentity] at time
    [now]; [random v] is the value of [Math.random()] drawn for the value
    [v]. *)
Definition initial_state (now : Z) (random : string → Q) : state := {|
  name := None;
  selfConcept :=
    list_to_map
      ((λ c : string * Q, (c.1, {| strength := c.2; formed := now; reinforcements := 0 |}))
         <$> [("i_exist", 1.0%Q); ("i_feel", 0.9%Q); ("i_think", 0.8%Q);
              ("i_want", 0.7%Q); ("i_am_unique", 0.8%Q)]%string);
  personality :=
    list_to_map
      ((λ d : string, (d, {| value := 0.5; stability := 0.5; lastUpdated := now |}))
         <$> ["openness"; "conscientiousness"; "extraversion";
              "agreeableness"; "neuroticism"]%string);
  values :=
    (λ v : string, (v, {| vimportance := (0.5 + random v * 0.3)%Q; actions := 0;
                          lastExpressed := 0 |}))
      <$> ["loyalty"; "playfulness"; "curiosity"; "comfort"; "affection"]%string;
  relationships := ∅;
  selfNarrative := [];
  coherence := 0.7;
  selfAwareness := 0.5;
  relationshipCount := 0;
  selfReflections := 0
|}.

(** [categorizeExperience(experience)]. *)
Definition truthy_str (x : option string) : bool :=
  match x with
  | Some s => negb (String.eqb s "")
  | None => false
  end.

Definition categorizeExperience (e : experience) : string :=
  if social e || interaction e then "social"
  else if learning e || discovery e then "learning"
  else if truthy_str (emotion e) then "emotional"
  else if achievement e then "achievement"
  else if play e then "play"
  else "general".

(** [updateSelfConcept(experience, type)]. *)
Definition updateSelfConcept (now : Z) (e : experience) (type : string)
           (sc : gmap string concept) : gmap string concept :=
  let conceptKey := "i_" +:+ type in
  let c := match sc !! conceptKey with
           | Some c => c
           | None => {| strength := 0.3; formed := now; reinforcements := 0 |}
           end in
  let sc1 := <[conceptKey := {| strength := Math_min 1 (strength c + 0.05)%Q;
                                formed := formed c;
                                reinforcements := S (reinforcements c) |}]> sc in
  if truthy_str (learned e) then
    <["i_can_" +:+ default "" (learned e) :=
        {| strength := 0.5; formed := now; reinforcements := 1 |}]> sc1
  else sc1.

(** [adjustPersonality(experience, type)]. *)
Definition adjustments (type : string) : list (string * Q) :=
  if String.eqb type "social" then [("extraversion", 0.02%Q); ("agreeableness", 0.01%Q)]%string
  else if String.eqb type "learning" then [("openness", 0.02%Q); ("conscientiousness", 0.01%Q)]%string
  else if String.eqb type "emotional" then [("neuroticism", (-0.01)%Q)]%string
  else if String.eqb type "achievement" then [("conscientiousness", 0.02%Q); ("openness", 0.01%Q)]%string
  else if String.eqb type "play" then [("extraversion", 0.01%Q); ("openness", 0.01%Q)]%string
  else [].

Definition adjust_trait (now : Z) (change : Q) (t : trait) : trait :=
  {| value := Math_max 0 (Math_min 1 (value t + change)%Q);
     stability := Math_min 1 (stability t + 0.001)%Q;
     lastUpdated := now |}.

Definition adjustPersonality (now : Z) (type : string)
           (p : gmap string trait) : gmap string trait :=
  foldl (λ p (a : string * Q),
           match p !! a.1 with
           | Some t => <[a.1 := adjust_trait now a.2 t]> p
           | None => p
           end) p (adjustments type).

(** [processValues(experience, type)]. *)
Definition valueMapping (type : string) : option string :=
  if String.eqb type "social" then Some "affection"
  else if String.eqb type "learning" then Some "curiosity"
  else if String.eqb type "play" then Some "playfulness"
  else if String.eqb type "achievement" then Some "loyalty"
  else if String.eqb type "emotional" then Some "comfort"
  else None.

Definition processValues (cfg : config) (now : Z) (type : string)
           (vs : list (string * coreValue)) : list (string * coreValue) :=
  let relevantValue := valueMapping type in
  (λ kv : string * coreValue,
     if bool_decide (Some kv.1 = relevantValue) then
       (kv.1, {| vimportance := Math_min 1 (vimportance kv.2 + 0.02)%Q;
                 actions := S (actions kv.2);
                 lastExpressed := now |})
     else
       (kv.1, {| vimportance := (vimportance kv.2 * valueDecay cfg)%Q;
                 actions := actions kv.2;
                 lastExpressed := lastExpressed kv.2 |})) <$> vs.

(** [updateRelationships(experience)]. *)
Definition updateRelationships (now : Z) (e : experience) (st : state) : state :=
  let who :=
    if truthy_str (entity e) then default "" (entity e)
    else if truthy_str (with_ e) then default "" (with_ e)
    else "owner" in
  let known := relationships st !! who in
  let r := match known with
           | Some r => r
           | None => {| bond := 0.5; trust := 0.5; interactions := 0;
                        lastSeen := now; emotions := [] |}
           end in
  let bond1 := if positive e then Math_min 1 (bond r + 0.02)%Q
               else if negative e then Math_max 0 (bond r - 0.01)%Q
               else bond r in
  let trust1 := if positive e then Math_min 1 (trust r + 0.01)%Q
                else if negative e then Math_max 0 (trust r - 0.02)%Q
                else trust r in
  let emotions1 :=
    if truthy_str (emotion e) then
      let pushed := emotions r ++ [(default "" (emotion e), now)] in
      if decide (10 < length pushed)%nat then drop 1 pushed else pushed
    else emotions r in
  {| name := name st; selfConcept := selfConcept st;
     personality := personality st; values := values st;
     relationships :=
       <[who := {| bond := bond1; trust := trust1;
                   interactions := S (interactions r);
                   lastSeen := now; emotions := emotions1 |}]> (relationships st);
     selfNarrative := selfNarrative st; coherence := coherence st;
     selfAwareness := selfAwareness st;
     relationshipCount := match known with
                          | Some _ => relationshipCount st
                          | None => S (relationshipCount st)
                          end;
     selfReflections := selfReflections st |}.

(** [isSignificant(experience)]. *)
Definition significance (e : experience) : Q :=
  let s0 := 0%Q in
  let s1 := if novel e then (s0 + 0.3)%Q else s0 in
  let s2 := match emotion e with
            | Some em => if negb (String.eqb em "") && negb (String.eqb em "neutral")
                         then (s1 + 0.2)%Q else s1
            | None => s1
            end in
  let s3 := if social e then (s2 + 0.2)%Q else s2 in
  let s4 := if achievement e then (s3 + 0.4)%Q else s3 in
  if truthy_str (learned e) then (s4 + 0.3)%Q else s4.

Definition isSignificant (e : experience) : bool := gtb (significance e) 0.5.

(** [addToNarrative(item)], on the narrative. *)
Definition by_importance (a b : entry) : bool :=
  leb (num_or (nimportance b) 0.5) (num_or (nimportance a) 0.5).

Definition addToNarrative (cfg : config) (now : Z) (type content : option string)
           (imp : option Q) (narrative : list entry) : list entry :=
  let pushed := narrative ++ [{| ntype := type; ncontent := content;
                                 nimportance := imp; ntimestamp := now;
                                 integrated := false |}] in
  if decide (narrativeMaxLength cfg < length pushed)%nat
  then take (narrativeMaxLength cfg) (Array_sort by_importance pushed)
  else pushed.

(** [calculateNarrativeCoherence()]. *)
Fixpoint count_theme (themes : list (string * nat)) (theme : string)
  : list (string * nat) :=
  match themes with
  | [] => [(theme, 1%nat)]
  | (t, c) :: r => if decide (t = theme) then (t, S c) :: r
                   else (t, c) :: count_theme r theme
  end.

Definition themes (narrative : list entry) : list (string * nat) :=
  foldl (λ ts e, count_theme ts (if truthy_str (ntype e)
                                 then default "" (ntype e) else "general"))
        [] narrative.

Definition calculateNarrativeCoherence (narrative : list entry) : Q :=
  if decide (length narrative < 2)%nat then 0.5%Q
  else (num (foldr Nat.max 0%nat (themes narrative).*2)
        / num (length narrative))%Q.

(** [updateCoherence()]: the new value of [stats.coherence].  An empty map
    makes its average 0/0: [NaN] in JavaScript, 0 here. *)
Definition average (l : list Q) : Q :=
  (foldl Qplus 0 l / num (length l))%Q.

Definition computeCoherence (st : state) : Q :=
  let c1 := (0 + average (strength <$> (map_to_list (selfConcept st)).*2) * 0.3)%Q in
  let c2 := (c1 + average (stability <$> (map_to_list (personality st)).*2) * 0.3)%Q in
  let c3 := (c2 + average (vimportance <$> (values st).*2) * 0.2)%Q in
  (c3 + calculateNarrativeCoherence (selfNarrative st) * 0.2)%Q.

(** [integrate(experience)] at time [now]. *)
Definition integrate (cfg : config) (now : Z) (e : experience) (st : state)
  : state :=
  let experienceType := categorizeExperience e in
  let st1 := with_selfConcept (updateSelfConcept now e experienceType (selfConcept st)) st in
  let st2 := with_personality (adjustPersonality now experienceType (personality st1)) st1 in
  let st3 := with_values (processValues cfg now experienceType (values st2)) st2 in
  let st4 := if String.eqb experienceType "social"
             then updateRelationships now e st3 else st3 in
  let st5 := if isSignificant e
             then with_narrative
                    (addToNarrative cfg now (etype e) (content e) (importance e)
                                    (selfNarrative st4)) st4
             else st4 in
  {| name := name st5; selfConcept := selfConcept st5;
     personality := personality st5; values := values st5;
     relationships := relationships st5;
     selfNarrative := selfNarrative st5;
     coherence := computeCoherence st5;
     selfAwareness := selfAwareness st5;
     relationshipCount := relationshipCount st5;
     selfReflections := selfReflections st5 |}.

(** [setName(name)] at time [now]. *)
Definition setName (cfg : config) (now : Z) (n : string) (st : state) : state :=
  {| name := Some n;
     selfConcept := <["my_name" := {| strength := 1.0; formed := now;
                                      reinforcements := 1 |}]> (selfConcept st);
     personality := personality st; values := values st;
     relationships := relationships st;
     selfNarrative := addToNarrative cfg now (Some "naming"%string)
                        (Some ("I am " +:+ n)) (Some 1.0%Q) (selfNarrative st);
     coherence := coherence st;
     selfAwareness := selfAwareness st;
     relationshipCount := relationshipCount st;
     selfReflections := selfReflections st |}.

(** *** Reflection *)

(** [integrateNarrative()]. *)
Definition integrateEntry (sc : gmap string concept) (e : entry)
  : gmap string concept :=
  if integrated e then sc
  else
    let sc1 :=
      if bool_decide (ntype e = Some "achievement"%string) then
        <["i_achieved_" +:+ default "undefined" (ncontent e) :=
            {| strength := 0.7; formed := ntimestamp e; reinforcements := 1 |}]> sc
      else sc in
    if bool_decide (ntype e = Some "learning"%string) then
      <["i_learned_" +:+ default "undefined" (ncontent e) :=
          {| strength := 0.6; formed := ntimestamp e; reinforcements := 1 |}]> sc1
    else sc1.

Definition mark (e : entry) : entry :=
  {| ntype := ntype e; ncontent := ncontent e; nimportance := nimportance e;
     ntimestamp := ntimestamp e; integrated := true |}.

(** [evaluatePersonality()]. *)
Definition evaluateTrait (now : Z) (t : trait) : trait :=
  {| value := if bool_decide (now - lastUpdated t > 60000)%Z
              then (value t * 0.99 + 0.5 * 0.01)%Q else value t;
     stability := if ltb (stability t) 1
                  then Math_min 1 (stability t + 0.01)%Q else stability t;
     lastUpdated := lastUpdated t |}.

(** [reassessValues()]. *)
Definition by_vimportance (a b : string * coreValue) : bool :=
  leb (vimportance b.2) (vimportance a.2).

Definition reassessValues (now : Z) (vs : list (string * coreValue))
           (sc : gmap string concept) : gmap string concept :=
  foldl (λ sc (kv : string * coreValue),
           match sc !! ("i_value_" +:+ kv.1) with
           | Some _ => sc
           | None => <["i_value_" +:+ kv.1 :=
                         {| strength := vimportance kv.2; formed := now;
                            reinforcements := actions kv.2 |}]> sc
           end)
        sc (take 3 (Array_sort by_vimportance vs)).

(** [updateSelfAwareness()]: the new value of [stats.selfAwareness]. *)
Definition computeSelfAwareness (st : state) : Q :=
  let a1 := if truthy_str (name st) then (0 + 0.1)%Q else 0%Q in
  let a2 := (a1 + Math_min 0.3 (num (size (selfConcept st)) * 0.01))%Q in
  let a3 := (a2 + Math_min 0.2 (num (length (selfNarrative st)) * 0.002))%Q in
  let a4 := (a3 + Math_min 0.2 (num (size (relationships st)) * 0.05))%Q in
  (a4 + Math_min 0.2 (num (selfReflections st) * 0.001))%Q.

(** [reflect()] at time [now]. *)
Definition reflect (now : Z) (st : state) : state :=
  let st1 := {| name := name st;
                selfConcept := foldl integrateEntry (selfConcept st) (selfNarrative st);
                personality := evaluateTrait now <$> personality st;
                values := values st; relationships := relationships st;
                selfNarrative := mark <$> selfNarrative st;
                coherence := coherence st;
                selfAwareness := selfAwareness st;
                relationshipCount := relationshipCount st;
                selfReflections := S (selfReflections st) |} in
  let st2 := with_selfConcept (reassessValues now (values st1) (selfConcept st1)) st1 in
  {| name := name st2; selfConcept := selfConcept st2;
     personality := personality st2; values := values st2;
     relationships := relationships st2;
     selfNarrative := selfNarrative st2;
     coherence := coherence st2;
     selfAwareness := computeSelfAwareness st2;
     relationshipCount := relationshipCount st2;
     selfReflections := selfReflections st2 |}.

End Aetheron.


(* ===================================================================== *)
(** ** Notions used to state the properties *)
(* ===================================================================== *)

Module Spec.
Import Js.




(** The pairs of positions [i < j] of a list, in the order of the two
    nested loops of [createBindings]. *)
Fixpoint ordered_pairs {A} (l : list A) : list (A * A) :=
  match l with
  | [] => []
  | x :: later => ((λ y, (x, y)) <$> later) ++ ordered_pairs later
  end.


(** No entry of the resonance network connects a pattern to itself. *)
Definition no_self_connection (st : HASR.state) : Prop :=
  ∀ name cs c, HASR.resonanceNetwork st !! name = Some cs → c ∈ cs →
               HASR.target c ≠ name.

(** Both bounded partitions of the memory store are within their caps. *)
Definition within_caps (cfg : MPU.config) (st : MPU.state) : Prop :=
  (length (MPU.episodicMemory st) ≤ MPU.maxEpisodic cfg)%nat
  ∧ (length (MPU.semanticMemory st) ≤ MPU.maxSemantic cfg)%nat.

(** The keys of the pattern map are distinct, and every stored pattern has
    no instance yet, or one instance and the confidence 0.5. *)
Definition at_most_one_instance (st : HASR.state) : Prop :=
  NoDup (HASR.patterns st).*1
  ∧ Forall (λ e : string * HASR.pattern,
              HASR.instances e.2 = []
              ∨ (length (HASR.instances e.2) = 1%nat
                 ∧ HASR.confidence e.2 = 0.5%Q))
           (HASR.patterns st).

(** The two counters of the symbol encoder are the sizes of its maps. *)
Definition counters_exact (st : SSP.state) : Prop :=
  SSP.bindingCounter st = Z.of_nat (size (SSP.bindingStrength st))
  ∧ SSP.symbolCounter st = size (SSP.symbolSpace st).


(** The bounds of the wonder engine: the queue and the curiosity history
    are within their sizes, curiosity and every familiarity are in [0, 1],
    and the counter of discoveries is the number of discoveries. *)
Definition wonder_bounds (cfg : Wonder.config) (st : Wonder.state) : Prop :=
  (length (Wonder.explorationQueue st) ≤ Wonder.maxQueueSize cfg)%nat
  ∧ (length (Wonder.curiosityHistory st) ≤ 100)%nat
  ∧ (0 <= Wonder.curiosityLevel st <= 1)%Q
  ∧ map_Forall (λ _ d, 0 <= Wonder.familiarity d <= 1)%Q (Wonder.discoveries st)
  ∧ Wonder.discoveriesMade st = size (Wonder.discoveries st).

(** The novelty of a list of symbols: the product, over its symbols that
    were discovered, of one minus the familiarity of the discovery. *)
Fixpoint novelty (st : Wonder.state) (l : list Wonder.symbol) : Q :=
  match l with
  | [] => 1
  | s :: r =>
      match Wonder.discoveries st !! Wonder.concept s with
      | Some d => (1 - Wonder.familiarity d) * novelty st r
      | None => novelty st r
      end
  end%Q.

(** Every score of the identity is in [0, 1]: the strengths of the
    self-concept, the values and stabilities of the personality, the
    importances of the values, and the bonds and trusts of the
    relationships. *)
Definition identity_ranges (st : Aetheron.state) : Prop :=
  map_Forall (λ _ c, 0 <= Aetheron.strength c <= 1)%Q (Aetheron.selfConcept st)
  ∧ map_Forall (λ _ t, (0 <= Aetheron.value t <= 1)%Q
                       ∧ (0 <= Aetheron.stability t <= 1)%Q)
               (Aetheron.personality st)
  ∧ Forall (λ kv : string * Aetheron.coreValue,
              0 <= Aetheron.vimportance kv.2 <= 1)%Q (Aetheron.values st)
  ∧ map_Forall (λ _ r, (0 <= Aetheron.bond r <= 1)%Q
                       ∧ (0 <= Aetheron.trust r <= 1)%Q)
               (Aetheron.relationships st).

End Spec.

(* ===================================================================== *)
(** ** Concrete inputs *)
(* ===================================================================== *)

Module Examples.
Import Js.

(** Inputs of the pattern engine, after [preprocessInput]. *)
Definition input (l : list string) : HASR.instance :=
  {| HASR.features := l; HASR.itimestamp := 0 |}.


Definition joy_engagement_reward : HASR.instance :=
  input ["joy"; "engagement"; "reward"]%string.

Definition joy_engagement_reward_x : HASR.instance :=
  input ["joy"; "engagement"; "reward"; "x"]%string.

Definition joy_reward_x_y : HASR.instance :=
  input ["joy"; "reward"; "x"; "y"]%string.




(** Inputs of the memory store. *)
Definition episodic_input (imp : Q) : gmap string MPU.value :=
  <["type" := MPU.VStr "episodic"]> (<["importance" := MPU.VNum imp]> ∅).

Definition store_or_keep (st : MPU.state) (id : string) (now : Z)
           (memory : gmap string MPU.value) : MPU.state :=
  match MPU.storeMemory MPU.default_config id now memory st with
  | Some r => r.1
  | None => st
  end.

(** The store after [n] episodic records of importance 0.5 were stored at
    the times 1, 2, ..., [n]. *)
Definition stored (n : nat) : MPU.state :=
  foldl (λ st t, store_or_keep st ("mem_" +:+ pretty t) (Z.of_nat t)
                   (episodic_input 0.5))
        MPU.initial_state (seq 1 n).

(** A store of capacity 2 and a record reduced to the two properties the
    episodic partition reads. *)
Definition cap_2 : MPU.config :=
  {| MPU.maxEpisodic := 2; MPU.maxSemantic := 2;
     MPU.consolidationThreshold := 0.7; MPU.forgettingRate := 0.001;
     MPU.importanceDecay := 0.99 |}.

Definition record (t : Z) (imp : Q) : gmap string MPU.value :=
  <["importance" := MPU.VNum imp]>
    (<["timestamp" := MPU.VNum (inject_Z t)]> ∅).

(** Three episodic records at time [now = 200000000]: a faded one never
    retrieved, a faded one retrieved 1000 ms ago, and a faded one retrieved
    more than a day ago; and one of importance 0.5 never retrieved. *)
Definition faded (id : string) (lastRetrieved : MPU.value) : gmap string MPU.value :=
  <["id" := MPU.VStr id]>
    (<["importance" := MPU.VNum 0.1]>
       (<["lastRetrieved" := lastRetrieved]> ∅)).

Definition sweep_input : MPU.state :=
  {| MPU.memoryStore := ∅;
     MPU.episodicMemory :=
       [ faded "never" MPU.VNull;
         faded "recent" (MPU.VNum 199999000);
         faded "old" (MPU.VNum 100000000);
         <["importance" := MPU.VNum 0.5]> (faded "vivid" MPU.VNull) ];
     MPU.semanticMemory := [];
     MPU.proceduralMemory := ∅;
     MPU.totalMemories := 4;
     MPU.retentionRate := 0.85 |}.


(** Inputs of the symbol encoder: the same two properties in the two
    possible orders. *)
Definition feed_cat : list (string * string) :=
  [("action", "feed"); ("target", "cat")]%string.


Definition no_bindings : SSP.state :=
  {| SSP.symbolSpace := ∅; SSP.symbolCounter := 0;
     SSP.bindingStrength := ∅; SSP.bindingCounter := 0 |}.

(** The wonder engine after start-up, every interest at level 0.5, and two
    symbols to explore. *)
Definition wonder_start : Wonder.state := Wonder.initial_state (λ _, 0.5%Q).

Definition red_ball : list Wonder.symbol :=
  [ {| Wonder.concept := "color_red"; Wonder.sstrength := 1 |};
    {| Wonder.concept := "object_ball"; Wonder.sstrength := 1 |} ]%string.

(** A note of a type without a partition of its own, the record
    [storeMemory] builds for it at time 1 and the store holding it. *)
Definition note : gmap string MPU.value :=
  <["type" := MPU.VStr "learning"]> (<["importance" := MPU.VNum 0.8]> ∅).

Definition note_record : gmap string MPU.value :=
  <["lastRetrieved" := MPU.VNull]>
    (<["retrievalCount" := MPU.VNum 0]>
       (<["importance" := MPU.VNum 0.8]>
          (<["timestamp" := MPU.VNum 1]>
             (<["id" := MPU.VStr "mem_1"]> note)))).

Definition note_stored : MPU.state :=
  {| MPU.memoryStore := <["mem_1" := note_record]> ∅;
     MPU.episodicMemory := [];
     MPU.semanticMemory := [];
     MPU.proceduralMemory := ∅;
     MPU.totalMemories := 1;
     MPU.retentionRate := 0.85 |}.

(** The greeting loop at full strength, last triggered at time 1000, and an
    input that lists its three triggers. *)
Definition greeting : GhostLoops.ghostLoop :=
  {| GhostLoops.id := "friendly_greeting";
     GhostLoops.pattern :=
       {| GhostLoops.trigger := Some ["see_owner"; "morning"; "return"]%string;
          GhostLoops.response :=
            Some ["excitement"; "approach"; "vocalize_happy"]%string;
          GhostLoops.action := None |};
     GhostLoops.strength := 1;
     GhostLoops.successCount := 11;
     GhostLoops.failureCount := 0;
     GhostLoops.lastTriggered := 1000;
     GhostLoops.createdAt := 0;
     GhostLoops.category := "greeting";
     GhostLoops.resonanceSignature := "" |}.

Definition owner_returns : GhostLoops.input :=
  GhostLoops.InObject
    {| GhostLoops.iaction := None; GhostLoops.itrigger := None;
       GhostLoops.istate := None; GhostLoops.iemotion := None;
       GhostLoops.iconcept := None;
       GhostLoops.ifeatures := Some ["see_owner"; "morning"; "return"]%string |}.


(** The identity after start-up at time 0, every value drawn at 0.5. *)
Definition identity_start : Aetheron.state :=
  Aetheron.initial_state 0 (λ _, 0.5%Q).

(** Winning a game with a friend: social, an achievement, and joyful. *)
Definition victory : Aetheron.experience :=
  {| Aetheron.social := true; Aetheron.interaction := false;
     Aetheron.learning := false; Aetheron.discovery := false;
     Aetheron.emotion := Some "joy"%string; Aetheron.achievement := true;
     Aetheron.play := true; Aetheron.learned := None;
     Aetheron.entity := None; Aetheron.with_ := None;
     Aetheron.positive := true; Aetheron.negative := false;
     Aetheron.novel := false; Aetheron.etype := Some "achievement"%string;
     Aetheron.content := Some "won"%string; Aetheron.importance := None |}.

End Examples.

(* ===================================================================== *)
(** * Properties *)
(* ===================================================================== *)

(** ** Facts about the JavaScript primitives *)

(** Splitting the conjunctions of a goal without reducing its atoms, and
    closing a closed atom by evaluation. *)
Ltac conjs := repeat match goal with |- _ ∧ _ => split end.
Ltac evaluate := vm_compute; first [ reflexivity | discriminate ].

Module JsFacts.
Import Js.

Lemma gtb_true (a b : Q) : gtb a b = true ↔ (b < a)%Q.
Proof.
  unfold gtb. rewrite (Qgt_alt a b).
  destruct (a ?= b)%Q; split; congruence.
Qed.

Lemma gtb_false (a b : Q) : gtb a b = false ↔ (a <= b)%Q.
Proof.
  unfold gtb. rewrite Qle_alt.
  destruct (a ?= b)%Q; split; congruence.
Qed.

Lemma ltb_true (a b : Q) : ltb a b = true ↔ (a < b)%Q.
Proof.
  unfold ltb. rewrite Qlt_alt.
  destruct (a ?= b)%Q; split; congruence.
Qed.

Lemma ltb_false (a b : Q) : ltb a b = false ↔ (b <= a)%Q.
Proof.
  rewrite <- not_true_iff_false, ltb_true. split.
  - apply Qnot_lt_le.
  - apply Qle_not_lt.
Qed.

Lemma leb_true (a b : Q) : leb a b = true ↔ (a <= b)%Q.
Proof. unfold leb. rewrite negb_true_iff. apply gtb_false. Qed.


Lemma Math_min_le_l (a b : Q) : (Math_min a b <= a)%Q.
Proof. apply Q.le_min_l. Qed.

Lemma Math_min_le_r (a b : Q) : (Math_min a b <= b)%Q.
Proof. apply Q.le_min_r. Qed.

Lemma num_pos (n : nat) : n ≠ 0%nat → (0 < num n)%Q.
Proof.
  intros Hn. unfold num, Qlt. simpl. lia.
Qed.

Lemma num_le (n m : nat) : (n ≤ m)%nat ↔ (num n <= num m)%Q.
Proof. unfold num. rewrite <- Zle_Qle. lia. Qed.

Section Sets.
Context {A : Type} `{EqDecision A}.
Implicit Types (s l : list A) (x : A).

Lemma elem_of_Set_add s x y : y ∈ Set_add s x ↔ y ∈ s ∨ y = x.
Proof.
  unfold Set_add. case_decide.
  - split; [tauto | intros [?| ->]; done].
  - rewrite elem_of_app, list_elem_of_singleton. done.
Qed.

Lemma NoDup_Set_add s x : NoDup s → NoDup (Set_add s x).
Proof.
  intros Hs. unfold Set_add. case_decide; [done |].
  apply NoDup_app. split_and!; [done | | apply NoDup_singleton].
  intros y Hy ->%list_elem_of_singleton. done.
Qed.

Lemma elem_of_foldl_Set_add l s y :
  y ∈ foldl Set_add s l ↔ y ∈ s ∨ y ∈ l.
Proof.
  revert s. induction l as [| x l IH]; intros s; simpl.
  - rewrite elem_of_nil. tauto.
  - rewrite IH, elem_of_Set_add, elem_of_cons. tauto.
Qed.

Lemma NoDup_foldl_Set_add l s : NoDup s → NoDup (foldl Set_add s l).
Proof.
  revert s. induction l as [| x l IH]; intros s Hs; simpl; [done |].
  apply IH, NoDup_Set_add, Hs.
Qed.

Lemma elem_of_new_Set l y : y ∈ new_Set l ↔ y ∈ l.
Proof.
  unfold new_Set. rewrite elem_of_foldl_Set_add, elem_of_nil. tauto.
Qed.

Lemma NoDup_new_Set l : NoDup (new_Set l).
Proof. apply NoDup_foldl_Set_add, NoDup_nil_2. Qed.

(** Two arrays with the same elements give sets of the same size. *)
Lemma new_Set_length_ext l1 l2 :
  (∀ y, y ∈ l1 ↔ y ∈ l2) → length (new_Set l1) = length (new_Set l2).
Proof.
  intros H. apply Permutation_length, NoDup_Permutation;
    [apply NoDup_new_Set | apply NoDup_new_Set |].
  intros y. rewrite !elem_of_new_Set. apply H.
Qed.

Lemma Set_has_true s x : Set_has s x = true ↔ x ∈ s.
Proof. unfold Set_has. apply bool_decide_eq_true. Qed.
End Sets.

Section Sort.
Context {A : Type} (keep_before : A → A → bool).

Lemma sort_insert_Permutation x (l : list A) :
  sort_insert keep_before x l ≡ₚ x :: l.
Proof.
  induction l as [| y l IH]; simpl; [done |].
  destruct (keep_before x y); [done |].
  rewrite IH. apply Permutation_swap.
Qed.

Lemma Array_sort_Permutation (l : list A) : Array_sort keep_before l ≡ₚ l.
Proof.
  induction l as [| x l IH]; simpl; [done |].
  rewrite sort_insert_Permutation. by f_equiv.
Qed.

Lemma Array_sort_length (l : list A) :
  length (Array_sort keep_before l) = length l.
Proof. apply Permutation_length, Array_sort_Permutation. Qed.
End Sort.


(** With a total and transitive comparator the sort orders its argument. *)
Section Sorted.
Context {A : Type} (keep_before : A → A → bool).
Hypothesis total : ∀ a b, keep_before a b = true ∨ keep_before b a = true.
Hypothesis trans : ∀ a b c,
  keep_before a b = true → keep_before b c = true → keep_before a c = true.

Let R : relation A := λ a b, keep_before a b = true.

Lemma sort_insert_sorted x (l : list A) :
  StronglySorted R l → StronglySorted R (sort_insert keep_before x l).
Proof.
  induction 1 as [| y l Hl IH Hy]; simpl.
  - by repeat constructor.
  - destruct (keep_before x y) eqn:Hxy.
    + apply StronglySorted_cons. split; [| by constructor].
      constructor; [done |].
      eapply Forall_impl; [exact Hy |]. intros z Hz. by eapply trans.
    + apply StronglySorted_cons. split; [| done].
      rewrite sort_insert_Permutation. constructor; [| done].
      destruct (total x y) as [H | H]; [congruence | done].
Qed.

Lemma Array_sort_sorted (l : list A) :
  StronglySorted R (Array_sort keep_before l).
Proof.
  induction l as [| x l IH]; simpl; [constructor |].
  by apply sort_insert_sorted.
Qed.

(** The first [n] elements of the sorted array go before all the others. *)
Lemma Array_sort_take_drop (l : list A) n x y :
  x ∈ take n (Array_sort keep_before l) →
  y ∈ drop n (Array_sort keep_before l) →
  keep_before x y = true.
Proof.
  intros Hx Hy.
  pose proof (Array_sort_sorted l) as Hs.
  rewrite <- (take_drop n (Array_sort keep_before l)) in Hs.
  by eapply (StronglySorted_app_1_elem_of R).
Qed.
End Sorted.

End JsFacts.

(** ** Pattern resonance engine *)

Module HASRFacts.
Import Js JsFacts HASR.

(** A filter that every element passes. *)
Lemma filter_all {A} (P : A → Prop) `{!∀ x, Decision (P x)} (l : list A) :
  Forall P l → filter P l = l.
Proof.
  induction 1 as [| x l Hx _ IH]; [done |].
  rewrite filter_cons_True by done. by rewrite IH.
Qed.

(** Similarity of two arrays with the same elements: the intersection and
    the union computed by [calculateResonance] have the same size. *)
Lemma intersection_union_same_size (f t : list string) :
  (∀ x, x ∈ f ↔ x ∈ t) →
  length (new_Set (filter (λ x, Set_has (new_Set t) x = true) (new_Set f)))
  = length (new_Set (new_Set f ++ new_Set t)).
Proof.
  intros Hft. rewrite filter_all.
  - apply new_Set_length_ext. intros y.
    rewrite elem_of_app, !elem_of_new_Set. specialize (Hft y). tauto.
  - apply Forall_forall. intros x Hx.
    rewrite Set_has_true, elem_of_new_Set, <- Hft.
    by rewrite elem_of_new_Set in Hx.
Qed.

Lemma union_nonempty (f t : list string) :
  t ≠ [] → length (new_Set (new_Set f ++ new_Set t)) ≠ 0%nat.
Proof.
  intros Ht Hlen. destruct t as [| x t]; [done |].
  apply length_zero_iff_nil in Hlen.
  assert (x ∈ new_Set (new_Set f ++ new_Set (x :: t))) as Hx.
  { rewrite elem_of_new_Set, elem_of_app, !elem_of_new_Set.
    right. apply elem_of_cons. by left. }
  rewrite Hlen in Hx. by apply elem_of_nil in Hx.
Qed.

(** *** Maps as association lists *)

Lemma get_update_eq ps name f p :
  get ps name = Some p → get (update ps name f) name = Some (f p).
Proof.
  induction ps as [| [n q] ps IH]; simpl; [done |].
  case_decide as Hn; simpl.
  - intros [= ->]. by rewrite decide_True.
  - intros Hg. rewrite decide_False by done. auto.
Qed.

Lemma get_update_ne ps n name f :
  n ≠ name → get (update ps n f) name = get ps name.
Proof.
  intros Hne. induction ps as [| [m q] ps IH]; simpl; [done |].
  destruct (decide (m = n)) as [-> |]; simpl.
  - by rewrite !decide_False.
  - case_decide; [done | apply IH].
Qed.

Lemma get_set_other ps n name q :
  n ≠ name → get (set ps n q) name = get ps name.
Proof.
  intros Hne. induction ps as [| [m q'] ps IH]; simpl.
  - by rewrite decide_False.
  - destruct (decide (m = n)) as [-> |]; simpl.
    + by rewrite !decide_False.
    + case_decide; [done | apply IH].
Qed.


(** *** The feature counts of [findCommonFeatures] *)

Lemma foldl_flat_map {A B C} (f : A → C → A) (g : B → list C) (l : list B) a :
  foldl (λ a b, foldl f a (g b)) a l = foldl f a (flat_map g l).
Proof.
  revert a. induction l as [| b l IH]; intros a; simpl; [done |].
  by rewrite foldl_app, IH.
Qed.

Lemma featureCounts_flat insts :
  featureCounts insts = foldl count_feature [] (flat_map features insts).
Proof. apply (foldl_flat_map count_feature features). Qed.

Lemma allFeatures_flat insts :
  allFeatures insts = new_Set (flat_map features insts).
Proof. apply (foldl_flat_map Set_add features). Qed.

Lemma count_feature_keys fc f : (count_feature fc f).*1 = Set_add (fc.*1) f.
Proof.
  induction fc as [| [g c] fc IH]; csimpl; [done |].
  unfold Set_add in *. destruct (decide (g = f)) as [-> |]; csimpl.
  - rewrite decide_True; [done | apply elem_of_cons; by left].
  - rewrite IH. destruct (decide (f ∈ fc.*1)) as [Hin | Hnin].
    + rewrite decide_True; [done | apply elem_of_cons; by right].
    + rewrite decide_False; [done |].
      intros [? | ?]%elem_of_cons; congruence.
Qed.

Lemma counts_keys l fc :
  (foldl count_feature fc l).*1 = foldl Set_add (fc.*1) l.
Proof.
  revert fc. induction l as [| f l IH]; intros fc; simpl; [done |].
  by rewrite IH, count_feature_keys.
Qed.







(** C2 (as amended).  For a stored pattern with a non-empty template, the
    resonance against an input whose feature set equals the template is the
    overlap 1 times the confidence factor: it is the pattern's confidence
    (taken as 1 when the confidence is 0). *)
Theorem resonance_of_own_template (p : pattern) (i : instance) :
  template p ≠ [] →
  (∀ x, x ∈ features i ↔ x ∈ template p) →
  (resonance i p == num_or (Some (confidence p)) 1)%Q.
Proof.
  intros Hne Hsame. unfold resonance, calculateResonance.
  rewrite (intersection_union_same_size _ _ Hsame).
  pose proof (union_nonempty (features i) (template p) Hne) as Hlen.
  case_decide; [done |].
  apply num_pos in Hlen.
  set (n := num _) in *. set (c := num_or _ _).
  field. intros Hn. rewrite Hn in Hlen. by apply Qlt_irrefl in Hlen.
Qed.

(** The built-in pattern [interaction_positive] against its own template. *)
Lemma resonance_of_own_template_witness :
  (resonance {| features := ["joy"; "engagement"; "reward"]%string; itimestamp := 0 |}
             (base_pattern ["joy"; "engagement"; "reward"]%string)
   == num_or (Some 0.9%Q) 1)%Q.
Proof.
  apply (resonance_of_own_template
           (base_pattern ["joy"; "engagement"; "reward"]%string)
           {| features := ["joy"; "engagement"; "reward"]%string; itimestamp := 0 |}).
  - simpl. discriminate.
  - intros x. simpl. reflexivity.
Defined.

(** C2 (as stated) fails: the built-in pattern [interaction_positive],
    matched against exactly its own template, resonates at 0.9, not 1; and
    the pattern learnt from an input without features has an empty
    template, against which the same input resonates at 0. *)
Lemma resonance_of_own_template_not_1 :
  get (patterns initial_state) "interaction_positive"
    = Some (base_pattern ["joy"; "engagement"; "reward"]%string)
  ∧ (resonance Examples.joy_engagement_reward
               (base_pattern ["joy"; "engagement"; "reward"]%string) == 0.9)%Q
  ∧ ¬ (resonance Examples.joy_engagement_reward
                 (base_pattern ["joy"; "engagement"; "reward"]%string) == 1)%Q
  ∧ (template <$> get (patterns (processPattern default_config "pattern_1"
                                   (Examples.input []) initial_state).1)
                      "pattern_1") = Some []
  ∧ (resonance (Examples.input [])
               {| template := []; strength := 0.8; instances := [Examples.input []];
                  confidence := 0.5; level := 0 |} == 0)%Q.
Proof. conjs; evaluate. Qed.

(** *** Strengthening a matched pattern *)


Lemma strengthen_first cfg i p :
  instances p = [] →
  template (strengthen cfg i p) = template p
  ∧ confidence (strengthen cfg i p) = 0.5%Q.
Proof.
  intros Hp. unfold strengthen, calculatePatternConfidence. simpl.
  rewrite Hp. simpl. done.
Qed.

Lemma strengthen_later cfg i p :
  instances p ≠ [] →
  template (strengthen cfg i p) = findCommonFeatures (instances p ++ [i])
  ∧ confidence (strengthen cfg i p)
    = (num (length (findCommonFeatures (instances p ++ [i])))
       / num (length (new_Set (flat_map features (instances p ++ [i])))) * 0.7
       + Math_min 1 (num (length (instances p ++ [i])) / 10) * 0.3)%Q.
Proof.
  intros Hp. unfold strengthen, calculatePatternConfidence. simpl.
  assert (1 < length (instances p ++ [i]))%nat as Hlen.
  { rewrite length_app. simpl. destruct (instances p); [done | simpl; lia]. }
  rewrite decide_True by done.
  rewrite decide_False by lia.
  by rewrite allFeatures_flat.
Qed.




(** *** Range of pattern strength *)

(** The strength written by [strengthenPattern] on the matched pattern is
    clamped. *)
Lemma strengthen_strength_range cfg i p :
  (0 <= strength p)%Q → (0 <= reinforcementFactor cfg)%Q →
  (0 <= strength (strengthen cfg i p) <= 1)%Q.
Proof.
  intros Hs Hf. simpl. split.
  - apply Q.min_glb; [done |]. by apply Qmult_le_0_compat.
  - apply Math_min_le_l.
Qed.

Lemma ratio_range (a b : nat) :
  (a ≤ b)%nat → (0 <= num a / num b <= 1)%Q.
Proof.
  intros Hab. destruct (decide (b = 0%nat)) as [-> | Hb].
  - assert (a = 0%nat) as -> by lia. vm_compute. split; discriminate.
  - pose proof (num_pos b Hb) as Hpos.
    apply num_le in Hab.
    assert (0 <= num a)%Q as Ha by (apply (num_le 0); lia).
    split.
    + apply Qle_shift_div_l; [done | lra].
    + apply Qle_shift_div_r; [done | lra].
Qed.

Lemma findCommonFeatures_length insts :
  (length (findCommonFeatures insts)
   ≤ length (new_Set (flat_map features insts)))%nat.
Proof.
  unfold findCommonFeatures. case_decide; [simpl; lia |].
  rewrite length_fmap.
  etrans; [apply length_filter |].
  rewrite featureCounts_flat, <- (length_fmap fst), counts_keys. done.
Qed.

(** The confidence written by [strengthenPattern] is a weighted mean of two
    numbers of [0, 1]. *)
Lemma strengthen_confidence_range cfg i p :
  (0 <= confidence (strengthen cfg i p) <= 1)%Q.
Proof.
  destruct (decide (instances p = [])) as [Hp | Hp].
  - destruct (strengthen_first cfg i p Hp) as [_ ->]. lra.
  - destruct (strengthen_later cfg i p Hp) as [_ ->].
    pose proof (ratio_range _ _ (findCommonFeatures_length (instances p ++ [i])))
      as [Hlo Hhi].
    set (c := (num _ / num _)%Q) in *.
    set (n := num (length (instances p ++ [i]))).
    assert (0 <= n)%Q as Hn by (apply (num_le 0); lia).
    assert (0 <= Math_min 1 (n / 10) <= 1)%Q as [Helo Hehi].
    { split; [| apply Math_min_le_l].
      apply Q.min_glb; [lra |]. apply Qle_shift_div_l; lra. }
    lra.
Qed.

(** The decay sweep keeps strengths within [0, 1]. *)
Lemma decay_sweep_range cfg st :
  (0 <= patternDecay cfg <= 1)%Q →
  Forall (λ e, 0 <= strength e.2 <= 1)%Q (patterns st) →
  Forall (λ e, 0 <= strength e.2 <= 1)%Q (patterns (decay_sweep cfg st)).
Proof.
  intros [Hd0 Hd1] Hall. unfold decay_sweep. simpl.
  apply Forall_forall. intros e [_ He]%list_elem_of_filter.
  apply list_elem_of_fmap in He as [[n q] [-> Hq]].
  rewrite Forall_forall in Hall. destruct (Hall _ Hq) as [Hq0 Hq1].
  simpl in *. split; nra.
Qed.

(** No pattern is connected to itself. *)
Lemma createResonanceConnections_no_self name p st cs c :
  resonanceNetwork (createResonanceConnections name p st) !! name = Some cs →
  c ∈ cs → target c ≠ name.
Proof.
  unfold createResonanceConnections. simpl. rewrite lookup_insert_eq.
  intros [= <-].
  assert (∀ acc, (∀ c', c' ∈ acc → target c' ≠ name) →
            c ∈ foldl (λ cs (e : string * pattern),
                         if decide (e.1 = name) then cs
                         else
                           let r := calculateResonance (Some (template p))
                                      (Some (template e.2)) (Some (confidence e.2)) in
                           if gtb r 0.3 then cs ++ [{| target := e.1; cstrength := r |}]
                           else cs) acc (patterns st) →
            target c ≠ name) as Hgen.
  { induction (patterns st) as [| e l IH]; intros acc Hacc; simpl; [apply Hacc |].
    apply IH. case_decide as He; [done |].
    destruct (gtb _ _); [| done].
    intros c' [Hc' | ->%list_elem_of_singleton]%elem_of_app; [by apply Hacc | done]. }
  apply Hgen. intros c' Hc'. by apply elem_of_nil in Hc'.
Qed.

(** The best match returned by [findResonance] is a key of [this.patterns]. *)
Lemma get_is_Some ps name : name ∈ ps.*1 → is_Some (get ps name).
Proof.
  induction ps as [| [n q] ps IH]; csimpl.
  - by intros ?%elem_of_nil.
  - intros [-> | Hin]%elem_of_cons.
    + rewrite decide_True by done. by eexists.
    + case_decide; [by eexists | by apply IH].
Qed.

Lemma findResonance_stored st i name :
  (findResonance st i).2 = Some name → is_Some (get (patterns st) name).
Proof.
  intros Hres. apply get_is_Some. revert Hres. unfold findResonance.
  assert (∀ (l : list (string * pattern)) (acc : Q * option string),
            (foldl (λ (acc : Q * option string) (e : string * pattern),
                      let r := resonance i e.2 in
                      if gtb r acc.1 then (r, Some e.1) else acc)
                   acc l).2 = Some name →
            acc.2 = Some name ∨ name ∈ l.*1) as Hgen.
  { induction l as [| e l IH]; intros acc; csimpl; [by left |].
    intros [Hacc | Hin]%IH.
    - destruct (gtb _ _); simpl in Hacc.
      + injection Hacc as <-. right. apply elem_of_cons. by left.
      + by left.
    - right. apply elem_of_cons. by right. }
  intros [? | ?]%Hgen; [done | done].
Qed.

(** The invariant [no_self_connection] holds at start-up and is kept by
    [processPattern] and by the decay sweep. *)
Lemma no_self_connection_initial : Spec.no_self_connection initial_state.
Proof. intros name cs c Hcs. simpl in Hcs. by rewrite lookup_empty in Hcs. Qed.

Lemma resonanceNetwork_strengthenPattern cfg name i st :
  resonanceNetwork (strengthenPattern cfg name i st) = resonanceNetwork st.
Proof.
  unfold strengthenPattern, reinforceConnections. simpl.
  by destruct (resonanceNetwork st !! name).
Qed.

Lemma no_self_connection_processPattern cfg newName i st :
  Spec.no_self_connection st →
  Spec.no_self_connection (processPattern cfg newName i st).1.
Proof.
  intros Hst. unfold processPattern. simpl.
  destruct (gtb _ _).
  - destruct (findResonance st i).2 as [name |]; [| done].
    intros n cs c. simpl. rewrite resonanceNetwork_strengthenPattern. apply Hst.
  - intros n cs c Hcs Hc. unfold learnNovelPattern in Hcs.
    destruct (decide (n = newName)) as [-> | Hn].
    + by eapply createResonanceConnections_no_self.
    + simpl in Hcs. rewrite lookup_insert_ne in Hcs by done. by eapply Hst.
Qed.

Lemma no_self_connection_decay_sweep cfg st :
  Spec.no_self_connection st → Spec.no_self_connection (decay_sweep cfg st).
Proof.
  intros Hst n cs c Hcs. apply (Hst n cs c).
  revert Hcs. unfold decay_sweep. simpl.
  generalize ((λ e : string * pattern, (e.1, decayed cfg e.2)) <$> patterns st).
  intros l. generalize (resonanceNetwork st).
  induction l as [| e l IH]; intros net; simpl; [done |].
  intros Hcs%IH. destruct (weak e); [| done].
  apply lookup_delete_Some in Hcs as [_ Hcs]. done.
Qed.


End HASRFacts.

(** ** Memory store *)

Module MPUFacts.
Import Js JsFacts MPU.

(** *** Episodic partition *)





(** After a store the partition holds at most [maxEpisodic] records. *)
Lemma storeEpisodicMemory_length cfg memory episodic :
  (length (storeEpisodicMemory cfg memory episodic) ≤ maxEpisodic cfg)%nat.
Proof.
  unfold storeEpisodicMemory. case_decide as Hlen.
  - rewrite Array_sort_length, length_take, Array_sort_length. lia.
  - lia.
Qed.


(** C3, at the failing input.  With the default cap of 1000, store 1000
    episodic records of importance 0.5 at the times 1 .. 1000: the partition
    is in insertion order and [getRecentMemories(1)] returns the record of
    time 1000.  Storing one more record (time 1001, importance 0.9)
    overflows the cap: the record of time 1000 is dropped and the survivors
    are left newest first, so that [getRecentMemories(1)], which reads the
    end of the array, now returns the oldest record, of time 1. *)
Lemma storeEpisodicMemory_eviction_order :
  let before := Examples.stored 1000 in
  let after := Examples.store_or_keep before "mem_1001" 1001
                 (Examples.episodic_input 0.9) in
  length (episodicMemory before) = 1000%nat
  ∧ timestamp <$> getRecentMemories 1 (episodicMemory before) = [1000%Q]
  ∧ length (episodicMemory after) = 1000%nat
  ∧ timestamp <$> take 3 (episodicMemory after) = [1001%Q; 999%Q; 998%Q]
  ∧ timestamp <$> getRecentMemories 1 (episodicMemory after) = [1%Q].
Proof.
  split_and!; vm_compute; reflexivity.
Qed.

(** The same on a small store: with a cap of 2, the records of times 1 and
    2 and then a third one of higher importance. *)
Lemma storeEpisodicMemory_eviction_order_small :
  storeEpisodicMemory Examples.cap_2 (Examples.record 3 0.9)
    (storeEpisodicMemory Examples.cap_2 (Examples.record 2 0.5)
       (storeEpisodicMemory Examples.cap_2 (Examples.record 1 0.5) []))
  = [Examples.record 3 0.9; Examples.record 1 0.5].
Proof. vm_compute. reflexivity. Qed.

(** *** Range of importance *)

Lemma calculateImportance_range memory q :
  calculateImportance memory = Some q → (0.5 <= q <= 1)%Q.
Proof.
  unfold calculateImportance.
  destruct (context_includes memory "owner") as [owner |]; simpl; [| done].
  destruct (if owner then Some true else context_includes memory "user")
    as [user |]; simpl; [| done].
  intros [= <-]. split; [| apply Math_min_le_l].
  apply Q.min_glb; [lra |].
  repeat match goal with
         | |- context [if ?b then _ else _] => destruct b
         | |- context [match ?x with _ => _ end] => destruct x
         end; lra.
Qed.

(** A record built by [storeMemory] carries the caller's importance when
    that is truthy, and a computed one of [0.5, 1] otherwise. *)
Lemma storeMemory_importance cfg id now memory st st' m :
  storeMemory cfg id now memory st = Some (st', m) →
  (truthy (memory !! "importance") = false → (0.5 <= importance m <= 1)%Q)
  ∧ (truthy (memory !! "importance") = true →
     m !! "importance" = memory !! "importance").
Proof.
  unfold storeMemory.
  destruct (truthy (memory !! "importance")) eqn:Htruthy.
  - destruct (memory !! "importance") as [imp |] eqn:Himp; simpl; [| done].
    intros [= _ <-]. split; [done | intros _].
    by rewrite lookup_insert_ne, lookup_insert_ne, lookup_insert_eq.
  - destruct (calculateImportance memory) as [q |] eqn:Hq; simpl; [| done].
    intros [= _ <-]. split; [intros _ | done].
    unfold importance, getNum.
    rewrite lookup_insert_ne, lookup_insert_ne, lookup_insert_eq by done.
    by eapply calculateImportance_range.
Qed.

Lemma decay_range cfg m :
  (0 <= importanceDecay cfg <= 1)%Q →
  (0 <= importance m <= 1)%Q →
  (0 <= importance (decay cfg m) <= 1)%Q.
Proof.
  intros [Hd0 Hd1] [Hm0 Hm1].
  unfold decay, importance at 1 3, getNum. rewrite lookup_insert_eq.
  split; nra.
Qed.

(** *** Forgetting *)






(** One sweep over [sweep_input]: the record retrieved a second ago and the
    vivid one stay, with decayed importance; the two others are gone. *)
Lemma forgetUnimportantMemories_example :
  let after := forgetUnimportantMemories default_config 200000000
                 Examples.sweep_input in
  (λ m, m !! "id") <$> episodicMemory after
  = [Some (VStr "recent"); Some (VStr "vivid")]
  ∧ Forall2 (λ m q, importance m == q)%Q (episodicMemory after) [0.099; 0.495]%Q.
Proof.
  intros after. split; [evaluate |].
  repeat constructor; evaluate.
Qed.

(** *** Semantic partition *)

Lemma set_keys m k v existing :
  get m k = Some existing → (set m k v).*1 = m.*1.
Proof.
  induction m as [| [k' v'] m IH]; csimpl; [done |].
  case_decide; csimpl; [done |]. intros Hg. by rewrite IH.
Qed.



Lemma length_set_le m k v : (length (set m k v) ≤ S (length m))%nat.
Proof.
  induction m as [| [k' v'] m IH]; simpl; [lia |].
  case_decide; simpl; lia.
Qed.

Lemma length_rebuilt (entries acc : list (string * gmap string value)) :
  (length (foldl (λ m e, set m e.1 e.2) acc entries)
   ≤ length acc + length entries)%nat.
Proof.
  revert acc. induction entries as [| e entries IH]; intros acc; simpl; [lia |].
  etrans; [apply IH |]. pose proof (length_set_le acc e.1 e.2). lia.
Qed.

(** A store on an existing key never adds an entry. *)
Lemma storeSemanticMemory_no_growth cfg now memory semantic existing :
  get semantic (semantic_key now memory) = Some existing →
  (length (storeSemanticMemory cfg now memory semantic) ≤ length semantic)%nat.
Proof.
  intros Hget. unfold storeSemanticMemory. rewrite Hget.
  assert (length (set semantic (semantic_key now memory) (merge existing memory))
          = length semantic) as Hlen.
  { rewrite <- (length_fmap fst), (set_keys _ _ _ existing) by done.
    by rewrite length_fmap. }
  case_decide; [| lia].
  etrans; [apply length_rebuilt |]. simpl.
  rewrite length_take, Array_sort_length. lia.
Qed.

(** Every store leaves the partition within its cap. *)
Lemma storeSemanticMemory_within_cap cfg now memory semantic :
  (length (storeSemanticMemory cfg now memory semantic) ≤ maxSemantic cfg)%nat.
Proof.
  unfold storeSemanticMemory. case_decide as Hlen; [| lia].
  etrans; [apply length_rebuilt |]. simpl. rewrite length_take. lia.
Qed.




End MPUFacts.

(** ** Behaviour loops *)

Module GhostLoopsFacts.
Import Js JsFacts GhostLoops.

(** C7.  For an existing loop, a successful reinforcement adds the bonus to
    its strength, capped at 1, and increments [successCount]; a failed one
    subtracts half the bonus, floored at 0.1, and increments [failureCount];
    nothing else of the loop changes, and no other loop, nor the active set,
    is changed by the call. *)
Theorem reinforceLoop_spec (cfg : config) (loopId : string) (st : state)
        (loop : ghostLoop) :
  crystallizedPatterns st !! loopId = Some loop →
  crystallizedPatterns (reinforceLoop cfg loopId true st) !! loopId
  = Some {| id := id loop; pattern := pattern loop;
            strength := Math_min 1 (strength loop + reinforcementBonus cfg)%Q;
            successCount := S (successCount loop);
            failureCount := failureCount loop;
            lastTriggered := lastTriggered loop; createdAt := createdAt loop;
            category := category loop;
            resonanceSignature := resonanceSignature loop |}
  ∧ crystallizedPatterns (reinforceLoop cfg loopId false st) !! loopId
    = Some {| id := id loop; pattern := pattern loop;
              strength := Math_max 0.1
                            (strength loop - reinforcementBonus cfg * 0.5)%Q;
              successCount := successCount loop;
              failureCount := S (failureCount loop);
              lastTriggered := lastTriggered loop; createdAt := createdAt loop;
              category := category loop;
              resonanceSignature := resonanceSignature loop |}
  ∧ ∀ success,
      (∀ other, other ≠ loopId →
         crystallizedPatterns (reinforceLoop cfg loopId success st) !! other
         = crystallizedPatterns st !! other)
      ∧ activeLoops (reinforceLoop cfg loopId success st) = activeLoops st
      ∧ totalCrystallized (reinforceLoop cfg loopId success st)
        = totalCrystallized st.
Proof.
  intros Hloop. unfold reinforceLoop. rewrite Hloop. simpl. split_and!.
  - by rewrite lookup_insert_eq.
  - by rewrite lookup_insert_eq.
  - intros success. split_and!; [| done | done].
    intros other Hother. by rewrite lookup_insert_ne.
Qed.

(** The built-in loop [friendly_greeting], of strength 0.9 and ten
    successes: a success brings it to strength 1 and eleven successes. *)
Lemma reinforceLoop_spec_witness :
  let st := initializeCoreBehaviors default_config 0 empty_state in
  (strength <$> crystallizedPatterns st !! "friendly_greeting") = Some 0.9%Q
  ∧ (successCount <$> crystallizedPatterns
                        (reinforceLoop default_config "friendly_greeting" true st)
                      !! "friendly_greeting") = Some 11%nat
  ∧ (strength <$> crystallizedPatterns
                    (reinforceLoop default_config "friendly_greeting" true st)
                  !! "friendly_greeting")
    = Some (Math_min 1 (0.9 + 0.1)%Q).
Proof.
  intros st.
  destruct (crystallizedPatterns st !! "friendly_greeting") as [loop |] eqn:Hloop;
    [| vm_compute in Hloop; discriminate].
  destruct (reinforceLoop_spec default_config "friendly_greeting" st loop Hloop)
    as (Hok & _ & _).
  rewrite Hok. simpl.
  assert (loop = {| id := "friendly_greeting";
                    pattern := {| trigger := Some ["see_owner"; "morning"; "return"]%string;
                                  response := Some ["excitement"; "approach"; "vocalize_happy"]%string;
                                  action := None |};
                    strength := 0.9; successCount := 10; failureCount := 0;
                    lastTriggered := 0; createdAt := 0;
                    category := "greeting";
                    resonanceSignature :=
                      "approach_excitement_morning_return_see_owner_vocalize_happy" |})
    as ->.
  { vm_compute in Hloop. by injection Hloop as <-. }
  split_and!; reflexivity.
Defined.

(** What a success and a failure do to the strength, within the range
    [0.1, 1] and for a non-negative bonus. *)
Lemma reinforced_strength_range cfg success loop :
  (0 <= reinforcementBonus cfg)%Q →
  (0.1 <= strength loop <= 1)%Q →
  (0.1 <= strength (reinforced cfg success loop) <= 1)%Q
  ∧ (if success then strength loop <= strength (reinforced cfg success loop)
     else strength (reinforced cfg success loop) <= strength loop)%Q.
Proof.
  intros Hb [Hlo Hhi]. destruct success; simpl; unfold Math_min, Math_max.
  - split_and!.
    + apply Q.min_glb; lra.
    + apply Q.le_min_l.
    + apply Q.min_glb; lra.
  - split_and!.
    + apply Q.le_max_l.
    + apply Q.max_lub; lra.
    + apply Q.max_lub; lra.
Qed.

End GhostLoopsFacts.

(** ** Symbol encoder *)

Module SSPFacts.
Import Js JsFacts SSP.

Lemma strengthenBinding_lookup key st k :
  bindingStrength (strengthenBinding key st) !! k
  = if decide (k = key)
    then Some (bump (default 0%Q (bindingStrength st !! key)))
    else bindingStrength st !! k.
Proof.
  unfold strengthenBinding.
  destruct (bindingStrength st !! key) as [s |] eqn:Hkey; simpl.
  - rewrite Hkey. simpl. case_decide as Hk.
    + subst. by rewrite lookup_insert_eq.
    + by rewrite lookup_insert_ne.
  - rewrite lookup_insert_eq. simpl. case_decide as Hk.
    + subst. by rewrite lookup_insert_eq.
    + by rewrite !lookup_insert_ne.
Qed.

(** The two nested loops visit the ordered pairs. *)
Lemma createBindings_pairs symbols st :
  createBindings symbols st
  = foldl (λ s p, strengthenBinding (bindingKey p.1 p.2) s) st
          (Spec.ordered_pairs symbols).
Proof.
  revert st. induction symbols as [| si later IH]; intros st; simpl; [done |].
  rewrite foldl_app, IH. f_equal.
  unfold bindWith. generalize st. clear.
  induction later as [| sj later IH]; intros st; simpl; [done |].
  by rewrite IH.
Qed.



(** *** Range of binding strength *)

(** A strengthened binding never exceeds 1. *)
Lemma bump_le_1 s : (bump s <= 1)%Q.
Proof. apply Math_min_le_l. Qed.

Lemma bump_range s : (0 <= s)%Q → (0 <= bump s <= 1)%Q.
Proof.
  intros Hs. split; [| apply bump_le_1].
  unfold bump, Math_min. apply Q.min_glb; lra.
Qed.

Lemma strengthenBinding_range key st :
  map_Forall (λ _ s, 0 <= s <= 1)%Q (bindingStrength st) →
  map_Forall (λ _ s, 0 <= s <= 1)%Q (bindingStrength (strengthenBinding key st)).
Proof.
  intros Hst k s. rewrite strengthenBinding_lookup. case_decide.
  - intros [= <-]. apply bump_range.
    destruct (bindingStrength st !! key) as [s0 |] eqn:Hs0; simpl; [| lra].
    by destruct (Hst _ _ Hs0).
  - apply Hst.
Qed.

Lemma createBindings_range symbols st :
  map_Forall (λ _ s, 0 <= s <= 1)%Q (bindingStrength st) →
  map_Forall (λ _ s, 0 <= s <= 1)%Q (bindingStrength (createBindings symbols st)).
Proof.
  rewrite createBindings_pairs. generalize (Spec.ordered_pairs symbols).
  intros pairs. revert st.
  induction pairs as [| p pairs IH]; intros st Hst; simpl; [done |].
  by apply IH, strengthenBinding_range.
Qed.

Lemma decayBindings_range decayRate st :
  (0 <= decayRate <= 1)%Q →
  map_Forall (λ _ s, 0 <= s <= 1)%Q (bindingStrength st) →
  map_Forall (λ _ s, 0 <= s <= 1)%Q (bindingStrength (decayBindings decayRate st)).
Proof.
  intros [Hd0 Hd1] Hst k s. unfold decayBindings. simpl.
  rewrite lookup_omap.
  destruct (bindingStrength st !! k) as [s0 |] eqn:Hs0; simpl; [| done].
  destruct (ltb _ _); [done |]. intros [= <-].
  destruct (Hst _ _ Hs0). split; nra.
Qed.


End SSPFacts.

(** ** Curiosity scheduler *)

Module WonderFacts.
Import Js JsFacts Wonder.

(** *** What the steps of an exploration do to [lastWonderTime] *)

Lemma lastWonderTime_discover now st s :
  lastWonderTime (discover now st s) = lastWonderTime st.
Proof. unfold discover. by destruct (discoveries st !! concept s). Qed.

Lemma lastWonderTime_discover_all now l st :
  lastWonderTime (foldl (discover now) st l) = lastWonderTime st.
Proof.
  revert st. induction l as [| s l IH]; intros st; simpl; [done |].
  by rewrite IH, lastWonderTime_discover.
Qed.

Lemma lastWonderTime_deeperExploration e st :
  lastWonderTime (deeperExploration e st) = lastWonderTime st.
Proof. unfold deeperExploration. by destruct (flat_map _ _). Qed.

Lemma lastWonderTime_processExploration cfg now e st :
  lastWonderTime (processExploration cfg now e st) = lastWonderTime st.
Proof.
  unfold processExploration.
  destruct (_ && _); rewrite ?lastWonderTime_deeperExploration; simpl;
    apply lastWonderTime_discover_all.
Qed.

(** [explore] refuses exactly while [Date.now() - lastWonderTime] is at
    most the cooldown, and then changes nothing. *)
Lemma explore_refused cfg now l st :
  (now - lastWonderTime st ≤ wonderCooldown cfg)%Z →
  explore cfg now l st = (None, st).
Proof.
  intros Hle. unfold explore, canWonder.
  rewrite bool_decide_eq_false_2 by lia. done.
Qed.

Lemma explore_accepted cfg now l st :
  (wonderCooldown cfg < now - lastWonderTime st)%Z →
  ∃ e st', explore cfg now l st = (Some e, st')
           ∧ symbols e = l ∧ timestamp e = now ∧ depth e = 0%nat
           ∧ lastWonderTime st' = now.
Proof.
  intros Hlt. unfold explore, canWonder.
  rewrite bool_decide_eq_true_2 by lia. simpl.
  eexists _, _. split; [reflexivity |]. split_and!; try reflexivity.
  by rewrite lastWonderTime_processExploration.
Qed.

Lemma explore_success cfg now l st e st' :
  explore cfg now l st = (Some e, st') → lastWonderTime st' = now.
Proof.
  unfold explore. destruct (canWonder cfg now st); simpl; [| done].
  intros [= _ <-]. by rewrite lastWonderTime_processExploration.
Qed.

(** *** Range of familiarity *)

Lemma discover_familiarity now st s :
  map_Forall (λ _ d, 0 <= familiarity d <= 1)%Q (discoveries st) →
  map_Forall (λ _ d, 0 <= familiarity d <= 1)%Q (discoveries (discover now st s)).
Proof.
  intros Hst. unfold discover.
  destruct (discoveries st !! concept s) as [d |] eqn:Hd; simpl.
  - apply map_Forall_insert_2; [| done]. simpl.
    destruct (Hst _ _ Hd). split; [| apply Math_min_le_l].
    unfold Math_min. apply Q.min_glb; lra.
  - apply map_Forall_insert_2; [| done]. simpl. lra.
Qed.

Lemma associate_familiarity c1 c2 ds :
  map_Forall (λ _ d, 0 <= familiarity d <= 1)%Q ds →
  map_Forall (λ _ d, 0 <= familiarity d <= 1)%Q (associate c1 c2 ds).
Proof.
  intros Hds. unfold associate.
  destruct (ds !! c1) as [d |] eqn:Hd; [| done].
  case_decide; [done |].
  apply map_Forall_insert_2; [| done]. simpl. by apply (Hds _ _ Hd).
Qed.

Lemma createAssociations_familiarity l ds :
  map_Forall (λ _ d, 0 <= familiarity d <= 1)%Q ds →
  map_Forall (λ _ d, 0 <= familiarity d <= 1)%Q (createAssociations l ds).
Proof.
  revert ds. induction l as [| si later IH]; intros ds Hds; simpl; [done |].
  apply IH. clear IH. revert ds Hds.
  induction later as [| sj later IH]; intros ds Hds; simpl; [done |].
  by apply IH, associate_familiarity, associate_familiarity.
Qed.

Lemma processExploration_familiarity cfg now e st :
  map_Forall (λ _ d, 0 <= familiarity d <= 1)%Q (discoveries st) →
  map_Forall (λ _ d, 0 <= familiarity d <= 1)%Q
             (discoveries (processExploration cfg now e st)).
Proof.
  intros Hst. unfold processExploration.
  assert (map_Forall (λ _ d, 0 <= familiarity d <= 1)%Q
            (discoveries (foldl (discover now) st (symbols e)))) as H1.
  { revert st Hst. induction (symbols e) as [| s l IH]; intros st Hst; simpl;
      [done |]. by apply IH, discover_familiarity. }
  apply createAssociations_familiarity with (l := symbols e) in H1.
  destruct (_ && _); [| done].
  unfold deeperExploration. by destruct (flat_map _ _).
Qed.

Lemma explore_familiarity cfg now l st :
  map_Forall (λ _ d, 0 <= familiarity d <= 1)%Q (discoveries st) →
  map_Forall (λ _ d, 0 <= familiarity d <= 1)%Q
             (discoveries (explore cfg now l st).2).
Proof.
  intros Hst. unfold explore. destruct (canWonder cfg now st); simpl; [| done].
  apply processExploration_familiarity. simpl.
  destruct (categorizeExploration l) as [c |]; simpl; [| done].
  unfold updateInterest. by destruct (interestMap _ !! c).
Qed.

(** C9.  After a successful exploration at time [now1], and whatever ran
    in between without exploring (any state with the same [lastWonderTime]),
    a call of [explore] at a time [now2] with [now2 - now1] at most the
    cooldown returns [null] and leaves the whole engine, with its
    exploration queue and curiosity level, unchanged; a call at a time
    [now2] more than the cooldown after [now1] returns an exploration
    record for its symbols. *)
Theorem explore_cooldown (cfg : config) (now1 : Z) (l1 : list symbol)
        (st : state) (e1 : exploration) (st1 : state) :
  explore cfg now1 l1 st = (Some e1, st1) →
  ∀ st1', lastWonderTime st1' = lastWonderTime st1 →
    (∀ now2 l2, (now2 - now1 ≤ wonderCooldown cfg)%Z →
       explore cfg now2 l2 st1' = (None, st1')
       ∧ explorationQueue (explore cfg now2 l2 st1').2 = explorationQueue st1'
       ∧ curiosityLevel (explore cfg now2 l2 st1').2 = curiosityLevel st1')
    ∧ (∀ now2 l2, (wonderCooldown cfg < now2 - now1)%Z →
         ∃ e2 st2, explore cfg now2 l2 st1' = (Some e2, st2)
                   ∧ symbols e2 = l2 ∧ timestamp e2 = now2).
Proof.
  intros Hfirst st1' Hsame. apply explore_success in Hfirst.
  rewrite Hfirst in Hsame. split.
  - intros now2 l2 Hle.
    rewrite explore_refused by (rewrite Hsame; lia). done.
  - intros now2 l2 Hlt.
    destruct (explore_accepted cfg now2 l2 st1') as (e2 & st2 & He & Hs & Ht & _);
      [rewrite Hsame; lia |].
    by exists e2, st2.
Qed.

(** The engine after start-up explores [red_ball] at time 1700000000000;
    a second call 3 seconds later is refused, one 6 seconds later is not. *)
Lemma explore_cooldown_witness :
  let first := explore default_config 1700000000000 Examples.red_ball
                 Examples.wonder_start in
  explore default_config 1700000003000 Examples.red_ball first.2
  = (None, first.2)
  ∧ ∃ e2 st2, explore default_config 1700000006000 Examples.red_ball first.2
              = (Some e2, st2).
Proof.
  intros first.
  destruct first as [[e1 |] st1] eqn:Hfirst;
    [| vm_compute in Hfirst; discriminate].
  destruct (explore_cooldown default_config 1700000000000 Examples.red_ball
              Examples.wonder_start e1 st1 Hfirst st1 eq_refl) as [Hin Hout].
  split.
  - apply Hin. simpl. lia.
  - destruct (Hout 1700000006000%Z Examples.red_ball) as (e2 & st2 & He & _);
      [simpl; lia |].
    by exists e2, st2.
Defined.

(** C10.  With no symbols, absent or empty, [isNovel] answers [false]; so
    the novelty path of [processPerception] does not call [explore] and
    leaves the engine as it was. *)
Theorem isNovel_without_symbols (cfg : config) (st : state) :
  isNovel cfg st None = false
  ∧ isNovel cfg st (Some []) = false
  ∧ ∀ now, processPerception_wonder cfg now [] st = st.
Proof. split_and!; reflexivity. Qed.

End WonderFacts.

(** ** Similarity of two feature sets *)

Module JaccardFacts.
Import Js JsFacts.

Section Jaccard.
Context {A : Type} `{EqDecision A}.
Implicit Types f t : list A.

Lemma elem_of_intersection f t x :
  x ∈ new_Set (filter (λ x, Set_has (new_Set t) x = true) (new_Set f))
  ↔ x ∈ f ∧ x ∈ t.
Proof.
  rewrite elem_of_new_Set, list_elem_of_filter, Set_has_true, !elem_of_new_Set.
  tauto.
Qed.

Lemma elem_of_union f t x :
  x ∈ new_Set (new_Set f ++ new_Set t) ↔ x ∈ f ∨ x ∈ t.
Proof. by rewrite elem_of_new_Set, elem_of_app, !elem_of_new_Set. Qed.

Lemma intersection_le_union f t :
  (length (new_Set (filter (λ x, Set_has (new_Set t) x = true) (new_Set f)))
   ≤ length (new_Set (new_Set f ++ new_Set t)))%nat.
Proof.
  apply submseteq_length, NoDup_submseteq; [apply NoDup_new_Set |].
  intros x. rewrite elem_of_intersection, elem_of_union. tauto.
Qed.


End Jaccard.

End JaccardFacts.

(** ** Memory store: caps, retrieval and consolidation *)

Module MPULaws.
Import Js JsFacts MPU MPUFacts.

Section Touch.
Context (matches : gmap string value → bool) (now : Z).

Lemma touch_length limit l : length (touch limit matches now l).1 = length l.
Proof.
  revert limit. induction l as [| m r IH]; intros limit; simpl; [done |].
  destruct (matches m).
  - destruct limit; simpl; [done |]. by rewrite IH.
  - simpl. by rewrite IH.
Qed.



End Touch.



Lemma fst_zip_keys {A B C} (l : list (A * B)) (k : list C) :
  length k = length l → (zip l.*1 k).*1 = l.*1.
Proof.
  intros Hlen. apply fst_zip. rewrite length_fmap. lia.
Qed.

Lemma storeSemanticMemory_fold_cap {A} cfg now (record : A → gmap string value)
      (l : list A) semantic :
  (length semantic ≤ maxSemantic cfg)%nat →
  (length (foldl (λ sem r, storeSemanticMemory cfg now (record r) sem) semantic l)
   ≤ maxSemantic cfg)%nat.
Proof.
  revert semantic. induction l as [| r l IH]; intros semantic Hs;
    simpl; [done |].
  apply IH, storeSemanticMemory_within_cap.
Qed.

(** X1.  The caps of the two bounded partitions are an invariant of the
    memory store: if the episodic partition holds at most [maxEpisodic]
    records and the semantic partition at most [maxSemantic] entries, the
    same is true after a successful [storeMemory] of any record, after a
    [retrieveMemory], after a forgetting sweep and after a consolidation. *)
Theorem within_caps_preserved (cfg : config)
        (stringify : gmap string value → string) (queryLower : query → string)
        (toLowerCase : string → string)
        (id : string) (now : Z) (memory : gmap string value) (q : query)
        (st : state) :
  Spec.within_caps cfg st →
  (∀ st' m, storeMemory cfg id now memory st = Some (st', m) →
            Spec.within_caps cfg st')
  ∧ Spec.within_caps cfg
      (retrieveMemory stringify queryLower toLowerCase now q st).2
  ∧ Spec.within_caps cfg (forgetUnimportantMemories cfg now st)
  ∧ Spec.within_caps cfg (consolidateMemories cfg now st).
Proof.
  intros [He Hs]. conjs.
  - intros st' m. unfold storeMemory.
    destruct (if truthy (memory !! "importance") then _ else _); simpl; [| done].
    intros [= <- _]. unfold Spec.within_caps.
    repeat case_match; simpl;
      auto using storeEpisodicMemory_length, storeSemanticMemory_within_cap.
  - split; simpl.
    + by rewrite touch_length.
    + rewrite length_zip, length_fmap, touch_length, length_fmap. lia.
  - split; simpl; [| done].
    etrans; [apply length_filter |]. by rewrite length_fmap.
  - split; simpl; [done |]. set (strong := filter _ _).
    by apply storeSemanticMemory_fold_cap.
Qed.

Lemma within_caps_preserved_witness :
  Spec.within_caps default_config
    (consolidateMemories default_config 7 (Examples.stored 3)).
Proof.
  apply (within_caps_preserved default_config (λ _, ""%string) (λ _, ""%string)
           (λ s, s) "mem_4" 7 (Examples.episodic_input 0.5) (QString "x")
           (Examples.stored 3)).
  split; vm_compute; lia.
Defined.


(** *** Storing *)

Lemma set_fresh (m : list (string * gmap string value)) k v :
  get m k = None → set m k v = m ++ [(k, v)].
Proof.
  induction m as [| [k' v'] m IH]; simpl; [done |].
  case_decide; [done |]. intros Hg. by rewrite IH.
Qed.

Lemma storeSemanticMemory_growth cfg now memory semantic :
  (length (storeSemanticMemory cfg now memory semantic) ≤ S (length semantic))%nat.
Proof.
  unfold storeSemanticMemory.
  set (stored := match get semantic _ with Some _ => _ | None => _ end).
  assert (length stored ≤ S (length semantic))%nat as Hstored.
  { subst stored. destruct (get semantic _); apply length_set_le. }
  case_decide as Hover; [| done].
  etrans; [apply length_rebuilt |]. simpl. rewrite length_take. lia.
Qed.



(** A semantic record whose key is not yet in the partition, stored while
    the partition is below its cap, is appended as a new last entry under
    its key, as it was given. *)
Lemma storeSemanticMemory_fresh_key cfg now memory semantic :
  get semantic (semantic_key now memory) = None →
  (length semantic < maxSemantic cfg)%nat →
  storeSemanticMemory cfg now memory semantic
  = semantic ++ [(semantic_key now memory, memory)].
Proof.
  intros Hget Hlen. unfold storeSemanticMemory. rewrite Hget.
  rewrite set_fresh by done. rewrite decide_False; [done |].
  rewrite length_app. simpl. lia.
Qed.

(** X3.  The record returned by a successful [storeMemory] is the caller's
    object with five properties overwritten: [id] is the generated
    identifier (an [id] of the caller is discarded), [timestamp] is the time
    of the call, [retrievalCount] is 0 and [lastRetrieved] is [null]; every
    other property is the caller's.  The counter of stored memories grows
    by one.  When the type is none of [episodic], [semantic] and
    [procedural], the record can be read back from the general store under
    its identifier and the three typed partitions are unchanged. *)
Theorem storeMemory_record (cfg : config) (id : string) (now : Z)
        (memory : gmap string value) (st st' : state) (m : gmap string value) :
  storeMemory cfg id now memory st = Some (st', m) →
  m !! "id" = Some (VStr id)
  ∧ m !! "timestamp" = Some (VNum (inject_Z now))
  ∧ m !! "retrievalCount" = Some (VNum 0)
  ∧ m !! "lastRetrieved" = Some VNull
  ∧ (∀ k, k ∉ ["id"; "timestamp"; "importance"; "retrievalCount";
               "lastRetrieved"]%string → m !! k = memory !! k)
  ∧ totalMemories st' = S (totalMemories st)
  ∧ ((∀ t, memory !! "type" = Some (VStr t) →
           t ∉ ["episodic"; "semantic"; "procedural"]%string) →
     memoryStore st' !! id = Some m
     ∧ episodicMemory st' = episodicMemory st
     ∧ semanticMemory st' = semanticMemory st
     ∧ proceduralMemory st' = proceduralMemory st).
Proof.
  unfold storeMemory.
  destruct (if truthy (memory !! "importance") then _ else _) as [imp |];
    simpl; [| done].
  intros [= <- <-]. conjs.
  - by rewrite !lookup_insert_ne, lookup_insert_eq by done.
  - by rewrite !lookup_insert_ne, lookup_insert_eq by done.
  - by rewrite lookup_insert_ne, lookup_insert_eq.
  - by rewrite lookup_insert_eq.
  - intros k Hk. rewrite !not_elem_of_cons in Hk.
    destruct Hk as (? & ? & ? & ? & ? & _).
    by rewrite !lookup_insert_ne.
  - by repeat case_match.
  - intros Hother. unfold storeGeneralMemory.
    destruct (memory !! "type") as [[| | | t | |] |] eqn:Hty; simpl;
      try (by rewrite lookup_insert_eq).
    specialize (Hother t eq_refl). rewrite !not_elem_of_cons in Hother.
    destruct Hother as (? & ? & ? & _).
    destruct (String.eqb_spec t "episodic"); [done |].
    destruct (String.eqb_spec t "semantic"); [done |].
    destruct (String.eqb_spec t "procedural"); [done |].
    simpl. by rewrite lookup_insert_eq.
Qed.

Lemma storeMemory_record_witness :
  Examples.note_record !! "id" = Some (VStr "mem_1")
  ∧ memoryStore Examples.note_stored !! "mem_1" = Some Examples.note_record.
Proof.
  assert (storeMemory default_config "mem_1" 1 Examples.note initial_state
          = Some (Examples.note_stored, Examples.note_record)) as Hstore
    by reflexivity.
  destruct (storeMemory_record _ _ _ _ _ _ _ Hstore)
    as (Hid & _ & _ & _ & _ & _ & Hgeneral).
  split; [exact Hid |]. apply Hgeneral.
  intros t [= <-]. rewrite !not_elem_of_cons.
  by conjs; [| | | apply not_elem_of_nil].
Defined.



(** *** Retrieval *)


Section Retrieve.
Context (stringify : gmap string value → string) (queryLower : query → string)
        (toLowerCase : string → string).

End Retrieve.




(** *** Consolidation *)

Lemma record_pattern_counts total key memory patterns :
  sum_list (fcount <$> (record_pattern total key memory patterns).*2)
  = S (sum_list (fcount <$> patterns.*2)).
Proof.
  induction patterns as [| [k f] r IH]; simpl; [done |].
  case_decide; csimpl; [done |]. rewrite IH. lia.
Qed.

Lemma record_pattern_strength total key memory patterns :
  Forall (λ f, fstrength f = (num (fcount f) / num total)%Q) patterns.*2 →
  Forall (λ f, fstrength f = (num (fcount f) / num total)%Q)
         (record_pattern total key memory patterns).*2.
Proof.
  induction patterns as [| [k f] r IH]; csimpl.
  - intros _. by repeat constructor.
  - intros [Hf Hr]%Forall_cons. case_decide; csimpl.
    + by constructor.
    + constructor; [done | by apply IH].
Qed.

Lemma findPatterns_fold total memories patterns :
  Forall (λ f, fstrength f = (num (fcount f) / num total)%Q) patterns.*2 →
  let ps := foldl (λ ps m, record_pattern total (extractPatternKey m) m ps)
                  patterns memories in
  sum_list (fcount <$> ps.*2)
  = (length memories + sum_list (fcount <$> patterns.*2))%nat
  ∧ Forall (λ f, fstrength f = (num (fcount f) / num total)%Q) ps.*2.
Proof.
  revert patterns. induction memories as [| m r IH]; intros patterns Hs; simpl.
  - done.
  - destruct (IH (record_pattern total (extractPatternKey m) m patterns))
      as [Hsum Hstr]; [by apply record_pattern_strength |].
    split; [| done]. rewrite Hsum, record_pattern_counts. lia.
Qed.

(** Among natural numbers of sum [T], at most one exceeds [T / 2]. *)
Lemma majority_unique (T : nat) (ns : list nat) :
  ((T + 1) * length (filter (λ n, T < 2 * n) ns) ≤ 2 * sum_list ns)%nat.
Proof.
  induction ns as [| n ns IH]; [simpl; lia |].
  change (sum_list (n :: ns)) with (n + sum_list ns)%nat.
  rewrite filter_cons. case_decide; rewrite ?length_cons; nia.
Qed.

Lemma strength_majority (c T : nat) (thr : Q) :
  (0.5 <= thr)%Q → T ≠ 0%nat →
  gtb (num c / num T) thr = true → (T < 2 * c)%nat.
Proof.
  intros Hthr HT Hgt%gtb_true.
  pose proof (num_pos T HT) as Hpos.
  assert (num T * (num c / num T) == num c)%Q as Hdiv.
  { apply Qmult_div_r. intros Hz. rewrite Hz in Hpos. by apply Qlt_irrefl in Hpos. }
  assert (num T < 2 * num c)%Q as Hlt.
  { revert Hgt Hdiv Hpos. generalize (num c / num T)%Q (num c) (num T).
    intros x y t Hgt Hdiv Hpos. rewrite <- Hdiv. nra. }
  unfold num in Hlt. change 2%Q with (inject_Z 2) in Hlt.
  rewrite <- inject_Z_mult, <- Zlt_Qlt in Hlt. lia.
Qed.

(** X7.  [findPatterns] partitions a batch: the counts of the patterns it
    returns add up to the number of memories, and the strength of each is
    its share of the batch.  Hence, with a consolidation threshold of at
    least one half (0.7 by default), at most one pattern of a batch is above
    the threshold, and a consolidation adds at most one entry to the
    semantic partition. *)
Theorem consolidation_of_majority (cfg : config) (now : Z) (st : state)
        (memories : list (gmap string value)) :
  (0.5 <= consolidationThreshold cfg)%Q →
  sum_list (fcount <$> findPatterns memories) = length memories
  ∧ Forall (λ f, fstrength f = (num (fcount f) / num (length memories))%Q)
           (findPatterns memories)
  ∧ (length (filter (λ f, gtb (fstrength f) (consolidationThreshold cfg) = true)
                    (findPatterns memories)) ≤ 1)%nat
  ∧ (length (semanticMemory (consolidateMemories cfg now st))
     ≤ S (length (semanticMemory st)))%nat.
Proof.
  intros Hthr.
  assert (∀ l, (length (filter (λ f, gtb (fstrength f)
                                       (consolidationThreshold cfg) = true)
                               (findPatterns l)) ≤ 1)%nat) as Hone.
  { intros l. destruct (findPatterns_fold (length l) l []) as [Hsum Hstr];
      [constructor |]. simpl in Hsum.
    fold (findPatterns l) in Hsum, Hstr.
    destruct (decide (length l = 0%nat)) as [Hz | Hnz].
    { apply length_zero_iff_nil in Hz. subst l. simpl. lia. }
    pose proof (majority_unique (length l) (fcount <$> findPatterns l)) as Hmaj.
    assert (length (filter (λ f, gtb (fstrength f) (consolidationThreshold cfg)
                                 = true) (findPatterns l))
            ≤ length (filter (λ n, length l < 2 * n) (fcount <$> findPatterns l)))%nat
      as Hle.
    { clear Hsum Hmaj. induction Hstr as [| f fs Hf _ IH]; [done |].
      rewrite fmap_cons, !filter_cons.
      destruct (decide (gtb (fstrength f) _ = true)) as [Hbig |].
      - rewrite decide_True; [rewrite !length_cons; lia |].
        rewrite Hf in Hbig. by eapply strength_majority.
      - case_decide; rewrite ?length_cons; lia. }
    nia. }
  split_and!.
  - destruct (findPatterns_fold (length memories) memories []) as [Hsum _];
      [constructor |]. simpl in Hsum. unfold findPatterns. lia.
  - destruct (findPatterns_fold (length memories) memories []) as [_ Hstr];
      [constructor | done].
  - apply Hone.
  - simpl. set (recent := drop _ _). specialize (Hone recent).
    destruct (filter _ (findPatterns recent)) as [| f [| f' fs]]; simpl in *;
      [lia | apply storeSemanticMemory_growth | lia].
Qed.

Lemma consolidation_of_majority_witness :
  (length (semanticMemory (consolidateMemories default_config 9
                             (Examples.stored 3)))
   ≤ S (length (semanticMemory (Examples.stored 3))))%nat.
Proof.
  apply (consolidation_of_majority default_config 9 (Examples.stored 3) []).
  vm_compute. discriminate.
Defined.

End MPULaws.

(** ** Pattern resonance engine: resonance, reinforcement and decay *)

Module HASRLaws.
Import Js JsFacts JaccardFacts HASR HASRFacts.

(** *** Resonance *)

Lemma resonance_bounds i p :
  (0 <= confidence p)%Q →
  (0 <= resonance i p <= num_or (Some (confidence p)) 1)%Q.
Proof.
  intros Hc. unfold resonance, calculateResonance.
  assert (0 <= num_or (Some (confidence p)) 1)%Q as Hfactor.
  { unfold num_or. destruct (Qeq_bool _ _); lra. }
  case_decide as Hunion; [lra |].
  pose proof (ratio_range _ _ (intersection_le_union (features i) (template p)))
    as Hratio.
  revert Hratio Hfactor.
  generalize (num_or (Some (confidence p)) 1).
  generalize (num (length (new_Set (filter (λ x, Set_has (new_Set (template p)) x = true)
                                      (new_Set (features i)))))
              / num (length (new_Set (new_Set (features i) ++ new_Set (template p)))))%Q.
  intros s c [Hs0 Hs1] Hc0. split; nra.
Qed.



(** *** The best pattern *)

Lemma findResonance_fold i (l : list (string * pattern)) (acc : Q * option string) :
  let step := λ (acc : Q * option string) (e : string * pattern),
                if gtb (resonance i e.2) acc.1 then (resonance i e.2, Some e.1)
                else acc in
  let res := foldl step acc l in
  (acc.1 <= res.1)%Q
  ∧ Forall (λ e, resonance i e.2 <= res.1)%Q l
  ∧ (res = acc
     ∨ ∃ before n p after,
         l = before ++ (n, p) :: after
         ∧ res = (resonance i p, Some n)
         ∧ (acc.1 < resonance i p)%Q
         ∧ Forall (λ e, resonance i e.2 < resonance i p)%Q before).
Proof.
  intros step. revert acc. induction l as [| e l IH]; intros acc; simpl.
  - split_and!; [lra | constructor | by left].
  - destruct (IH (step acc e)) as (Hacc & Hall & Hres).
    assert (acc.1 <= (step acc e).1 ∧ resonance i e.2 <= (step acc e).1)%Q
      as [Hstep He].
    { subst step. simpl. destruct (gtb _ _) eqn:Hgt; simpl.
      - apply gtb_true in Hgt. lra.
      - apply gtb_false in Hgt. lra. }
    split_and!.
    + by eapply Qle_trans.
    + constructor; [by eapply Qle_trans | done].
    + destruct Hres as [Hres | (before & n & p & after & -> & Hres & Hlt & Hbefore)].
      * rewrite Hres. subst step. simpl. destruct (gtb _ _) eqn:Hgt; [| by left].
        right. exists [], e.1, e.2, l. destruct e as [n p]. simpl.
        split_and!; [done | done | by apply gtb_true | constructor].
      * right. exists (e :: before), n, p, after.
        split_and!; [done | done | lra | constructor; [lra | done]].
Qed.

(** X9.  [findResonance] returns the largest resonance over the stored
    patterns and the first pattern that reaches it: every stored pattern
    resonates at most as much as the result, every pattern stored before the
    returned one strictly less.  A pattern is returned only with a positive
    resonance; if no pattern resonates above 0 the result is resonance 0 and
    no pattern. *)
Theorem findResonance_spec (st : state) (i : instance) :
  let res := findResonance st i in
  Forall (λ e, resonance i e.2 <= res.1)%Q (patterns st)
  ∧ match res.2 with
    | Some n =>
        ∃ before p after,
          patterns st = before ++ (n, p) :: after
          ∧ res.1 = resonance i p
          ∧ (0 < res.1)%Q
          ∧ Forall (λ e, resonance i e.2 < res.1)%Q before
    | None => res.1 = 0%Q
    end.
Proof.
  intros res.
  destruct (findResonance_fold i (patterns st) (0%Q, None))
    as (_ & Hall & Hres).
  fold (findResonance st i) in Hall, Hres. fold res in Hall, Hres.
  split; [done |].
  destruct Hres as [-> | (before & n & p & after & Hl & -> & Hlt & Hbefore)];
    simpl; [done |].
  exists before, p, after. done.
Qed.

(** *** Patterns are reinforced at most once *)

Lemma update_keys ps name f : (update ps name f).*1 = ps.*1.
Proof.
  induction ps as [| [n p] ps IH]; csimpl; [done |].
  case_decide; csimpl; [done | by rewrite IH].
Qed.

Lemma reinforced_keys cs ps : (foldl reinforce_one ps cs).*1 = ps.*1.
Proof.
  revert ps. induction cs as [| c cs IH]; intros ps; simpl; [done |].
  rewrite IH. apply update_keys.
Qed.

Lemma set_keys_NoDup ps name p : NoDup ps.*1 → NoDup (set ps name p).*1.
Proof.
  induction ps as [| [n q] ps IH]; csimpl.
  - intros _. apply NoDup_singleton.
  - intros [Hn Hps]%NoDup_cons. case_decide; csimpl.
    + by apply NoDup_cons.
    + apply NoDup_cons. split; [| by apply IH].
      clear IH Hps. induction ps as [| [n' q'] ps IH]; csimpl.
      * by intros ->%list_elem_of_singleton.
      * apply not_elem_of_cons in Hn as [Hne Hn].
        case_decide; csimpl; apply not_elem_of_cons; split; auto.
Qed.

Lemma Forall_update (P : pattern → Prop) ps name f :
  Forall (λ e, P e.2) ps →
  (∀ p, get ps name = Some p → P p → P (f p)) →
  Forall (λ e, P e.2) (update ps name f).
Proof.
  induction ps as [| [n p] ps IH]; simpl; [done |].
  intros [Hp Hps]%Forall_cons Hf. case_decide; simpl in *.
  - constructor; [by apply Hf | done].
  - constructor; [done | by apply IH].
Qed.

Lemma Forall_set (P : pattern → Prop) ps name p :
  Forall (λ e, P e.2) ps → P p → Forall (λ e, P e.2) (set ps name p).
Proof.
  induction ps as [| [n q] ps IH]; simpl.
  - intros _ Hp. by repeat constructor.
  - intros [Hq Hps]%Forall_cons Hp. case_decide; constructor; auto.
Qed.

Lemma Forall_reinforced (P : pattern → Prop) cs ps :
  (∀ p s, P p →
          P {| template := template p; strength := s; instances := instances p;
               confidence := confidence p; level := level p |}) →
  Forall (λ e, P e.2) ps → Forall (λ e, P e.2) (foldl reinforce_one ps cs).
Proof.
  intros HP. revert ps. induction cs as [| c cs IH]; intros ps Hps; simpl; [done |].
  apply IH. apply Forall_update; [done |]. intros p _. apply HP.
Qed.

Lemma get_middle before n (p : pattern) after :
  NoDup (before ++ (n, p) :: after).*1 →
  get (before ++ (n, p) :: after) n = Some p.
Proof.
  induction before as [| [n' p'] before IH]; csimpl.
  - intros _. by rewrite decide_True.
  - intros [Hn Hnd]%NoDup_cons. rewrite decide_False; [by apply IH |].
    intros ->. apply Hn. rewrite fmap_app, elem_of_app. right. csimpl.
    apply elem_of_cons. by left.
Qed.

Lemma get_reinforced_template cs ps name p :
  get ps name = Some p →
  ∃ p', get (foldl reinforce_one ps cs) name = Some p'
        ∧ template p' = template p ∧ instances p' = instances p
        ∧ confidence p' = confidence p.
Proof.
  revert ps p. induction cs as [| c cs IH]; intros ps p Hget; simpl.
  - by exists p.
  - destruct (decide (target c = name)) as [<- | Hne].
    + edestruct (IH (reinforce_one ps c)) as (p' & Hget' & Ht & Hi & Hc).
      { unfold reinforce_one. by apply get_update_eq. }
      by exists p'.
    + apply IH. unfold reinforce_one. by rewrite get_update_ne.
Qed.

Lemma patterns_strengthenPattern cfg name i st :
  ∃ cs, patterns (strengthenPattern cfg name i st)
        = foldl reinforce_one (update (patterns st) name (strengthen cfg i)) cs.
Proof.
  unfold strengthenPattern, reinforceConnections. simpl.
  destruct (resonanceNetwork st !! name) as [cs |]; simpl.
  - by exists cs.
  - by exists [].
Qed.

Lemma patterns_processPattern cfg newName i st :
  let res := findResonance st i in
  patterns (processPattern cfg newName i st).1
  = if gtb res.1 (resonanceThreshold cfg) then
      match res.2 with
      | Some name => patterns (strengthenPattern cfg name i st)
      | None => patterns st
      end
    else set (patterns st) newName
             {| template := features i; strength := (0.5 + noveltyBonus cfg)%Q;
                instances := [i]; confidence := 0.5; level := 0 |}.
Proof.
  simpl. unfold processPattern. cbn [fst].
  destruct (gtb _ _); [| done]. by destruct (findResonance st i).2.
Qed.

Lemma matched_has_no_instance cfg i st name :
  (0.5 <= resonanceThreshold cfg)%Q →
  Spec.at_most_one_instance st →
  gtb (findResonance st i).1 (resonanceThreshold cfg) = true →
  (findResonance st i).2 = Some name →
  ∃ p, get (patterns st) name = Some p ∧ instances p = [].
Proof.
  intros Hthr [Hnd Hall] Hgt%gtb_true Hname.
  destruct (findResonance_fold i (patterns st) (0%Q, None)) as (_ & _ & Hres).
  fold (findResonance st i) in Hres.
  destruct Hres as [Hres | (before & n & p & after & Hl & Hres & _ & _)];
    [rewrite Hres in Hname; discriminate |].
  rewrite Hres in Hname, Hgt. simpl in Hname, Hgt. injection Hname as ->.
  exists p. split; [rewrite Hl; apply get_middle; by rewrite <- Hl |].
  rewrite Forall_forall in Hall.
  destruct (Hall (name, p)) as [Hnone | [_ Hconf]]; [| done |].
  { rewrite Hl, elem_of_app, elem_of_cons. auto. }
  exfalso. simpl in Hconf.
  destruct (resonance_bounds i p) as [_ Hle]; [rewrite Hconf; lra |].
  rewrite Hconf in Hle.
  change (num_or (Some 0.5%Q) 1) with 0.5%Q in Hle. lra.
Qed.

(** X10.  With a resonance threshold of at least 0.5 (0.6 by default),
    [processPattern] reinforces a stored pattern at most once.  The
    invariant: the keys of the pattern map are distinct and every pattern
    has no instance, or exactly one instance and confidence 0.5.  It holds
    of the built-in patterns, and [processPattern] keeps it: a pattern is
    strengthened only while it has no instance, which leaves it with one
    instance and confidence 0.5, as a newly learnt pattern; from then on its
    resonance is at most 0.5 and never above the threshold. *)
Theorem processPattern_single_reinforcement (cfg : config) (newName : string)
        (i : instance) (st : state) :
  (0.5 <= resonanceThreshold cfg)%Q →
  Spec.at_most_one_instance st →
  Spec.at_most_one_instance (processPattern cfg newName i st).1.
Proof.
  intros Hthr Hinv. pose proof Hinv as [Hnd Hall].
  unfold Spec.at_most_one_instance.
  rewrite patterns_processPattern.
  destruct (gtb _ _) eqn:Hgt.
  - destruct (findResonance st i).2 as [name |] eqn:Hname; [| done].
    destruct (matched_has_no_instance cfg i st name Hthr Hinv Hgt Hname)
      as (p & Hget & Hnone).
    destruct (patterns_strengthenPattern cfg name i st) as [cs ->].
    split.
    + by rewrite reinforced_keys, update_keys.
    + apply (Forall_reinforced
               (λ p, instances p = []
                     ∨ (length (instances p) = 1%nat ∧ confidence p = 0.5%Q)));
        [done |].
      apply (Forall_update
               (λ p, instances p = []
                     ∨ (length (instances p) = 1%nat ∧ confidence p = 0.5%Q)));
        [done |].
      intros p' Hget' _. assert (p' = p) as -> by congruence.
      right. destruct (strengthen_first cfg i p Hnone) as [_ Hconf].
      split; [| done]. simpl. by rewrite Hnone.
  - split.
    + by apply set_keys_NoDup.
    + apply (Forall_set
               (λ p, instances p = []
                     ∨ (length (instances p) = 1%nat ∧ confidence p = 0.5%Q)));
        [done |]. by right.
Qed.

Lemma processPattern_single_reinforcement_witness :
  Spec.at_most_one_instance
    (processPattern default_config "pattern_1"
       Examples.joy_engagement_reward_x initial_state).1.
Proof.
  apply processPattern_single_reinforcement.
  - vm_compute. discriminate.
  - split.
    + apply (bool_decide_unpack _). reflexivity.
    + repeat constructor.
Defined.

(** X11.  Under the same threshold and invariant, [processPattern] never
    removes a stored pattern and never changes a template: every pattern
    stored under a key other than the new one is still stored under its key
    afterwards, with the template it had and with at most one instance.  The
    recomputation of the template from the instances is out of reach of
    [processPattern]. *)
Theorem processPattern_keeps_templates (cfg : config) (newName : string)
        (i : instance) (st : state) (name : string) (p : pattern) :
  (0.5 <= resonanceThreshold cfg)%Q →
  Spec.at_most_one_instance st →
  name ≠ newName →
  get (patterns st) name = Some p →
  ∃ p', get (patterns (processPattern cfg newName i st).1) name = Some p'
        ∧ template p' = template p
        ∧ (length (instances p') ≤ 1)%nat.
Proof.
  intros Hthr Hinv Hne Hget.
  assert (length (instances p) ≤ 1)%nat as Hlen.
  { destruct Hinv as [_ Hall]. rewrite Forall_forall in Hall.
    assert ((name, p) ∈ patterns st) as Hin.
    { clear -Hget. induction (patterns st) as [| [n q] ps IH]; simpl in *;
        [done |]. case_decide.
      - injection Hget as ->. subst. apply elem_of_cons. by left.
      - apply elem_of_cons. right. by apply IH. }
    destruct (Hall _ Hin) as [Hnone | [Hone _]]; simpl in *.
    - rewrite Hnone. simpl. lia.
    - lia. }
  rewrite patterns_processPattern.
  destruct (gtb _ _) eqn:Hgt.
  - destruct (findResonance st i).2 as [best |] eqn:Hbest;
      [| by exists p].
    destruct (matched_has_no_instance cfg i st best Hthr Hinv Hgt Hbest)
      as (q & Hgetq & Hnone).
    destruct (patterns_strengthenPattern cfg best i st) as [cs ->].
    destruct (decide (best = name)) as [-> | Hother].
    + assert (q = p) as -> by congruence.
      destruct (get_reinforced_template cs
                  (update (patterns st) name (strengthen cfg i)) name
                  (strengthen cfg i p)) as (p' & Hget' & Ht & Hi & _);
        [by apply get_update_eq |].
      exists p'. split_and!; [done | |].
      * rewrite Ht. by destruct (strengthen_first cfg i p Hnone).
      * rewrite Hi. simpl. rewrite Hnone. simpl. lia.
    + destruct (get_reinforced_template cs
                  (update (patterns st) best (strengthen cfg i)) name p)
        as (p' & Hget' & Ht & Hi & _);
        [by rewrite get_update_ne |].
      exists p'. split_and!; [done | done |]. by rewrite Hi.
  - exists p. split_and!; [| done | done].
    rewrite get_set_other; done.
Qed.

Lemma processPattern_keeps_templates_witness :
  ∃ p', get (patterns (processPattern default_config "pattern_1"
                         Examples.joy_engagement_reward_x initial_state).1)
            "interaction_positive" = Some p'
        ∧ template p' = template (base_pattern ["joy"; "engagement"; "reward"]%string)
        ∧ (length (instances p') ≤ 1)%nat.
Proof.
  apply processPattern_keeps_templates.
  - vm_compute. discriminate.
  - split.
    + apply (bool_decide_unpack _). reflexivity.
    + repeat constructor.
  - discriminate.
  - reflexivity.
Defined.

(** *** The decay sweep *)

Lemma sweep_network_absent (l : list (string * pattern))
      (net : gmap string (list connection)) n :
  net !! n = None →
  foldl (λ net e, if weak e then delete e.1 net else net) net l !! n = None.
Proof.
  revert net. induction l as [| e l IH]; intros net Hn; simpl; [done |].
  apply IH. destruct (weak e); [| done].
  destruct (decide (e.1 = n)) as [-> | Hne].
  - apply lookup_delete_eq.
  - by rewrite lookup_delete_ne.
Qed.

Lemma sweep_network_deleted (l : list (string * pattern))
      (net : gmap string (list connection)) e :
  e ∈ l → weak e = true →
  foldl (λ net e, if weak e then delete e.1 net else net) net l !! e.1 = None.
Proof.
  revert net. induction l as [| e' l IH]; intros net Hin Hweak; simpl.
  - by apply elem_of_nil in Hin.
  - apply elem_of_cons in Hin as [<- | Hin].
    + rewrite Hweak. apply sweep_network_absent, lookup_delete_eq.
    + by apply IH.
Qed.

Lemma sweep_network_kept (l : list (string * pattern))
      (net : gmap string (list connection)) n :
  (∀ e, e ∈ l → e.1 = n → weak e = false) →
  foldl (λ net e, if weak e then delete e.1 net else net) net l !! n = net !! n.
Proof.
  revert net. induction l as [| e l IH]; intros net Hl; simpl; [done |].
  rewrite IH.
  - destruct (weak e) eqn:Hweak; [| done].
    rewrite lookup_delete_ne; [done |]. intros Heq.
    assert (weak e = false) by (apply Hl; [apply elem_of_cons; by left | done]).
    congruence.
  - intros e' Hin. apply Hl, elem_of_cons. by right.
Qed.

(** X12.  One decay sweep of the pattern engine multiplies the strength of
    every pattern by the decay factor and changes nothing else in it.  It
    keeps the patterns in order and deletes exactly those whose decayed
    strength is below 0.01; a deleted pattern loses its own entry of the
    resonance network.  The entry of every pattern that is kept is left as
    it was, so connections that name a deleted pattern as their target stay
    behind. *)
Theorem decay_sweep_spec (cfg : config) (st : state) :
  let st' := decay_sweep cfg st in
  patterns st' `sublist_of`
    ((λ e : string * pattern, (e.1, decayed cfg e.2)) <$> patterns st)
  ∧ (∀ p, strength (decayed cfg p) = (strength p * patternDecay cfg)%Q
          ∧ template (decayed cfg p) = template p
          ∧ instances (decayed cfg p) = instances p
          ∧ confidence (decayed cfg p) = confidence p)
  ∧ (∀ n p, (n, p) ∈ patterns st →
            ((n, decayed cfg p) ∈ patterns st'
             ↔ (0.01 <= strength p * patternDecay cfg)%Q)
            ∧ ((strength p * patternDecay cfg < 0.01)%Q →
               resonanceNetwork st' !! n = None))
  ∧ (∀ n, (∀ p, (n, p) ∈ patterns st →
                (0.01 <= strength p * patternDecay cfg)%Q) →
          resonanceNetwork st' !! n = resonanceNetwork st !! n).
Proof.
  intros st'. subst st'. unfold decay_sweep. cbn [patterns resonanceNetwork].
  split; [apply sublist_filter |]. split; [done |]. split.
  - intros n p Hin.
    assert ((n, decayed cfg p)
            ∈ (λ e : string * pattern, (e.1, decayed cfg e.2)) <$> patterns st)
      as Hswept.
    { apply list_elem_of_fmap. by exists (n, p). }
    split.
    + rewrite list_elem_of_filter. unfold weak. simpl.
      rewrite ltb_false. tauto.
    + intros Hweak.
      apply (sweep_network_deleted _ _ (n, decayed cfg p)); [done |].
      unfold weak. simpl. by apply ltb_true.
  - intros n Hkept. apply sweep_network_kept.
    intros e (e0 & -> & Hin)%list_elem_of_fmap Hn. simpl in Hn. subst n.
    unfold weak. simpl. apply ltb_false. apply Hkept. by destruct e0.
Qed.

(** X13.  No pattern is ever connected to itself: if no entry of the
    resonance network lists its own key as a target, the same holds after
    [processPattern] with any input, and after a decay sweep.  The network
    is empty at start-up. *)
Theorem no_self_connection_preserved (cfg : config) (newName : string)
        (i : instance) (st : state) :
  Spec.no_self_connection st →
  Spec.no_self_connection (processPattern cfg newName i st).1
  ∧ Spec.no_self_connection (decay_sweep cfg st).
Proof.
  intros Hst. split.
  - by apply no_self_connection_processPattern.
  - by apply no_self_connection_decay_sweep.
Qed.

Lemma no_self_connection_preserved_witness :
  Spec.no_self_connection
    (processPattern default_config "pattern_1" Examples.joy_reward_x_y
       initial_state).1.
Proof.
  apply (no_self_connection_preserved default_config "pattern_1"
           Examples.joy_reward_x_y initial_state).
  apply no_self_connection_initial.
Defined.

End HASRLaws.

(** ** Symbol encoder: counters, bindings and concepts *)

Module SSPLaws.
Import Js JsFacts SSP SSPFacts.

(** *** The counters *)

Lemma strengthenBinding_counters key st :
  Spec.counters_exact st → Spec.counters_exact (strengthenBinding key st).
Proof.
  intros [Hb Hs]. unfold strengthenBinding, Spec.counters_exact.
  destruct (bindingStrength st !! key) as [s |] eqn:Hkey; simpl.
  - split; [| done]. rewrite Hkey. simpl.
    by rewrite map_size_insert_Some.
  - split; [| done]. rewrite insert_insert_eq.
    rewrite map_size_insert_None by done. lia.
Qed.

Lemma createBindings_counters symbols st :
  Spec.counters_exact st → Spec.counters_exact (createBindings symbols st).
Proof.
  rewrite createBindings_pairs. generalize (Spec.ordered_pairs symbols).
  intros pairs. revert st. induction pairs as [| p pairs IH]; intros st Hst;
    simpl; [done |].
  by apply IH, strengthenBinding_counters.
Qed.

Lemma symbolFor_counters acc c :
  Spec.counters_exact acc.1 → Spec.counters_exact (symbolFor acc c).1.
Proof.
  intros [Hb Hs]. unfold symbolFor, Spec.counters_exact. simpl.
  case_decide as Hin; simpl; [done |]. split; [done |].
  rewrite size_union by set_solver. rewrite size_singleton. lia.
Qed.

Lemma symbols_counters l acc :
  Spec.counters_exact acc.1 →
  Spec.counters_exact (foldl symbolFor acc l).1.
Proof.
  revert acc. induction l as [| c l IH]; intros acc Hacc; simpl; [done |].
  by apply IH, symbolFor_counters.
Qed.

Lemma processStructured_symbols data st :
  processStructured data st
  = let r := foldl symbolFor (st, []) ((λ e, e.1 +:+ "_" +:+ e.2) <$> data) in
    (createBindings r.2 r.1, r.2).
Proof.
  unfold processStructured. rewrite foldl_fmap. reflexivity.
Qed.

Lemma crossModal_counters key st :
  Spec.counters_exact st → Spec.counters_exact (crossModal key st).
Proof.
  intros [Hb Hs]. unfold crossModal, Spec.counters_exact.
  destruct (bindingStrength st !! key) eqn:Hkey; simpl; [done |].
  split; [| done]. rewrite map_size_insert_None by done. lia.
Qed.

Lemma size_omap_le {A B} (f : A → option B) (m : gmap string A) :
  (size (omap f m) ≤ size m)%nat.
Proof.
  rewrite <- !size_dom. apply subseteq_size, dom_omap_subseteq.
Qed.

(** X14.  The two counters of the symbol encoder stay equal to the sizes of
    the maps they count: if [bindingCounter] is the number of bindings and
    [symbolCounter] the number of symbols, the same holds after
    [processText], after [processStructured], after a decay tick, which
    subtracts one per deleted binding, and after
    [createCrossModalBindings]. *)
Theorem counters_exact_preserved (toLowerCase : string → string) (now : Z)
        (text : string) (data : list (string * string)) (decayRate : Q)
        (visual auditory : list string) (st : state) :
  Spec.counters_exact st →
  Spec.counters_exact (processText toLowerCase now text st).1
  ∧ Spec.counters_exact (processStructured data st).1
  ∧ Spec.counters_exact (decayBindings decayRate st)
  ∧ Spec.counters_exact (createCrossModalBindings visual auditory st).
Proof.
  intros Hst. conjs.
  - unfold processText. cbn [fst].
    by apply createBindings_counters, symbols_counters.
  - rewrite processStructured_symbols. cbn [fst].
    by apply createBindings_counters, symbols_counters.
  - destruct Hst as [Hb Hs]. split; [| done]. simpl.
    pose proof (size_omap_le
                  (λ s : Q, if ltb (s * decayRate) 0.01 then None
                            else Some (s * decayRate)%Q)
                  (bindingStrength st)). lia.
  - unfold createCrossModalBindings. revert st Hst.
    induction visual as [| v visual IH]; intros st Hst; simpl; [done |].
    apply IH. clear IH. revert st Hst.
    induction auditory as [| a auditory IH]; intros st Hst; simpl; [done |].
    by apply IH, crossModal_counters.
Qed.

Lemma counters_exact_preserved_witness :
  Spec.counters_exact (processStructured Examples.feed_cat Examples.no_bindings).1.
Proof.
  apply (counters_exact_preserved (λ s, s) 0 "" Examples.feed_cat 0.99 [] []
           Examples.no_bindings).
  split; reflexivity.
Defined.

(** *** Strength of a binding *)

Lemma bump_ge s : (s <= 1)%Q → (s <= bump s)%Q.
Proof.
  intros Hs. unfold bump, Math_min. apply Q.min_glb; lra.
Qed.

Lemma strengthenBinding_grows key st k s :
  map_Forall (λ _ s, 0 <= s <= 1)%Q (bindingStrength st) →
  bindingStrength st !! k = Some s →
  ∃ s', bindingStrength (strengthenBinding key st) !! k = Some s'
        ∧ (s <= s')%Q.
Proof.
  intros Hrange Hk. rewrite strengthenBinding_lookup.
  case_decide as Heq.
  - subst k. rewrite Hk. simpl. eexists. split; [done |].
    apply bump_ge. by destruct (Hrange _ _ Hk).
  - exists s. split; [done | lra].
Qed.

(** X15.  Encoding never weakens a binding and keeps every strength in
    [0, 1]: when all binding strengths are in [0, 1], they still are after
    [createBindings], and every binding present before is present
    afterwards with a strength at least as large.  Bindings are removed by
    the decay tick only. *)
Theorem createBindings_monotone (symbols : list symbol) (st : state)
        (k : string) (s : Q) :
  map_Forall (λ _ s, 0 <= s <= 1)%Q (bindingStrength st) →
  bindingStrength st !! k = Some s →
  map_Forall (λ _ s, 0 <= s <= 1)%Q (bindingStrength (createBindings symbols st))
  ∧ ∃ s', bindingStrength (createBindings symbols st) !! k = Some s'
          ∧ (s <= s' <= 1)%Q.
Proof.
  intros Hrange Hk. split; [by apply createBindings_range |].
  assert (∃ s', bindingStrength (createBindings symbols st) !! k = Some s'
                ∧ (s <= s')%Q) as (s' & Hs' & Hle).
  { rewrite createBindings_pairs. generalize (Spec.ordered_pairs symbols).
    intros pairs. revert st s Hrange Hk.
    induction pairs as [| p pairs IH]; intros st s Hrange Hk; simpl.
    - exists s. split; [done | lra].
    - destruct (strengthenBinding_grows (bindingKey p.1 p.2) st k s Hrange Hk)
        as (s1 & Hs1 & Hle1).
      destruct (IH (strengthenBinding (bindingKey p.1 p.2) st) s1)
        as (s' & Hs' & Hle'); [by apply strengthenBinding_range | done |].
      exists s'. split; [done | lra]. }
  exists s'. split; [done |]. split; [done |].
  by destruct (createBindings_range symbols st Hrange _ _ Hs').
Qed.

Lemma createBindings_monotone_witness :
  ∃ s', bindingStrength
          (processStructured Examples.feed_cat
             (processStructured Examples.feed_cat Examples.no_bindings).1).1
        !! "action_feed_target_cat"%string = Some s'
        ∧ (bump 0 <= s' <= 1)%Q.
Proof.
  apply (createBindings_monotone
           (processStructured Examples.feed_cat Examples.no_bindings).2
           (processStructured Examples.feed_cat Examples.no_bindings).1
           "action_feed_target_cat" (bump 0)).
  - assert (bindingStrength
              (processStructured Examples.feed_cat Examples.no_bindings).1
            = <["action_feed_target_cat"%string := bump 0]> ∅) as ->
      by reflexivity.
    apply map_Forall_insert_2; [| apply map_Forall_empty].
    vm_compute. split; discriminate.
  - reflexivity.
Defined.

(** *** Concepts of a text *)

(** X16.  [extractConcepts] never returns an empty list: a text in which no
    known concept, mark or action is found gets the single concept
    [unique_<now>].  It returns at most 13 concepts, without repetition.
    Hence [processText] returns one symbol per concept, at least one, and
    the concept of every returned symbol is in the symbol space
    afterwards. *)
Theorem processText_symbols (toLowerCase : string → string) (now : Z)
        (text : string) (st : state) :
  let concepts := extractConcepts toLowerCase now text in
  let r := processText toLowerCase now text st in
  (1 ≤ length concepts ≤ 13)%nat
  ∧ NoDup concepts
  ∧ concept <$> r.2 = concepts
  ∧ (∀ s, s ∈ r.2 → concept s ∈ symbolSpace r.1 ∧ sstrength s = 1.0%Q)
  ∧ symbolSpace st ⊆ symbolSpace r.1.
Proof.
  intros concepts r.
  assert (∀ l acc,
            concept <$> (foldl symbolFor acc l).2 = (concept <$> acc.2) ++ l
            ∧ symbolSpace acc.1 ⊆ symbolSpace (foldl symbolFor acc l).1
            ∧ (Forall (λ s, concept s ∈ symbolSpace acc.1
                            ∧ sstrength s = 1.0%Q) acc.2 →
               Forall (λ s, concept s ∈ symbolSpace (foldl symbolFor acc l).1
                            ∧ sstrength s = 1.0%Q)
                      (foldl symbolFor acc l).2)) as Hfold.
  { intros l. induction l as [| c l IH]; intros acc; simpl.
    - by rewrite app_nil_r.
    - destruct (IH (symbolFor acc c)) as (Hc & Hsub & Hall).
      assert (symbolSpace acc.1 ⊆ symbolSpace (symbolFor acc c).1) as Hstep.
      { unfold symbolFor. simpl. case_decide; simpl;
          [done | apply union_subseteq_r]. }
      split_and!.
      + rewrite Hc. unfold symbolFor at 1. cbn [snd].
        rewrite fmap_app, <- app_assoc. done.
      + by etrans.
      + intros Hacc. apply Hall.
        change (symbolFor acc c).2
          with (acc.2 ++ [{| concept := c; sstrength := 1.0 |}]).
        apply Forall_app. split.
        * eapply Forall_impl; [exact Hacc |]. intros s [Hs ?].
          split; [| done]. by apply Hstep.
        * repeat constructor. unfold symbolFor. simpl.
          case_decide; simpl; [done |].
          by apply elem_of_union_l, elem_of_singleton. }
  assert (∀ symbols s, symbolSpace (createBindings symbols s) = symbolSpace s)
    as Hspace.
  { intros symbols s. rewrite createBindings_pairs.
    generalize (Spec.ordered_pairs symbols). intros pairs. revert s.
    induction pairs as [| p pairs IH]; intros s; simpl; [done |].
    rewrite IH. unfold strengthenBinding.
    by destruct (bindingStrength s !! _). }
  subst r. unfold processText. cbn [fst snd]. rewrite Hspace.
  destruct (Hfold concepts (st, [])) as (Hc & Hsub & Hall).
  fold concepts.
  split; [| split; [| split; [| split]]].
  - subst concepts. unfold extractConcepts.
    set (lowerText := toLowerCase text).
    case_decide as Hlen; [simpl; lia |].
    split; [lia |]. rewrite !length_app, length_fmap.
    pose proof (length_filter (λ c, includes lowerText c = true) knownConcepts).
    pose proof (length_filter (λ a, includes lowerText a = true) actions).
    assert (length (if includes lowerText "!" || includes lowerText "?"
                    then ["excitement"%string] else []) ≤ 1)%nat
      by (destruct (_ || _); simpl; lia).
    simpl in *. lia.
  - subst concepts. unfold extractConcepts.
    set (lowerText := toLowerCase text).
    case_decide as Hlen; [apply NoDup_singleton |].
    apply NoDup_app. split_and!.
    + apply NoDup_filter. by apply (bool_decide_unpack _).
    + intros c [_ Hc1]%list_elem_of_filter [Hex | Hact]%elem_of_app.
      * destruct (_ || _); [| by apply elem_of_nil in Hex].
        apply list_elem_of_singleton in Hex. subst c.
        assert ("excitement"%string ∉ knownConcepts) as Hn
          by (apply (bool_decide_unpack _); reflexivity).
        done.
      * apply list_elem_of_fmap in Hact as (a & -> & Ha).
        apply list_elem_of_filter in Ha as [_ Ha].
        revert Hc1. unfold knownConcepts. rewrite !elem_of_cons, elem_of_nil.
        unfold actions in Ha. rewrite !elem_of_cons, elem_of_nil in Ha.
        destruct Ha as [-> | [-> | [-> | [-> | []]]]];
          intros H; repeat (destruct H as [H | H]; [discriminate H |]); done.
    + apply NoDup_app. split_and!.
      * destruct (_ || _); [apply NoDup_singleton | apply NoDup_nil_2].
      * intros c Hex Hact.
        destruct (_ || _); [| by apply elem_of_nil in Hex].
        apply list_elem_of_singleton in Hex. subst c.
        apply list_elem_of_fmap in Hact as (a & Heq & Ha). discriminate Heq.
      * apply NoDup_fmap_2; [intros a b [=]; done |].
        apply NoDup_filter. by apply (bool_decide_unpack _).
  - by rewrite Hc.
  - intros s Hs. specialize (Hall (Forall_nil_2 _)).
    rewrite Forall_forall in Hall. by apply Hall.
  - done.
Qed.

(** *** Cross-modal bindings *)

Lemma crossModal_lookup key st k :
  bindingStrength (crossModal key st) !! k
  = match bindingStrength st !! k with
    | Some s => Some s
    | None => if decide (k = key) then Some 0.5%Q else None
    end.
Proof.
  unfold crossModal. destruct (bindingStrength st !! key) as [s |] eqn:Hkey.
  - destruct (bindingStrength st !! k) eqn:Hk; [done |].
    case_decide; [congruence | done].
  - simpl. destruct (decide (k = key)) as [-> | Hne].
    + by rewrite lookup_insert_eq, Hkey.
    + rewrite lookup_insert_ne by done. by destruct (bindingStrength st !! k).
Qed.

(** X17.  [createCrossModalBindings] only adds bindings: a binding that
    exists keeps its strength, also when it is one of the cross-modal keys,
    and each cross-modal key of a visual and an auditory concept that had no
    binding gets one of strength 0.5; no other key is touched. *)
Theorem createCrossModalBindings_lookup (visual auditory : list string)
        (st : state) (k : string) :
  bindingStrength (createCrossModalBindings visual auditory st) !! k
  = match bindingStrength st !! k with
    | Some s => Some s
    | None =>
        if decide (k ∈ (λ p : string * string,
                          "crossmodal_" +:+ p.1 +:+ "_" +:+ p.2)
                         <$> list_prod visual auditory)
        then Some 0.5%Q else None
    end.
Proof.
  unfold createCrossModalBindings.
  assert (∀ keys st,
            bindingStrength (foldl (λ s key, crossModal key s) st keys) !! k
            = match bindingStrength st !! k with
              | Some s => Some s
              | None => if decide (k ∈ keys) then Some 0.5%Q else None
              end) as Hkeys.
  { intros keys. induction keys as [| key keys IH]; intros s; cbn [foldl].
    - destruct (bindingStrength s !! k); [done |].
      rewrite decide_False; [done | apply not_elem_of_nil].
    - rewrite IH, crossModal_lookup.
      destruct (bindingStrength s !! k); [done |].
      destruct (decide (k = key)) as [-> | Hne].
      + rewrite decide_True; [done | apply elem_of_cons; by left].
      + destruct (decide (k ∈ keys)).
        * rewrite decide_True; [done | apply elem_of_cons; by right].
        * rewrite decide_False; [done |].
          intros [? | ?]%elem_of_cons; done. }
  rewrite <- Hkeys. f_equal. f_equal. clear Hkeys. revert st.
  induction visual as [| v visual IH]; intros st; simpl; [done |].
  rewrite fmap_app, foldl_app, <- IH. f_equal.
  rewrite <- list_fmap_compose. by rewrite foldl_fmap.
Qed.

End SSPLaws.

(** ** Behaviour loops: matching, triggering, merging and monitoring *)

Module GhostLoopsLaws.
Import Js JsFacts JaccardFacts GhostLoops.

(** *** Matching *)

Lemma calculateFeatureMatch_range f1 f2 :
  (0 <= calculateFeatureMatch f1 f2 <= 1)%Q.
Proof.
  unfold calculateFeatureMatch. case_decide; [| lra].
  apply HASRFacts.ratio_range, intersection_le_union.
Qed.


Lemma recent_boost now loop :
  negb (lastTriggered loop =? 0)%Z
  && bool_decide (now - lastTriggered loop < 60000)%Z = true
  ↔ lastTriggered loop ≠ 0%Z ∧ (now - lastTriggered loop < 60000)%Z.
Proof.
  rewrite andb_true_iff, negb_true_iff, Z.eqb_neq, bool_decide_eq_true. done.
Qed.

(** X19.  For a loop whose pattern has no [context] (the built-in and the
    merged loops) and whose strength is in [0, 1], the resonance of any
    input is at most 0.6 times the strength, or 0.66 times the strength if
    the loop was triggered less than 60 seconds ago.  So, with a threshold
    of at least 0.6 (the default), [checkResonance] lists a loop only if it
    was triggered during the last minute and its strength is above 0.9: a
    built-in loop, of strength 0.9 and never triggered, is not listed for
    any input. *)
Theorem resonates_only_after_trigger (toLowerCase : string → string)
        (cfg : config) (now : Z) (i : input) (loop : ghostLoop) :
  (0 <= strength loop <= 1)%Q →
  (0.6 <= resonanceThreshold cfg)%Q →
  (0 <= calculateLoopResonance toLowerCase now i loop
   <= 0.66 * strength loop)%Q
  ∧ (lastTriggered loop = 0%Z ∨ (60000 ≤ now - lastTriggered loop)%Z →
     (calculateLoopResonance toLowerCase now i loop <= 0.6 * strength loop)%Q)
  ∧ (resonates toLowerCase cfg now i loop = true →
     lastTriggered loop ≠ 0%Z
     ∧ (now - lastTriggered loop < 60000)%Z
     ∧ (0.9 < strength loop)%Q).
Proof.
  intros [Hs0 Hs1] Hthr.
  unfold resonates, calculateLoopResonance.
  set (r1 := match trigger (pattern loop) with
             | Some t => (0 + calculateFeatureMatch
                                (extractFeatures toLowerCase i) t * 0.6)%Q
             | None => 0%Q
             end).
  assert (0 <= r1 <= 0.6)%Q as [Hr0 Hr1].
  { subst r1. destruct (trigger (pattern loop)) as [t |]; [| lra].
    pose proof (calculateFeatureMatch_range (extractFeatures toLowerCase i) t).
    lra. }
  clearbody r1. unfold Math_min.
  destruct (negb _ && _) eqn:Hrecent.
  - apply recent_boost in Hrecent as [Hne Hlt].
    split; [| split].
    + split; [apply Q.min_glb; [lra | nra] |].
      eapply Qle_trans; [apply Q.le_min_r | nra].
    + intros [Hz | Hold]; [done | lia].
    + intros Hgt%gtb_true. split; [done |]. split; [done |].
      assert (0.6 < r1 * strength loop * 1.1)%Q as Hlt'.
      { eapply Qlt_le_trans; [| apply Q.le_min_r].
        eapply Qle_lt_trans; [exact Hthr | exact Hgt]. }
      nra.
  - assert (Qmin 1 (r1 * strength loop) <= 0.6 * strength loop)%Q as Hle.
    { eapply Qle_trans; [apply Q.le_min_r | nra]. }
    split; [| split].
    + split; [apply Q.min_glb; [lra | nra] | lra].
    + done.
    + intros Hgt%gtb_true. exfalso. nra.
Qed.

Lemma resonates_only_after_trigger_witness :
  lastTriggered Examples.greeting ≠ 0%Z
  ∧ (2000 - lastTriggered Examples.greeting < 60000)%Z
  ∧ (0.9 < strength Examples.greeting)%Q.
Proof.
  apply (resonates_only_after_trigger (λ s, s) default_config 2000
           Examples.owner_returns Examples.greeting).
  - vm_compute. split; discriminate.
  - vm_compute. discriminate.
  - vm_compute. reflexivity.
Defined.

(** *** Triggering *)




(** *** Merging *)

Lemma length_append (a b : string) :
  String.length (a +:+ b) = (String.length a + String.length b)%nat.
Proof. induction a as [| c a IH]; simpl; [done | by rewrite IH]. Qed.

Lemma merged_name_fresh a b :
  "merged_" +:+ a +:+ "_" +:+ b ≠ a ∧ "merged_" +:+ a +:+ "_" +:+ b ≠ b.
Proof.
  split; intros Heq; apply (f_equal String.length) in Heq;
    rewrite !length_append in Heq; simpl in Heq; lia.
Qed.

(** X21.  [mergePatterns] returns [null] and changes nothing unless both
    loops exist.  Otherwise the two loops are removed and one loop is stored
    under [merged_<id1>_<id2>]: its triggers and responses are the unions of
    theirs without repetition, its strength is their average (the configured
    loop strength if that average is 0), its success count is their sum, its
    failure count is 0, it was never triggered, and its category is the
    first loop's.  No other loop changes.  The set of active loops is not
    touched, so a merged-away loop that was active stays listed, and the
    counter [totalCrystallized] grows by one although the number of loops
    does not. *)
Theorem mergePatterns_spec (cfg : config) (now : Z) (id1 id2 : string)
        (st : state) :
  let r := mergePatterns cfg now id1 id2 st in
  let merged := "merged_" +:+ id1 +:+ "_" +:+ id2 in
  match crystallizedPatterns st !! id1, crystallizedPatterns st !! id2 with
  | Some loop1, Some loop2 =>
      (∃ m, r.1 = Some m
            ∧ crystallizedPatterns r.2 !! merged = Some m
            ∧ id m = merged
            ∧ trigger (pattern m)
              = Some (new_Set (arr_or_empty (trigger (pattern loop1))
                               ++ arr_or_empty (trigger (pattern loop2))))
            ∧ response (pattern m)
              = Some (new_Set (arr_or_empty (response (pattern loop1))
                               ++ arr_or_empty (response (pattern loop2))))
            ∧ strength m
              = num_or (Some ((strength loop1 + strength loop2) / 2)%Q)
                       (loopStrength cfg)
            ∧ successCount m = (successCount loop1 + successCount loop2)%nat
            ∧ failureCount m = 0%nat
            ∧ lastTriggered m = 0%Z
            ∧ category m = str_or (Some (category loop1)) "general")
      ∧ crystallizedPatterns r.2 !! id1 = None
      ∧ crystallizedPatterns r.2 !! id2 = None
      ∧ (∀ k, k ≠ id1 → k ≠ id2 → k ≠ merged →
              crystallizedPatterns r.2 !! k = crystallizedPatterns st !! k)
      ∧ activeLoops r.2 = activeLoops st
      ∧ totalCrystallized r.2 = (totalCrystallized st + 1)%Z
  | _, _ => r = (None, st)
  end.
Proof.
  intros r merged. subst r. unfold mergePatterns.
  destruct (crystallizedPatterns st !! id1) as [loop1 |] eqn:H1; [| done].
  destruct (crystallizedPatterns st !! id2) as [loop2 |] eqn:H2; [| done].
  destruct (merged_name_fresh id1 id2) as [Hne1 Hne2]. fold merged in Hne1, Hne2.
  assert (str_or (Some merged) ("loop_" +:+ pretty now) = merged) as Hname.
  { unfold str_or. destruct (String.eqb_spec merged ""); [| done].
    subst merged. discriminate. }
  unfold crystallizePattern. cbn [fst snd name dpattern dstrength dsuccessCount
    dcategory crystallizedPatterns activeLoops totalCrystallized].
  fold merged. rewrite Hname.
  split; [| split; [| split; [| split; [| split]]]].
  - eexists. split; [done |]. rewrite lookup_insert_eq. done.
  - rewrite lookup_insert_ne by done.
    destruct (decide (id1 = id2)) as [-> | Hne].
    + apply lookup_delete_eq.
    + rewrite lookup_delete_ne by done. apply lookup_delete_eq.
  - rewrite lookup_insert_ne by done. apply lookup_delete_eq.
  - intros k Hk1 Hk2 Hkm.
    rewrite lookup_insert_ne, !lookup_delete_ne by done. done.
  - done.
  - done.
Qed.

(** *** Monitoring *)

Lemma size_imap_le {A B} (f : string → A → option B) (m : gmap string A) :
  (size (map_imap f m) ≤ size m)%nat.
Proof.
  rewrite <- !size_dom. apply subseteq_size.
  intros k. rewrite !elem_of_dom, map_lookup_imap.
  destruct (m !! k); simpl; [by eauto | by intros [? ?]].
Qed.

(** X22.  One monitoring tick never touches an active loop: it is kept with
    the strength it had.  A loop that is not active has its strength
    multiplied by the decay rate, and nothing else changed; it is removed
    exactly when the decayed strength is below 0.01, and the counter
    [totalCrystallized] drops by the number of removed loops, so that its
    difference to the number of loops is preserved.  The active loops
    afterwards are those that were active and have no loop or a loop
    triggered at most 30 seconds ago, in the same order. *)
Theorem monitorLoops_spec (cfg : config) (now : Z) (st : state) :
  let st' := monitorLoops cfg now st in
  (∀ k loop, crystallizedPatterns st !! k = Some loop →
     (k ∈ activeLoops st → crystallizedPatterns st' !! k = Some loop)
     ∧ (k ∉ activeLoops st →
        (strength loop * decayRate cfg < 0.01)%Q →
        crystallizedPatterns st' !! k = None)
     ∧ (k ∉ activeLoops st →
        (0.01 <= strength loop * decayRate cfg)%Q →
        ∃ loop', crystallizedPatterns st' !! k = Some loop'
                 ∧ strength loop' = (strength loop * decayRate cfg)%Q
                 ∧ pattern loop' = pattern loop
                 ∧ lastTriggered loop' = lastTriggered loop
                 ∧ successCount loop' = successCount loop
                 ∧ failureCount loop' = failureCount loop))
  ∧ (∀ k, crystallizedPatterns st !! k = None →
          crystallizedPatterns st' !! k = None)
  ∧ (totalCrystallized st' - Z.of_nat (size (crystallizedPatterns st'))
     = totalCrystallized st - Z.of_nat (size (crystallizedPatterns st)))%Z
  ∧ (∀ k, k ∈ activeLoops st' ↔
          k ∈ activeLoops st
          ∧ ∀ loop, crystallizedPatterns st' !! k = Some loop →
                    (now - lastTriggered loop ≤ 30000)%Z)
  ∧ activeLoops st' `sublist_of` activeLoops st.
Proof.
  intros st'. subst st'. unfold monitorLoops.
  cbn [crystallizedPatterns activeLoops totalCrystallized].
  split; [| split; [| split; [| split]]].
  - intros k loop Hk. rewrite map_lookup_imap, Hk. simpl. unfold monitored.
    split; [| split].
    + intros Hin. by rewrite bool_decide_eq_true_2.
    + intros Hnin Hweak. rewrite bool_decide_eq_false_2 by done.
      apply ltb_true in Hweak. by rewrite Hweak.
    + intros Hnin Hstrong. rewrite bool_decide_eq_false_2 by done.
      apply ltb_false in Hstrong. rewrite Hstrong. by eexists.
  - intros k Hk. by rewrite map_lookup_imap, Hk.
  - pose proof (size_imap_le (monitored cfg (activeLoops st))
                  (crystallizedPatterns st)). lia.
  - intros k. rewrite list_elem_of_filter. unfold expired.
    destruct (map_imap _ _ !! k) as [loop |] eqn:Hk.
    + rewrite bool_decide_eq_false. split.
      * intros [Hle Hin]. split; [done |]. intros ? [= <-]. lia.
      * intros [Hin Hle]. split; [| done]. specialize (Hle _ eq_refl). lia.
    + split; [intros [_ Hin]; by split | intros [Hin _]; by split].
  - apply sublist_filter.
Qed.

End GhostLoopsLaws.

(** ** Wonder engine: bounds, discoveries, categories and novelty *)

Module WonderLaws.
Import Js JsFacts Wonder WonderFacts.

(** *** Bounds *)

Lemma discover_bounds now st s :
  (0 <= curiosityLevel st <= 1)%Q →
  map_Forall (λ _ d, 0 <= familiarity d <= 1)%Q (discoveries st) →
  discoveriesMade st = size (discoveries st) →
  (0 <= curiosityLevel (discover now st s) <= 1)%Q
  ∧ discoveriesMade (discover now st s) = size (discoveries (discover now st s))
  ∧ dom (discoveries (discover now st s))
    = {[concept s]} ∪ dom (discoveries st)
  ∧ explorationQueue (discover now st s) = explorationQueue st
  ∧ curiosityHistory (discover now st s) = curiosityHistory st.
Proof.
  intros Hc Hf Hn. unfold discover.
  destruct (discoveries st !! concept s) as [d |] eqn:Hd; simpl.
  - destruct (Hf _ _ Hd) as [Hf0 Hf1].
    assert (0 <= Math_min 1 (familiarity d + 0.1) <= 1)%Q as [Hm0 Hm1].
    { unfold Math_min. split; [apply Q.min_glb; lra | apply Q.le_min_l]. }
    split; [split; nra |]. split.
    + by rewrite map_size_insert_Some.
    + split; [| done]. rewrite dom_insert_L. done.
  - split; [done |]. split.
    + rewrite map_size_insert_None by done. by rewrite Hn.
    + split; [| done]. by rewrite dom_insert_L.
Qed.

Lemma discover_all_bounds now l st :
  (0 <= curiosityLevel st <= 1)%Q →
  map_Forall (λ _ d, 0 <= familiarity d <= 1)%Q (discoveries st) →
  discoveriesMade st = size (discoveries st) →
  let st' := foldl (discover now) st l in
  (0 <= curiosityLevel st' <= 1)%Q
  ∧ map_Forall (λ _ d, 0 <= familiarity d <= 1)%Q (discoveries st')
  ∧ discoveriesMade st' = size (discoveries st')
  ∧ dom (discoveries st')
    = list_to_set (concept <$> l) ∪ dom (discoveries st)
  ∧ explorationQueue st' = explorationQueue st
  ∧ curiosityHistory st' = curiosityHistory st.
Proof.
  revert st. induction l as [| s l IH]; intros st Hc Hf Hn; simpl.
  - do 3 (split; [done |]). split; [| done].
    by rewrite (left_id_L ∅ (∪)).
  - destruct (discover_bounds now st s Hc Hf Hn) as (Hc1 & Hn1 & Hd1 & Hq1 & Hh1).
    destruct (IH (discover now st s) Hc1 (discover_familiarity now st s Hf) Hn1)
      as (Hc2 & Hf2 & Hn2 & Hd2 & Hq2 & Hh2).
    do 3 (split; [done |]). split; [| split; congruence].
    rewrite Hd2, Hd1, (assoc_L (∪)), (comm_L (∪) _ {[concept s]}). done.
Qed.

Lemma associate_dom c1 c2 ds : dom (associate c1 c2 ds) = dom ds.
Proof.
  unfold associate. destruct (ds !! c1) as [d |] eqn:Hd; [| done].
  case_decide; [done |]. rewrite dom_insert_L.
  apply elem_of_dom_2 in Hd. apply subseteq_union_1_L.
  by apply singleton_subseteq_l.
Qed.

Lemma createAssociations_dom l ds : dom (createAssociations l ds) = dom ds.
Proof.
  revert ds. induction l as [| si later IH]; intros ds; simpl; [done |].
  rewrite IH. clear IH. revert ds.
  induction later as [| sj later IH]; intros ds; simpl; [done |].
  by rewrite IH, !associate_dom.
Qed.

Lemma size_same_dom {A} (m1 m2 : gmap string A) :
  dom m1 = dom m2 → size m1 = size m2.
Proof. intros Hdom. by rewrite <- !size_dom, Hdom. Qed.

Lemma processExploration_bounds cfg now e st :
  (0 <= curiosityLevel st <= 1)%Q →
  map_Forall (λ _ d, 0 <= familiarity d <= 1)%Q (discoveries st) →
  discoveriesMade st = size (discoveries st) →
  let st' := processExploration cfg now e st in
  (0 <= curiosityLevel st' <= 1)%Q
  ∧ discoveriesMade st' = size (discoveries st')
  ∧ dom (discoveries st')
    = list_to_set (concept <$> symbols e) ∪ dom (discoveries st)
  ∧ explorationQueue st' = explorationQueue st
  ∧ curiosityHistory st' = curiosityHistory st.
Proof.
  intros Hc Hf Hn.
  destruct (discover_all_bounds now (symbols e) st Hc Hf Hn)
    as (Hc1 & Hf1 & Hn1 & Hd1 & Hq1 & Hh1).
  unfold processExploration.
  set (st1 := foldl (discover now) st (symbols e)) in *.
  set (st2 := with_discoveries _ st1).
  assert ((0 <= curiosityLevel st2 <= 1)%Q
          ∧ discoveriesMade st2 = size (discoveries st2)
          ∧ dom (discoveries st2)
            = list_to_set (concept <$> symbols e) ∪ dom (discoveries st)
          ∧ explorationQueue st2 = explorationQueue st
          ∧ curiosityHistory st2 = curiosityHistory st) as Hst2.
  { subst st2. simpl. split; [done |]. split; [| split; [| done]].
    - rewrite Hn1. symmetry. apply size_same_dom, createAssociations_dom.
    - by rewrite createAssociations_dom. }
  destruct (_ && _); [| done].
  unfold deeperExploration. by destruct (flat_map _ _).
Qed.

Lemma explore_state cfg now l st :
  canWonder cfg now st = true →
  ∃ e st4,
    explore cfg now l st = (Some e, processExploration cfg now e st4)
    ∧ symbols e = l
    ∧ explorationQueue st4
      = (if decide (maxQueueSize cfg < length (explorationQueue st ++ [e]))%nat
         then drop 1 (explorationQueue st ++ [e])
         else explorationQueue st ++ [e])
    ∧ curiosityLevel st4 = Math_min 1 (curiosityLevel st + curiosityBoost cfg)%Q
    ∧ curiosityHistory st4
      = (if decide (100 < length (curiosityHistory st
                                   ++ [(curiosityLevel st4, now)]))%nat
         then drop 1 (curiosityHistory st ++ [(curiosityLevel st4, now)])
         else curiosityHistory st ++ [(curiosityLevel st4, now)])
    ∧ discoveries st4 = discoveries st
    ∧ discoveriesMade st4 = discoveriesMade st
    ∧ totalExplorations (processExploration cfg now e st4)
      = S (totalExplorations st)
    ∧ wonderMoments (processExploration cfg now e st4) = S (wonderMoments st).
Proof.
  intros Hcan. unfold explore. rewrite Hcan. cbn [negb].
  eexists _, _. split; [reflexivity |]. cbn [symbols category].
  assert (∀ e st, totalExplorations (processExploration cfg now e st)
                  = totalExplorations st
                  ∧ wonderMoments (processExploration cfg now e st)
                    = wonderMoments st) as Hstats.
  { intros e st0. unfold processExploration.
    assert (∀ l st, totalExplorations (foldl (discover now) st l)
                    = totalExplorations st
                    ∧ wonderMoments (foldl (discover now) st l)
                      = wonderMoments st) as Hfold.
    { intros l0. induction l0 as [| s l0 IH]; intros st1; simpl; [done |].
      destruct (IH (discover now st1 s)) as [-> ->].
      unfold discover. by destruct (discoveries st1 !! concept s). }
    destruct (Hfold (symbols e) st0) as [Ht Hw].
    destruct (_ && _); [| done].
    unfold deeperExploration. by destruct (flat_map _ _). }
  destruct (categorizeExploration l) as [c |]; cbn [updateInterest];
    [unfold updateInterest; destruct (interestMap _ !! c) |];
    (do 6 (split; [done |]);
     split; [by rewrite (proj1 (Hstats _ _)) | by rewrite (proj2 (Hstats _ _))]).
Qed.

(** X23.  A call of [explore] keeps the bounds of the wonder engine, given a
    non-negative curiosity boost: the exploration queue stays within
    [maxQueueSize] and the curiosity history within 100 entries, the
    curiosity level and every familiarity stay in [0, 1], and the counter
    of discoveries stays equal to the number of discoveries.  The same holds
    of the novelty path of [processPerception]. *)
Theorem explore_keeps_bounds (cfg : config) (now : Z) (l : list symbol)
        (st : state) :
  (0 <= curiosityBoost cfg)%Q →
  Spec.wonder_bounds cfg st →
  Spec.wonder_bounds cfg (explore cfg now l st).2
  ∧ Spec.wonder_bounds cfg (processPerception_wonder cfg now l st).
Proof.
  intros Hboost Hst.
  assert (Spec.wonder_bounds cfg (explore cfg now l st).2) as Hexplore.
  { destruct Hst as (Hq & Hh & [Hc0 Hc1] & Hf & Hn).
    destruct (canWonder cfg now st) eqn:Hcan.
    - destruct (explore_state cfg now l st Hcan)
        as (e & st4 & -> & _ & Hq4 & Hc4 & Hh4 & Hd4 & Hn4 & _).
      cbn [snd].
      assert (0 <= curiosityLevel st4 <= 1)%Q as Hc.
      { rewrite Hc4. unfold Math_min.
        split; [apply Q.min_glb; lra | apply Q.le_min_l]. }
      destruct (processExploration_bounds cfg now e st4 Hc)
        as (Hc' & Hn' & _ & Hq' & Hh').
      { by rewrite Hd4. }
      { by rewrite Hn4, Hd4. }
      unfold Spec.wonder_bounds. rewrite Hq', Hh', Hq4, Hh4.
      clear Hq4 Hh4.
      split; [| split; [| split; [done | split; [| done]]]].
      + case_decide; [rewrite length_drop |]; rewrite ?length_app in *;
          simpl in *; lia.
      + case_decide; [rewrite length_drop |]; rewrite ?length_app in *;
          simpl in *; lia.
      + apply processExploration_familiarity. by rewrite Hd4.
    - unfold explore. rewrite Hcan. done. }
  split; [done |].
  unfold processPerception_wonder. by destruct (isNovel cfg st (Some l)).
Qed.

Lemma explore_keeps_bounds_witness :
  Spec.wonder_bounds default_config
    (explore default_config 6000 Examples.red_ball Examples.wonder_start).2.
Proof.
  refine (proj1 (explore_keeps_bounds default_config 6000 Examples.red_ball
                   Examples.wonder_start _ _)).
  - vm_compute. discriminate.
  - split; [simpl; lia |]. split; [simpl; lia |].
    split; [vm_compute; split; discriminate |].
    split; [apply map_Forall_empty | reflexivity].
Defined.

(** X24.  An accepted [explore] discovers every concept it is given and
    forgets none: the discovered concepts afterwards are those known before
    and the concepts of the symbols.  The exploration record is the newest
    entry of the queue (given room for one), and the counters of
    explorations and of wonder moments grow by one. *)
Theorem explore_discovers (cfg : config) (now : Z) (l : list symbol)
        (st : state) (e : exploration) (st' : state) :
  (1 ≤ maxQueueSize cfg)%nat →
  explore cfg now l st = (Some e, st') →
  dom (discoveries st') = list_to_set (concept <$> l) ∪ dom (discoveries st)
  ∧ (∀ s, s ∈ l → is_Some (discoveries st' !! concept s))
  ∧ last (explorationQueue st') = Some e
  ∧ totalExplorations st' = S (totalExplorations st)
  ∧ wonderMoments st' = S (wonderMoments st).
Proof.
  intros Hmax Hexplore.
  destruct (canWonder cfg now st) eqn:Hcan;
    [| unfold explore in Hexplore; rewrite Hcan in Hexplore; done].
  destruct (explore_state cfg now l st Hcan)
    as (e0 & st4 & Heq & Hl & Hq4 & _ & _ & Hd4 & _ & Ht & Hw).
  rewrite Heq in Hexplore. injection Hexplore as -> <-.
  assert (dom (discoveries (processExploration cfg now e st4))
          = list_to_set (concept <$> l) ∪ dom (discoveries st)
          ∧ explorationQueue (processExploration cfg now e st4)
            = explorationQueue st4) as [Hdom Hq].
  { unfold processExploration.
    assert (∀ l0 st0, dom (discoveries (foldl (discover now) st0 l0))
                      = list_to_set (concept <$> l0) ∪ dom (discoveries st0)
                      ∧ explorationQueue (foldl (discover now) st0 l0)
                        = explorationQueue st0) as Hfold.
    { intros l0. induction l0 as [| s l0 IH]; intros st0; simpl.
      - split; [by rewrite (left_id_L ∅ (∪)) | done].
      - destruct (IH (discover now st0 s)) as [-> ->].
        unfold discover. destruct (discoveries st0 !! concept s) eqn:Hs; simpl;
          rewrite dom_insert_L, (assoc_L (∪)), (comm_L (∪) _ {[concept s]});
          done. }
    destruct (Hfold (symbols e) st4) as [Hd Hq].
    set (st2 := with_discoveries _ _).
    assert (dom (discoveries st2)
            = list_to_set (concept <$> l) ∪ dom (discoveries st)
            ∧ explorationQueue st2 = explorationQueue st4) as Hst2.
    { subst st2. simpl. split; [| exact Hq].
      by rewrite createAssociations_dom, Hd, Hl, Hd4. }
    destruct (_ && _); [| done].
    unfold deeperExploration. by destruct (flat_map _ _). }
  split; [done |]. split; [| split; [| done]].
  - intros s Hs. apply elem_of_dom. rewrite Hdom.
    apply elem_of_union_l, elem_of_list_to_set, list_elem_of_fmap. by exists s.
  - rewrite Hq, Hq4. case_decide as Hover.
    + rewrite length_app in Hover. simpl in Hover.
      destruct (explorationQueue st) as [| x q]; [simpl in *; lia |].
      simpl. rewrite drop_0. apply last_snoc.
    + apply last_snoc.
Qed.

Lemma explore_discovers_witness :
  totalExplorations
    (explore default_config 6000 Examples.red_ball Examples.wonder_start).2
  = S (totalExplorations Examples.wonder_start).
Proof.
  destruct (explore_accepted default_config 6000 Examples.red_ball
              Examples.wonder_start) as (e & st' & Hexplore & _);
    [simpl; lia |].
  rewrite Hexplore.
  refine (proj1 (proj2 (proj2 (proj2
            (explore_discovers default_config 6000 Examples.red_ball
               Examples.wonder_start e st' _ Hexplore))))).
  simpl. lia.
Defined.

(** *** Categories *)

Section Best.
Context (score : string → Q).

End Best.





(** *** Novelty *)

Lemma novelty_fold st (l : list symbol) (a : Q) :
  (foldl (λ score s,
            match discoveries st !! concept s with
            | Some d => score * (1 - familiarity d)
            | None => score
            end) a l
   == a * Spec.novelty st l)%Q.
Proof.
  revert a. induction l as [| s l IH]; intros a; simpl.
  - lra.
  - rewrite IH. destruct (discoveries st !! concept s); lra.
Qed.

Lemma novelty_range st l :
  map_Forall (λ _ d, 0 <= familiarity d <= 1)%Q (discoveries st) →
  (0 <= Spec.novelty st l <= 1)%Q.
Proof.
  intros Hf. induction l as [| s l IH]; simpl; [lra |].
  destruct (discoveries st !! concept s) as [d |] eqn:Hd; [| done].
  destruct (Hf _ _ Hd). nra.
Qed.

Lemma novelty_app st l l' :
  (Spec.novelty st (l ++ l') == Spec.novelty st l * Spec.novelty st l')%Q.
Proof.
  induction l as [| s l IH]; simpl; [lra |].
  destruct (discoveries st !! concept s); rewrite IH; lra.
Qed.

(** X26.  [isNovel] multiplies, over the symbols that were discovered, one
    minus the familiarity of the discovery, and compares the product with
    the novelty threshold: a non-empty list of symbols is novel exactly when
    this product is above the threshold.  With familiarities in [0, 1]:
    symbols never seen are novel whenever the threshold is below 1, a
    single symbol of familiarity 1 makes the whole list not novel for any
    non-negative threshold, and adding symbols never makes a list novel. *)
Theorem isNovel_spec (cfg : config) (st : state) (l l' : list symbol) :
  l ≠ [] →
  map_Forall (λ _ d, 0 <= familiarity d <= 1)%Q (discoveries st) →
  (isNovel cfg st (Some l) = true
   ↔ (noveltyThreshold cfg < Spec.novelty st l)%Q)
  ∧ ((∀ s, s ∈ l → discoveries st !! concept s = None) →
     (isNovel cfg st (Some l) = true ↔ (noveltyThreshold cfg < 1)%Q))
  ∧ ((∃ s d, s ∈ l ∧ discoveries st !! concept s = Some d
             ∧ (familiarity d == 1)%Q) →
     (0 <= noveltyThreshold cfg)%Q → isNovel cfg st (Some l) = false)
  ∧ (isNovel cfg st (Some (l ++ l')) = true → isNovel cfg st (Some l) = true).
Proof.
  intros Hne Hf.
  assert (∀ l0, l0 ≠ [] →
                (isNovel cfg st (Some l0) = true
                 ↔ (noveltyThreshold cfg < Spec.novelty st l0)%Q)) as Hspec.
  { intros l0 Hl0. unfold isNovel. destruct l0 as [| s0 l0]; [done |].
    rewrite gtb_true, novelty_fold. split; intros H; lra. }
  split; [by apply Hspec |]. split; [| split].
  - intros Hunknown. rewrite (Hspec l Hne).
    assert (Spec.novelty st l = 1%Q) as ->; [| done].
    clear Hne Hspec. induction l as [| s l IH]; simpl; [done |].
    rewrite Hunknown by (apply elem_of_cons; by left).
    apply IH. intros s' Hs'. apply Hunknown, elem_of_cons. by right.
  - intros (s & d & Hs & Hd & Hone) Hthr.
    apply not_true_iff_false. rewrite (Hspec l Hne).
    assert (Spec.novelty st l == 0)%Q as ->; [| lra].
    clear Hne Hspec. induction l as [| s0 l IH]; [by apply elem_of_nil in Hs |].
    simpl. apply elem_of_cons in Hs as [<- | Hs].
    + rewrite Hd, Hone. lra.
    + specialize (IH Hs). destruct (discoveries st !! concept s0);
        rewrite IH; lra.
  - assert (l ++ l' ≠ []) as Hne' by (by destruct l).
    rewrite (Hspec _ Hne'), (Hspec l Hne), novelty_app.
    pose proof (novelty_range st l Hf). pose proof (novelty_range st l' Hf).
    intros Hlt. nra.
Qed.

Lemma isNovel_spec_witness :
  isNovel default_config Examples.wonder_start (Some Examples.red_ball) = true
  ↔ (noveltyThreshold default_config
     < Spec.novelty Examples.wonder_start Examples.red_ball)%Q.
Proof.
  refine (proj1 (isNovel_spec default_config Examples.wonder_start
                   Examples.red_ball [] _ _)).
  - discriminate.
  - apply map_Forall_empty.
Defined.

End WonderLaws.

(** ** Identity: significance, narrative, reflection and ranges *)

Module AetheronLaws.
Import Js JsFacts Aetheron.

(** *** Significance *)

(** X27.  The decision table of [isSignificant].  An experience enters the
    narrative exactly when it is an achievement with at least one other
    attribute (novel, emotional, social or something learned), or novel with
    something learned, or emotional and social and also novel or with
    something learned; an emotion counts unless it is [neutral].  No single
    attribute is enough: an achievement alone scores 0.4, and two
    attributes that add up to exactly 0.5 do not pass the strict test. *)
Theorem isSignificant_table (e : experience) :
  let n := novel e in
  let em := match emotion e with
            | Some s => negb (String.eqb s "") && negb (String.eqb s "neutral")
            | None => false
            end in
  let s := social e in
  let a := achievement e in
  let l := truthy_str (learned e) in
  isSignificant e
  = (a && (n || em || s || l)) || (n && l) || (em && s && (n || l)).
Proof.
  unfold isSignificant, significance.
  destruct (novel e), (emotion e) as [s |];
    try destruct (negb (String.eqb s "") && negb (String.eqb s "neutral"));
    destruct (social e), (achievement e), (truthy_str (learned e));
    reflexivity.
Qed.

(** *** The narrative *)

Lemma sort_insert_last {A} (keep_before : A → A → bool) y acc x :
  keep_before y x = true →
  sort_insert keep_before y (acc ++ [x])
  = sort_insert keep_before y acc ++ [x].
Proof.
  intros Hyx. induction acc as [| z acc IH]; simpl.
  - by rewrite Hyx.
  - destruct (keep_before y z); [done |]. by rewrite IH.
Qed.

Lemma Array_sort_last {A} (keep_before : A → A → bool) l x :
  Forall (λ y, keep_before y x = true) l →
  Array_sort keep_before (l ++ [x]) = Array_sort keep_before l ++ [x].
Proof.
  induction 1 as [| y l Hy _ IH]; simpl; [done |].
  unfold Array_sort in *. rewrite IH. by apply sort_insert_last.
Qed.

(** X28.  After [addToNarrative] the narrative never holds more than
    [narrativeMaxLength] entries.  When it overflows, the entries are
    re-ordered by decreasing importance (0.5 when absent) and the last one
    is cut.  The sort being stable, a narrative that is full rejects every
    new entry that is not strictly more important than one of its entries:
    the narrative is then the old one, sorted, and the new entry is lost.
    In particular a full narrative of entries without importance accepts no
    further entry without importance. *)
Theorem addToNarrative_spec (cfg : config) (now : Z)
        (type content : option string) (imp : option Q)
        (narrative : list entry) :
  let new := {| ntype := type; ncontent := content; nimportance := imp;
                ntimestamp := now; integrated := false |} in
  let narrative' := addToNarrative cfg now type content imp narrative in
  (length narrative' ≤ narrativeMaxLength cfg)%nat
  ∧ ((length narrative < narrativeMaxLength cfg)%nat →
     narrative' = narrative ++ [new])
  ∧ ((narrativeMaxLength cfg ≤ length narrative)%nat →
     ∃ dropped, narrative' ++ dropped ≡ₚ narrative ++ [new]
                ∧ ∀ k d, k ∈ narrative' → d ∈ dropped →
                         (num_or (nimportance d) 0.5
                          <= num_or (nimportance k) 0.5)%Q)
  ∧ (length narrative = narrativeMaxLength cfg →
     Forall (λ k, num_or imp 0.5 <= num_or (nimportance k) 0.5)%Q narrative →
     narrative' = Array_sort by_importance narrative).
Proof.
  intros new narrative'. subst narrative'. unfold addToNarrative. fold new.
  assert (∀ a b, by_importance a b = true ∨ by_importance b a = true) as Htotal.
  { intros a b. unfold by_importance. rewrite !leb_true.
    destruct (Qlt_le_dec (num_or (nimportance a) 0.5)
                         (num_or (nimportance b) 0.5));
      [right | left]; [by apply Qlt_le_weak | done]. }
  assert (∀ a b c, by_importance a b = true → by_importance b c = true →
                   by_importance a c = true) as Htrans.
  { intros a b c. unfold by_importance. rewrite !leb_true. intros H1 H2.
    by eapply Qle_trans. }
  split; [| split; [| split]].
  - case_decide as Hover; [| lia]. rewrite length_take. lia.
  - intros Hroom. rewrite decide_False; [done |].
    rewrite length_app. simpl. lia.
  - intros Hfull. rewrite decide_True by (rewrite length_app; simpl; lia).
    exists (drop (narrativeMaxLength cfg)
                 (Array_sort by_importance (narrative ++ [new]))).
    split; [by rewrite take_drop, Array_sort_Permutation |].
    intros k d Hk Hd. apply leb_true.
    apply (Array_sort_take_drop by_importance Htotal Htrans _ _ _ _ Hk Hd).
  - intros Hfull Hdominated.
    rewrite decide_True by (rewrite length_app; simpl; lia).
    rewrite Array_sort_last.
    + rewrite take_app_length'; [done |]. by rewrite Array_sort_length.
    + eapply Forall_impl; [exact Hdominated |]. intros k Hk.
      unfold by_importance. by apply leb_true.
Qed.

(** *** Reflection *)

Lemma num_nonneg (n : nat) : (0 <= num n)%Q.
Proof. change 0%Q with (num 0). apply num_le. lia. Qed.

Lemma size_insert_le {A} (m : gmap string A) k v :
  (size (<[k := v]> m) ≤ S (size m))%nat.
Proof.
  destruct (m !! k) eqn:Hk.
  - rewrite map_size_insert_Some by done. lia.
  - rewrite map_size_insert_None by done. lia.
Qed.

Lemma integrateEntry_grows sc e :
  dom sc ⊆ dom (integrateEntry sc e)
  ∧ (size (integrateEntry sc e)
     ≤ size sc + (if integrated e then 0 else 1))%nat.
Proof.
  unfold integrateEntry. destruct (integrated e); [split; [done | lia] |].
  repeat case_bool_decide; try congruence;
    (split; [first [done | rewrite dom_insert_L; apply union_subseteq_r]
            | first [lia | etrans; [apply size_insert_le | lia]]]).
Qed.

Lemma integrateNarrative_grows narrative sc :
  dom sc ⊆ dom (foldl integrateEntry sc narrative)
  ∧ (size (foldl integrateEntry sc narrative)
     ≤ size sc + length (filter (λ e, integrated e = false) narrative))%nat.
Proof.
  revert sc. induction narrative as [| e l IH]; intros sc; simpl.
  - split; [done | lia].
  - destruct (IH (integrateEntry sc e)) as [Hdom Hsize].
    destruct (integrateEntry_grows sc e) as [Hdom1 Hsize1].
    split; [by etrans |].
    rewrite filter_cons.
    destruct (integrated e);
      [rewrite decide_False by done | rewrite decide_True by done];
      rewrite ?length_cons; lia.
Qed.

Section Reassess.
Context (now : Z).

Let valued : gmap string concept → string * coreValue → gmap string concept :=
  λ sc kv,
    match sc !! ("i_value_" +:+ kv.1) with
    | Some _ => sc
    | None => <["i_value_" +:+ kv.1 :=
                  {| strength := vimportance kv.2; formed := now;
                     reinforcements := actions kv.2 |}]> sc
    end.

Lemma reassessed_grows (top : list (string * coreValue))
      (sc : gmap string concept) :
  dom sc ⊆ dom (foldl valued sc top)
  ∧ (size (foldl valued sc top) ≤ size sc + length top)%nat
  ∧ ∀ k c, sc !! k = Some c → foldl valued sc top !! k = Some c.
Proof.
  revert sc. induction top as [| kv top IH]; intros sc; simpl.
  - split; [done |]. split; [lia | done].
  - unfold valued at 2 4 6.
    destruct (sc !! ("i_value_" +:+ kv.1)) as [c0 |] eqn:Hk.
    + destruct (IH sc) as (Hdom & Hsize & Hkeep).
      split; [done |]. split; [lia | done].
    + destruct (IH (<["i_value_" +:+ kv.1 :=
                        {| strength := vimportance kv.2; formed := now;
                           reinforcements := actions kv.2 |}]> sc))
        as (Hdom & Hsize & Hkeep).
      split; [| split].
      * etrans; [| exact Hdom]. rewrite dom_insert_L. apply union_subseteq_r.
      * rewrite map_size_insert_None in Hsize by done. lia.
      * intros k c Hc. apply Hkeep. rewrite lookup_insert_ne; [done |].
        intros <-. congruence.
Qed.
End Reassess.

Lemma integrated_once narrative sc :
  foldl integrateEntry sc (mark <$> narrative) = sc.
Proof.
  revert sc. induction narrative as [| e l IH]; intros sc; simpl; [done |].
  apply IH.
Qed.

(** X29.  One [reflect] counts itself, leaves the coherence, the values,
    the relationships and the name untouched, and sets the self-awareness to
    a score in [0, 1].  It marks every narrative entry as integrated without
    changing anything else in the narrative, so that a second reflection
    integrates nothing again.  The self-concept only grows: no concept is
    removed, and at most one concept per entry not yet integrated and three
    concepts for the top values are added. *)
Theorem reflect_spec (now : Z) (st : state) :
  let st' := reflect now st in
  selfReflections st' = S (selfReflections st)
  ∧ coherence st' = coherence st
  ∧ values st' = values st
  ∧ relationships st' = relationships st
  ∧ name st' = name st
  ∧ (0 <= selfAwareness st' <= 1)%Q
  ∧ selfNarrative st' = mark <$> selfNarrative st
  ∧ Forall (λ e, integrated e = true) (selfNarrative st')
  ∧ (∀ sc, foldl integrateEntry sc (selfNarrative st') = sc)
  ∧ dom (selfConcept st) ⊆ dom (selfConcept st')
  ∧ (size (selfConcept st')
     ≤ size (selfConcept st)
       + length (filter (λ e, integrated e = false) (selfNarrative st)) + 3)%nat.
Proof.
  intros st'. subst st'. unfold reflect.
  cbn [selfReflections coherence values relationships name selfAwareness
       selfNarrative selfConcept with_selfConcept].
  do 5 (split; [reflexivity |]).
  split; [| split; [reflexivity | split; [| split; [| split]]]].
  - unfold computeSelfAwareness.
    cbn [name selfConcept selfNarrative relationships selfReflections
         with_selfConcept].
    set (x1 := (num (size _) * 0.01)%Q).
    set (x2 := (num (length _) * 0.002)%Q).
    set (x3 := (num (size (relationships st)) * 0.05)%Q).
    set (x4 := (num (S (selfReflections st)) * 0.001)%Q).
    assert (0 <= x1 ∧ 0 <= x2 ∧ 0 <= x3 ∧ 0 <= x4)%Q as (H1 & H2 & H3 & H4).
    { subst x1 x2 x3 x4.
      pose proof (num_nonneg (size (reassessValues now (values st)
                                      (foldl integrateEntry (selfConcept st)
                                             (selfNarrative st))))).
      pose proof (num_nonneg (length (mark <$> selfNarrative st))).
      pose proof (num_nonneg (size (relationships st))).
      pose proof (num_nonneg (S (selfReflections st))).
      split; [| split; [| split]]; nra. }
    clearbody x1 x2 x3 x4. unfold Math_min.
    pose proof (Q.le_min_l 0.3 x1). pose proof (Q.le_min_l 0.2 x2).
    pose proof (Q.le_min_l 0.2 x3). pose proof (Q.le_min_l 0.2 x4).
    assert (0 <= Qmin 0.3 x1)%Q by (apply Q.min_glb; lra).
    assert (0 <= Qmin 0.2 x2)%Q by (apply Q.min_glb; lra).
    assert (0 <= Qmin 0.2 x3)%Q by (apply Q.min_glb; lra).
    assert (0 <= Qmin 0.2 x4)%Q by (apply Q.min_glb; lra).
    destruct (truthy_str (name st)); split; lra.
  - apply Forall_fmap, Forall_forall. done.
  - intros sc. apply integrated_once.
  - unfold reassessValues.
    destruct (integrateNarrative_grows (selfNarrative st) (selfConcept st))
      as [Hdom _].
    destruct (reassessed_grows now (take 3 (Array_sort by_vimportance (values st)))
                (foldl integrateEntry (selfConcept st) (selfNarrative st)))
      as (Hdom' & _ & _).
    by etrans.
  - unfold reassessValues.
    destruct (integrateNarrative_grows (selfNarrative st) (selfConcept st))
      as [_ Hsize].
    destruct (reassessed_grows now (take 3 (Array_sort by_vimportance (values st)))
                (foldl integrateEntry (selfConcept st) (selfNarrative st)))
      as (_ & Hsize' & _).
    rewrite length_take in Hsize'. lia.
Qed.

(** *** Ranges *)

Lemma sum_range (l : list Q) (a : Q) :
  Forall (λ x, 0 <= x <= 1)%Q l →
  (a <= foldl Qplus a l <= a + num (length l))%Q.
Proof.
  intros Hl. revert a. induction Hl as [| x l [Hx0 Hx1] _ IH]; intros a; simpl.
  - change (num 0) with 0%Q. lra.
  - destruct (IH (a + x)%Q) as [H0 H1].
    assert (num (S (length l)) == num (length l) + 1)%Q as Hs.
    { unfold num. rewrite Nat2Z.inj_succ, <- Z.add_1_r, inject_Z_plus.
      reflexivity. }
    rewrite Hs. lra.
Qed.

Lemma average_range (l : list Q) :
  Forall (λ x, 0 <= x <= 1)%Q l → (0 <= average l <= 1)%Q.
Proof.
  intros Hl. unfold average.
  destruct (sum_range l 0 Hl) as [H0 H1]. rewrite Qplus_0_l in H1.
  destruct l as [| x l]; [simpl; unfold Qdiv; simpl; lra |].
  assert (0 < num (length (x :: l)))%Q as Hpos by (by apply num_pos).
  split.
  - apply Qle_shift_div_l; [done | lra].
  - apply Qle_shift_div_r; [done | lra].
Qed.

Lemma count_theme_sum ts theme :
  sum_list (count_theme ts theme).*2 = S (sum_list ts.*2).
Proof.
  induction ts as [| [t c] ts IH]; csimpl; [done |].
  case_decide; csimpl; [done |]. rewrite IH. lia.
Qed.

Lemma themes_sum narrative : sum_list (themes narrative).*2 = length narrative.
Proof.
  unfold themes.
  assert (∀ ts, sum_list
                  (foldl (λ ts e, count_theme ts
                                    (if truthy_str (ntype e)
                                     then default "" (ntype e) else "general"))
                         ts narrative).*2
                = (length narrative + sum_list ts.*2)%nat) as Hfold.
  { induction narrative as [| e l IH]; intros ts; simpl; [done |].
    rewrite IH, count_theme_sum. lia. }
  rewrite Hfold. simpl. lia.
Qed.

Lemma max_le_sum (l : list nat) : (foldr Nat.max 0 l ≤ sum_list l)%nat.
Proof. induction l as [| x l IH]; simpl; lia. Qed.

Lemma calculateNarrativeCoherence_range narrative :
  (0 <= calculateNarrativeCoherence narrative <= 1)%Q.
Proof.
  unfold calculateNarrativeCoherence. case_decide; [lra |].
  apply HASRFacts.ratio_range. rewrite <- themes_sum. apply max_le_sum.
Qed.

Lemma computeCoherence_range st :
  Spec.identity_ranges st → (0 <= computeCoherence st <= 1)%Q.
Proof.
  intros (Hc & Hp & Hv & _). unfold computeCoherence.
  assert (0 <= average (strength <$> (map_to_list (selfConcept st)).*2) <= 1)%Q
    as H1.
  { apply average_range. rewrite <- list_fmap_compose. apply Forall_fmap.
    apply map_Forall_to_list in Hc. eapply Forall_impl; [exact Hc |].
    by intros [k c]. }
  assert (0 <= average (stability <$> (map_to_list (personality st)).*2) <= 1)%Q
    as H2.
  { apply average_range. rewrite <- list_fmap_compose. apply Forall_fmap.
    apply map_Forall_to_list in Hp. eapply Forall_impl; [exact Hp |].
    intros [k t] [_ Hs]. done. }
  assert (0 <= average (vimportance <$> (values st).*2) <= 1)%Q as H3.
  { apply average_range. rewrite <- list_fmap_compose. by apply Forall_fmap. }
  pose proof (calculateNarrativeCoherence_range (selfNarrative st)) as H4.
  lra.
Qed.

Lemma adjustPersonality_range now type p :
  map_Forall (λ _ t, (0 <= value t <= 1)%Q ∧ (0 <= stability t <= 1)%Q) p →
  map_Forall (λ _ t, (0 <= value t <= 1)%Q ∧ (0 <= stability t <= 1)%Q)
             (adjustPersonality now type p).
Proof.
  unfold adjustPersonality. generalize (adjustments type). intros l.
  revert p. induction l as [| a l IH]; intros p Hp; simpl; [done |].
  apply IH. destruct (p !! a.1) as [t |] eqn:Ht; [| done].
  apply map_Forall_insert_2; [| done].
  destruct (Hp _ _ Ht) as [_ [Hs0 Hs1]]. unfold adjust_trait. simpl.
  unfold Math_max, Math_min. split.
  - split; [apply Q.le_max_l |]. apply Q.max_lub; [lra | apply Q.le_min_l].
  - split; [apply Q.min_glb; lra | apply Q.le_min_l].
Qed.

(** The identity built at start-up is within the ranges, for values drawn
    in [0, 1]. *)
Lemma identity_ranges_initial now random :
  (∀ v, 0 <= random v <= 1)%Q →
  Spec.identity_ranges (initial_state now random).
Proof.
  intros Hrandom. unfold Spec.identity_ranges, initial_state.
  cbn [selfConcept personality values relationships].
  split; [| split; [| split]].
  - csimpl. repeat (apply map_Forall_insert_2; [simpl; lra |]).
    apply map_Forall_empty.
  - csimpl. repeat (apply map_Forall_insert_2; [simpl; lra |]).
    apply map_Forall_empty.
  - csimpl. repeat (constructor; [simpl; pose proof (Hrandom "loyalty"%string);
      pose proof (Hrandom "playfulness"%string);
      pose proof (Hrandom "curiosity"%string);
      pose proof (Hrandom "comfort"%string);
      pose proof (Hrandom "affection"%string); lra |]).
    constructor.
  - apply map_Forall_empty.
Qed.

(** X30.  Every score of the identity stays in [0, 1].  If the strengths of
    the self-concept, the values and stabilities of the personality, the
    importances of the values and the bonds and trusts of the relationships
    are all in [0, 1], and the decay factor of the values is in [0, 1], they
    still are after [integrate] of any experience, after [reflect] and
    after [setName]; and the coherence that [integrate] computes, a weighted
    mean of four averages, is in [0, 1] for an identity with at least one
    trait and one value (without them the source averages over nothing). *)
Theorem identity_ranges_preserved (cfg : config) (now : Z) (e : experience)
        (n : string) (st : state) :
  (0 <= valueDecay cfg <= 1)%Q →
  Spec.identity_ranges st →
  Spec.identity_ranges (integrate cfg now e st)
  ∧ (personality st ≠ ∅ → values st ≠ [] →
     (0 <= coherence (integrate cfg now e st) <= 1)%Q)
  ∧ Spec.identity_ranges (reflect now st)
  ∧ Spec.identity_ranges (setName cfg now n st).
Proof.
  intros [Hd0 Hd1] (Hc & Hp & Hv & Hr).
  assert (Spec.identity_ranges (integrate cfg now e st)) as Hint.
  { set (type := categorizeExperience e).
    assert (selfConcept (integrate cfg now e st)
            = updateSelfConcept now e type (selfConcept st)
            ∧ personality (integrate cfg now e st)
              = adjustPersonality now type (personality st)
            ∧ values (integrate cfg now e st)
              = processValues cfg now type (values st)
            ∧ (relationships (integrate cfg now e st) = relationships st
               ∨ ∃ st0, relationships st0 = relationships st
                        ∧ relationships (integrate cfg now e st)
                          = relationships (updateRelationships now e st0)))
      as (Hsc & Hpe & Hva & Hre).
    { unfold integrate. fold type.
      destruct (String.eqb type "social"), (isSignificant e);
        (do 3 (split; [reflexivity |]));
        first [ by left | right; eexists; split; [| reflexivity]; reflexivity ]. }
    unfold Spec.identity_ranges. rewrite Hsc, Hpe, Hva.
    split; [| split; [| split]].
    - unfold updateSelfConcept.
      set (c := match selfConcept st !! ("i_" +:+ type) with
                | Some c => c
                | None => {| strength := 0.3; formed := now; reinforcements := 0 |}
                end).
      assert (0 <= strength c <= 1)%Q as [Hc0 Hc1].
      { subst c. destruct (selfConcept st !! ("i_" +:+ type)) eqn:Hk.
        - by apply (Hc _ _ Hk).
        - simpl. lra. }
      assert (map_Forall (λ _ c, 0 <= strength c <= 1)%Q
                (<["i_" +:+ type :=
                     {| strength := Math_min 1 (strength c + 0.05);
                        formed := formed c;
                        reinforcements := S (reinforcements c) |}]>
                   (selfConcept st))) as Hsc1.
      { apply map_Forall_insert_2; [| done]. simpl. unfold Math_min.
        split; [apply Q.min_glb; lra | apply Q.le_min_l]. }
      destruct (truthy_str (learned e)); [| done].
      apply map_Forall_insert_2; [simpl; lra | done].
    - by apply adjustPersonality_range.
    - unfold processValues. apply Forall_fmap.
      eapply Forall_impl; [exact Hv |]. intros [k v] [H0 H1]. simpl in *.
      case_bool_decide; simpl.
      + unfold Math_min. split; [apply Q.min_glb; lra | apply Q.le_min_l].
      + split; nra.
    - destruct Hre as [-> | (st0 & Hst0 & ->)]; [done |].
      unfold updateRelationships. cbn [relationships].
      set (who := if truthy_str (entity e) then _ else _).
      set (r := match relationships st0 !! who with
                | Some r => r
                | None => {| bond := 0.5; trust := 0.5; interactions := 0;
                             lastSeen := now; emotions := [] |}
                end).
      assert ((0 <= bond r <= 1)%Q ∧ (0 <= trust r <= 1)%Q)
        as [[Hb0 Hb1] [Ht0 Ht1]].
      { subst r. rewrite Hst0. destruct (relationships st !! who) eqn:Hk.
        - by apply (Hr _ _ Hk).
        - simpl. split; lra. }
      rewrite Hst0. apply map_Forall_insert_2; [| done].
      simpl. unfold Math_min, Math_max.
      destruct (positive e); [| destruct (negative e)].
      + split; (split; [apply Q.min_glb; lra | apply Q.le_min_l]).
      + split; (split; [apply Q.le_max_l | apply Q.max_lub; lra]).
      + split; split; done. }
  split; [done |]. split; [| split].
  - intros _ _.
    assert (coherence (integrate cfg now e st)
            = computeCoherence (integrate cfg now e st)) as -> by reflexivity.
    by apply computeCoherence_range.
  - unfold reflect, Spec.identity_ranges.
    cbn [selfConcept personality values relationships with_selfConcept].
    split; [| split; [| split; [done | done]]].
    + unfold reassessValues.
      assert (Forall (λ kv : string * coreValue, 0 <= vimportance kv.2 <= 1)%Q
                (take 3 (Array_sort by_vimportance (values st)))) as Htop.
      { apply Forall_take. by rewrite Array_sort_Permutation. }
      assert (map_Forall (λ _ c, 0 <= strength c <= 1)%Q
                (foldl integrateEntry (selfConcept st) (selfNarrative st)))
        as Hsc.
      { generalize (selfNarrative st). intros l. revert Hc.
        generalize (selfConcept st). induction l as [| x l IH]; intros sc Hsc;
          simpl; [done |].
        apply IH. unfold integrateEntry. destruct (integrated x); [done |].
        repeat case_bool_decide;
          repeat (apply map_Forall_insert_2; [simpl; lra |]); done. }
      revert Hsc.
      generalize (foldl integrateEntry (selfConcept st) (selfNarrative st)).
      induction Htop as [| kv top Hkv _ IH]; intros sc Hsc; simpl; [done |].
      apply IH. destruct (sc !! _); [done |].
      by apply map_Forall_insert_2.
    + intros k t'. rewrite lookup_fmap.
      destruct (personality st !! k) as [t |] eqn:Ht; [| done].
      intros [= <-]. destruct (Hp _ _ Ht) as [[Hv0 Hv1] [Hs0 Hs1]].
      unfold evaluateTrait. simpl. unfold Math_min. split.
      * case_bool_decide; split; lra.
      * destruct (ltb (stability t) 1);
          [split; [apply Q.min_glb; lra | apply Q.le_min_l] | split; done].
  - unfold setName, Spec.identity_ranges.
    cbn [selfConcept personality values relationships].
    split; [| done]. apply map_Forall_insert_2; [simpl; lra | done].
Qed.

Lemma identity_ranges_preserved_witness :
  (0 <= coherence (integrate default_config 5 Examples.victory
                     Examples.identity_start) <= 1)%Q.
Proof.
  refine (proj1 (proj2 (identity_ranges_preserved default_config 5
                          Examples.victory "Lucian" Examples.identity_start
                          _ _)) _ _).
  - vm_compute. split; discriminate.
  - apply identity_ranges_initial. intros v. lra.
  - intros Hempty. apply (f_equal (λ m, m !! "openness"%string)) in Hempty.
    discriminate Hempty.
  - discriminate.
Defined.

End AetheronLaws.
